(** * QR Code encoder: a shallow embedding of the segment encoders and the
      payload assembler, with the properties stated about them.

    The development follows [Encoder] (mode selection, version fitting,
    segment packing, termination, block split and interleaving, mask
    selection), [QRNumeric] (the second numeric segment writer of the
    repository) and, of the decoder, the inversion attempts of
    [Decoder.decode] and the clamp of the binarizer.

    Conventions.
    - A JavaScript [number] that holds a count, an index or a code is a [Z];
      [Math.floor (a / b)] is [Z.div], [a % b] is [Z.rem] (sign of the
      dividend), and the 32-bit operators [&], [|], [<<], [>>] go through
      [toInt32].  The one place where [/] is used without [Math.floor]
      ([willFit]) is modelled over [Q].  Where the divisor may be zero
      (the block split) quotients and remainders are [JS.number]s: an
      integer, an infinity or NaN.
    - A JavaScript string is the list of its UTF-16 code units.
    - A [Uint8Array] is a [list byte]; reading past its end gives
      [undefined], which the numeric operators turn into [0].
    - A method that mutates a [BitArray] and may throw is a computation in
      the monad [M]: it receives the array, returns the array as it is when
      the method returns or throws, and says which of the two happened. *)

From Stdlib Require Import ZArith NArith List Lia Bool String Ascii QArith.
From Stdlib Require Import Strings.Byte.
From Stdlib Require Import Sorting.Permutation.
Import ListNotations.

Local Open Scope Z_scope.

(* ===================================================================== *)
(** ** JavaScript numbers *)
(* ===================================================================== *)

Module JS.

(** [ToInt32]: the value modulo 2^32, read as a signed 32-bit integer. *)
Definition toInt32 (x : Z) : Z := (x + 2 ^ 31) mod 2 ^ 32 - 2 ^ 31.

(** [a & b] *)
Definition land (a b : Z) : Z := Z.land (toInt32 a) (toInt32 b).

(** [a | b] *)
Definition lor (a b : Z) : Z := Z.lor (toInt32 a) (toInt32 b).

(** [a << n]: the shift count is taken modulo 32. *)
Definition shl (a n : Z) : Z := toInt32 (Z.shiftl (toInt32 a) (n mod 32)).

(** [a >> n] (sign-propagating). *)
Definition sar (a n : Z) : Z := Z.shiftr (toInt32 a) (n mod 32).

(** A string: its UTF-16 code units. *)
Definition JSString := list N.

(** The code units of a Rocq string (one unit per character). *)
Fixpoint ofString (s : string) : JSString :=
  match s with
  | EmptyString => []
  | String c s' => N_of_ascii c :: ofString s'
  end.

(** [s.charCodeAt(i)].  Every caller in the sources guards the index
    with [i < s.length]; the value outside that range is never used. *)
Definition charCodeAt (s : JSString) (i : nat) : N := nth i s 0%N.

(** [s.charAt(i)], a string of one code unit (empty out of range). *)
Definition charAt (s : JSString) (i : nat) : JSString :=
  match nth_error s i with Some c => [c] | None => [] end.

(** [s.substring(a, b)] for [a <= b]. *)
Definition substring (s : JSString) (a b : nat) : JSString :=
  firstn (b - a) (skipn a s).

(** [bytes[i]] on a [Uint8Array], followed by a numeric operator:
    [undefined] past the end behaves as [0]. *)
Definition byteAt (bytes : list byte) (i : nat) : Z :=
  match nth_error bytes i with
  | Some b => Z.of_N (Byte.to_N b)
  | None => 0
  end.

(** A [number] as the arithmetic of the block split can leave it: an
    integer, or what a division by zero gives. *)
Inductive number : Type :=
| Int (z : Z)
| Infinity
| NegInfinity
| NaN.

(** [a % b] on integers: [NaN] for [b = 0], else the remainder with the
    sign of the dividend. *)
Definition rem (a b : Z) : number :=
  if b =? 0 then NaN else Int (Z.rem a b).

(** [Math.floor(a / b)] on integers: [a / 0] is the infinity of the sign
    of [a], and [0 / 0] is [NaN]. *)
Definition floorDiv (a b : Z) : number :=
  if b =? 0 then
    if 0 <? a then Infinity else if a <? 0 then NegInfinity else NaN
  else Int (a / b).

(** [a + b] *)
Definition add (a b : number) : number :=
  match a, b with
  | NaN, _ | _, NaN => NaN
  | Int x, Int y => Int (x + y)
  | Infinity, NegInfinity | NegInfinity, Infinity => NaN
  | Infinity, _ | _, Infinity => Infinity
  | NegInfinity, _ | _, NegInfinity => NegInfinity
  end.

(** [a - b] *)
Definition sub (a b : number) : number :=
  match a, b with
  | NaN, _ | _, NaN => NaN
  | Int x, Int y => Int (x - y)
  | Infinity, Infinity | NegInfinity, NegInfinity => NaN
  | Infinity, _ | _, NegInfinity => Infinity
  | NegInfinity, _ | _, Infinity => NegInfinity
  end.

(** [a * b] *)
Definition mul (a b : number) : number :=
  match a, b with
  | NaN, _ | _, NaN => NaN
  | Int x, Int y => Int (x * y)
  | Int x, Infinity | Infinity, Int x =>
      if x =? 0 then NaN else if 0 <? x then Infinity else NegInfinity
  | Int x, NegInfinity | NegInfinity, Int x =>
      if x =? 0 then NaN else if 0 <? x then NegInfinity else Infinity
  | Infinity, Infinity | NegInfinity, NegInfinity => Infinity
  | Infinity, NegInfinity | NegInfinity, Infinity => NegInfinity
  end.

(** [a !== b]: [NaN] differs from every number, itself included. *)
Definition strictNeq (a b : number) : bool :=
  match a, b with
  | Int x, Int y => negb (x =? y)
  | Infinity, Infinity | NegInfinity, NegInfinity => false
  | _, _ => true
  end.

(** [a < b]: false when either is [NaN]. *)
Definition lt (a b : number) : bool :=
  match a, b with
  | Int x, Int y => x <? y
  | Int _, Infinity | NegInfinity, Int _ | NegInfinity, Infinity => true
  | _, _ => false
  end.

(** The value an [Int32Array] cell takes when [a] is stored in it:
    [ToInt32], which turns [NaN] and the infinities into [0]. *)
Definition storeInt32 (a : number) : Z :=
  match a with
  | Int z => toInt32 z
  | _ => 0
  end.

End JS.

(* ===================================================================== *)
(** ** Exceptions and the monad of a mutated bit array *)
(* ===================================================================== *)

Inductive Exception : Type :=
| WriterException (msg : string)
| IllegalArgumentException (msg : string)
| RangeError (msg : string)
| ThrownString (msg : string).

Inductive Outcome (A : Type) : Type :=
| Returned (a : A)
| Thrown (e : Exception).

Arguments Returned {A} a.
Arguments Thrown {A} e.

(** A method running against a mutable object of type [St]. *)
Definition M (St A : Type) : Type := St -> Outcome A * St.

Definition ret {St A} (a : A) : M St A := fun s => (Returned a, s).

Definition throw {St A} (e : Exception) : M St A := fun s => (Thrown e, s).

Definition bind {St A B} (m : M St A) (k : A -> M St B) : M St B :=
  fun s =>
    match m s with
    | (Returned a, s') => k a s'
    | (Thrown e, s') => (Thrown e, s')
    end.

Declare Scope js_scope.
Delimit Scope js_scope with js.
Notation "x <- m ;; k" := (bind m (fun x => k))
  (at level 61, m at next level, right associativity) : js_scope.
Notation "m ;; k" := (bind m (fun _ => k))
  (at level 61, right associativity) : js_scope.
Local Open Scope js_scope.

(** Did the method return normally? *)
Definition returned {A St} (r : Outcome A * St) : bool :=
  match fst r with Returned _ => true | Thrown _ => false end.

(** Did the method throw? *)
Definition failed {A St} (r : Outcome A * St) : bool := negb (returned r).

(* ===================================================================== *)
(** ** BitArray *)
(* ===================================================================== *)

Module BitArray.

(** Modelled from the spec: [BitArray] (common/BitArray) is not among the
    sources.  The spec describes it as an append-only ordered sequence of
    bits, big-endian within each byte, with [append_bit], [append_bits],
    [append_stream], [size], [size_in_bytes = (size + 7) / 8] (the number
    of whole bytes, rounded up) and a byte readout. *)
Definition t := list bool.

Definition empty : t := [].

Definition getSize (bits : t) : Z := Z.of_nat (List.length bits).

Definition getSizeInBytes (bits : t) : Z := (getSize bits + 7) / 8.

Definition appendBit (b : bool) : M t unit :=
  fun bits => (Returned tt, bits ++ [b]).

(** The low [n] bits of [value], most significant first. *)
Definition bitsOf (value : Z) (n : nat) : list bool :=
  map (fun k => Z.testbit value (Z.of_nat (n - 1 - k))) (seq 0 n).

(** Modelled from the spec: [append_bits(value: u32, n)] writes the low
    [n] bits of [value], MSB first, and fails if [n == 0], [n > 32] or
    [value >= 2^n]. *)
Definition appendBits (value numBits : Z) : M t unit :=
  fun bits =>
    if (numBits <=? 0) || (32 <? numBits) || (value <? 0)
       || (2 ^ numBits <=? value)
    then (Thrown (IllegalArgumentException "append_bits"), bits)
    else (Returned tt, bits ++ bitsOf value (Z.to_nat numBits)).

Definition appendBitArray (other : t) : M t unit :=
  fun bits => (Returned tt, bits ++ other).

(** The bit at [i]; a bit that was never appended reads as [0]. *)
Definition get (bits : t) (i : nat) : bool := nth i bits false.

(** The value of the eight bits from [bitOffset] on, MSB first. *)
Definition byteValueAt (bits : t) (bitOffset : nat) : Z :=
  fold_left (fun acc k => 2 * acc + Z.b2z (get bits (bitOffset + k)))
            (seq 0 8) 0.

Definition byteOfZ (v : Z) : byte :=
  match Byte.of_N (Z.to_N (v mod 256)) with
  | Some b => b
  | None => x00
  end.

(** Modelled from the spec: [to_bytes(bit_offset, out, dst_offset,
    num_bytes)] reads [num_bytes] whole bytes starting at [bit_offset].
    The only caller writes a fresh array from its start, so the readout
    is returned as the array. *)
Definition toBytes (bits : t) (bitOffset : nat) (numBytes : nat)
  : list byte :=
  map (fun j => byteOfZ (byteValueAt bits (bitOffset + 8 * j)))
      (seq 0 numBytes).

End BitArray.

(** [BitBuffer] of the second encoder: the same append-only bit stream,
    whose [put(num, length)] is the spec's [append_bits]. *)
Module BitBuffer.

Definition t := BitArray.t.

(** Modelled from the spec: [BitBuffer] (encoder/BitBuffer) is not among
    the sources; the spec has a single bit stream, whose
    [append_bits(value, n)] writes the low [n] bits of [value], MSB
    first. *)
Definition put (num len : Z) : M t unit := BitArray.appendBits num len.

End BitBuffer.

(* ===================================================================== *)
(** ** Loops *)
(* ===================================================================== *)

(** [for (const x of l) body(x)]: the body runs on each element in order;
    an exception leaves the loop. *)
Fixpoint forEach {St A} (l : list A) (body : A -> M St unit) : M St unit :=
  match l with
  | [] => ret tt
  | x :: rest => body x ;; forEach rest body
  end.

(** The indices of [for (let i = 0; i < n; ++i)]. *)
Definition upTo (n : Z) : list Z := map Z.of_nat (seq 0 (Z.to_nat n)).

(** The indices of [for (let i = 0; i < n; i += 2)]. *)
Definition evensBelow (n : nat) : list nat :=
  map (fun k => (2 * k)%nat) (seq 0 (Nat.div2 (S n))).

(* ===================================================================== *)
(** ** Mode, error correction level, version, character sets *)
(* ===================================================================== *)

Module ErrorCorrectionLevel.

Inductive t : Type := L | M | Q | H.

End ErrorCorrectionLevel.

Module ECBlocks.

(** Modelled from the spec: the per-level block structure of a version
    (decoder/ECBlocks is not among the sources), reduced to the two
    numbers the encoder reads from it. *)
Record t : Type := mk {
  getTotalECCodewords : Z;
  getNumBlocks : Z
}.

End ECBlocks.

Module Version.

(** Modelled from the spec: a version (decoder/Version is not among the
    sources) carries its number in 1..40, its total codeword count and,
    for each level, its block structure.  The table itself is a
    parameter of the encoder ([getVersionForNumber]). *)
Record t : Type := mk {
  getVersionNumber : Z;
  getTotalCodewords : Z;
  getECBlocksForLevel : ErrorCorrectionLevel.t -> ECBlocks.t
}.

End Version.

Module Mode.

(** Modelled from the spec: [Mode] (decoder/Mode is not among the
    sources) has the four payload values and the ECI marker, with the
    indicators 0001, 0010, 0100, 1000 and 0111. *)
Inductive t : Type := NUMERIC | ALPHANUMERIC | BYTE | KANJI | ECI.

Definition getBits (m : t) : Z :=
  match m with
  | NUMERIC => 1
  | ALPHANUMERIC => 2
  | BYTE => 4
  | KANJI => 8
  | ECI => 7
  end.

(** Modelled from the spec: the character-count widths for versions
    1-9, 10-26 and 27-40: {10,12,14}, {9,11,13}, {8,16,16}, {8,10,12}.
    The ECI marker carries no character count. *)
Definition characterCountBitsForVersions (m : t) : list Z :=
  match m with
  | NUMERIC => [10; 12; 14]
  | ALPHANUMERIC => [9; 11; 13]
  | BYTE => [8; 16; 16]
  | KANJI => [8; 10; 12]
  | ECI => [0; 0; 0]
  end.

Definition getCharacterCountBits (m : t) (version : Version.t) : Z :=
  let number := Version.getVersionNumber version in
  let offset :=
    if number <=? 9 then 0%nat else if number <=? 26 then 1%nat else 2%nat in
  nth offset (characterCountBitsForVersions m) 0.

Definition eqb (a b : t) : bool :=
  match a, b with
  | NUMERIC, NUMERIC | ALPHANUMERIC, ALPHANUMERIC | BYTE, BYTE
  | KANJI, KANJI | ECI, ECI => true
  | _, _ => false
  end.

End Mode.

Module CharacterSetECI.

(** Modelled from the spec: a character set has a name and an ECI
    designator value (common/CharacterSetECI is not among the sources). *)
Record t : Type := mk {
  getName : string;
  getValue : Z
}.

End CharacterSetECI.

(** The hints of [encode]: [hints.get(CHARACTER_SET)] and
    [hints.get(QR_VERSION)], each possibly absent. *)
Module EncodeHints.

Record t : Type := mk {
  CHARACTER_SET : option string;
  QR_VERSION : option Z
}.

End EncodeHints.

(* ===================================================================== *)
(** ** QRNumeric *)
(* ===================================================================== *)

Module QRNumeric.

(** [charToNum(ch)]: ['0' <= ch && ch <= '9'] compares one-unit strings,
    that is, their code units. *)
Definition charToNum {St} (ch : JS.JSString) : M St Z :=
  match ch with
  | [c] =>
      if (48 <=? c)%N && (c <=? 57)%N then ret (Z.of_N c - 48)
      else throw (ThrownString "illegal char")
  | _ => throw (ThrownString "illegal char")
  end.

(** The [for] loop of [strToNum] over the remaining indices.  [num] is
    an integer: the model is exact while [num * 10 + d] stays below
    [2 ^ 53], that is for strings of at most 15 digits; [write] passes
    substrings of at most three characters. *)
Fixpoint strToNum_loop {St} (str : JS.JSString) (indices : list nat)
  (num : Z) : M St Z :=
  match indices with
  | [] => ret num
  | i :: rest =>
      d <- charToNum (JS.charAt str i) ;;
      strToNum_loop str rest (num * 10 + d)
  end.

Definition strToNum {St} (str : JS.JSString) : M St Z :=
  strToNum_loop str (seq 0 (List.length str)) 0.

(** The [while (i + 2 < length)] loop of [write]; it returns the index
    at which it stops.  Each round advances [i] by three, so
    [length] rounds are more than enough. *)
Fixpoint write_loop (fuel : nat) (data : JS.JSString) (i : nat)
  : M BitBuffer.t nat :=
  match fuel with
  | O => ret i
  | S fuel' =>
      if (i + 2 <? List.length data)%nat then
        n <- strToNum (JS.substring data i (i + 3)) ;;
        BitBuffer.put n 10 ;;
        write_loop fuel' data (i + 3)
      else ret i
  end.

Definition write (data : JS.JSString) : M BitBuffer.t unit :=
  let length := List.length data in
  i <- write_loop length data 0 ;;
  if (i <? length)%nat then
    if (length - i =? 1)%nat then
      n <- strToNum (JS.substring data i (i + 1)) ;;
      BitBuffer.put n 4
    else if (length - i =? 2)%nat then
      n <- strToNum (JS.substring data i (i + 2)) ;;
      BitBuffer.put n 7
    else ret tt
  else ret tt.

End QRNumeric.

(* ===================================================================== *)
(** ** QRCode *)
(* ===================================================================== *)

Module QRCode.

(** Modelled from the spec: [QRCode] is not among the sources.  The spec
    speaks of the eight mask patterns and of a mask pattern in 0..7. *)
Definition NUM_MASK_PATTERNS : Z := 8.

End QRCode.

(* ===================================================================== *)
(** ** Encoder *)
(* ===================================================================== *)

Module Encoder.

(** The original table is defined in the table 5 of JISX0510:2004. *)
Definition ALPHANUMERIC_TABLE : list Z := [
  -1; -1; -1; -1; -1; -1; -1; -1; -1; -1; -1; -1; -1; -1; -1; -1;
  -1; -1; -1; -1; -1; -1; -1; -1; -1; -1; -1; -1; -1; -1; -1; -1;
  36; -1; -1; -1; 37; 38; -1; -1; -1; -1; 39; 40; -1; 41; 42; 43;
  0; 1; 2; 3; 4; 5; 6; 7; 8; 9; 44; -1; -1; -1; -1; -1;
  -1; 10; 11; 12; 13; 14; 15; 16; 17; 18; 19; 20; 21; 22; 23; 24;
  25; 26; 27; 28; 29; 30; 31; 32; 33; 34; 35; -1; -1; -1; -1; -1
].

(** [getAlphanumericCode(code)], on a code unit. *)
Definition getAlphanumericCode (code : N) : Z :=
  if (Z.of_N code <? Z.of_nat (List.length ALPHANUMERIC_TABLE)) then
    nth (N.to_nat code) ALPHANUMERIC_TABLE (-1)
  else -1.

Definition getDigit (singleCharacter : JS.JSString) : Z :=
  Z.of_N (JS.charCodeAt singleCharacter 0) - 48.

Definition isDigit (singleCharacter : JS.JSString) : bool :=
  let cn := getDigit singleCharacter in
  (0 <=? cn) && (cn <=? 9).

(** [getNumDataBytesAndNumECBytesForBlockID]: the two one-element
    [Int32Array]s it fills are returned as a pair.  The byte counts and
    the block count are integers; the quotients and the remainder are
    [JS.number]s, since [numRSBlocks] may be [0]. *)
Definition getNumDataBytesAndNumECBytesForBlockID {St}
  (numTotalBytes numDataBytes numRSBlocks blockID : Z) : M St (Z * Z) :=
  if blockID >=? numRSBlocks then
    throw (WriterException "Block ID too large")
  else
    let numRsBlocksInGroup2 := JS.rem numTotalBytes numRSBlocks in
    let numRsBlocksInGroup1 :=
      JS.sub (JS.Int numRSBlocks) numRsBlocksInGroup2 in
    let numTotalBytesInGroup1 := JS.floorDiv numTotalBytes numRSBlocks in
    let numTotalBytesInGroup2 := JS.add numTotalBytesInGroup1 (JS.Int 1) in
    let numDataBytesInGroup1 := JS.floorDiv numDataBytes numRSBlocks in
    let numDataBytesInGroup2 := JS.add numDataBytesInGroup1 (JS.Int 1) in
    let numEcBytesInGroup1 :=
      JS.sub numTotalBytesInGroup1 numDataBytesInGroup1 in
    let numEcBytesInGroup2 :=
      JS.sub numTotalBytesInGroup2 numDataBytesInGroup2 in
    if JS.strictNeq numEcBytesInGroup1 numEcBytesInGroup2 then
      throw (WriterException "EC bytes mismatch")
    else if JS.strictNeq (JS.Int numRSBlocks)
              (JS.add numRsBlocksInGroup1 numRsBlocksInGroup2)
    then throw (WriterException "RS blocks mismatch")
    else if JS.strictNeq (JS.Int numTotalBytes)
              (JS.add
                 (JS.mul (JS.add numDataBytesInGroup1 numEcBytesInGroup1)
                         numRsBlocksInGroup1)
                 (JS.mul (JS.add numDataBytesInGroup2 numEcBytesInGroup2)
                         numRsBlocksInGroup2))
    then throw (WriterException "Total bytes mismatch")
    else if JS.lt (JS.Int blockID) numRsBlocksInGroup1 then
      ret (JS.storeInt32 numDataBytesInGroup1,
           JS.storeInt32 numEcBytesInGroup1)
    else
      ret (JS.storeInt32 numDataBytesInGroup2,
           JS.storeInt32 numEcBytesInGroup2).

(** [willFit]: [(numInputBits + 7) / 8] is a plain division of numbers,
    so [totalInputBytes] is a rational. *)
Definition willFit (numInputBits : Z) (version : Version.t)
  (ecLevel : ErrorCorrectionLevel.t) : bool :=
  let numBytes := Version.getTotalCodewords version in
  let ecBlocks := Version.getECBlocksForLevel version ecLevel in
  let numEcBytes := ECBlocks.getTotalECCodewords ecBlocks in
  let numDataBytes := numBytes - numEcBytes in
  let totalInputBytes : Q := (inject_Z (numInputBits + 7) / 8)%Q in
  Qle_bool totalInputBytes (inject_Z numDataBytes).

Definition appendModeInfo (mode : Mode.t) : M BitArray.t unit :=
  BitArray.appendBits (Mode.getBits mode) 4.

Definition appendLengthInfo (numLetters : Z) (version : Version.t)
  (mode : Mode.t) : M BitArray.t unit :=
  let numBits := Mode.getCharacterCountBits mode version in
  if numLetters >=? JS.shl 1 numBits then
    throw (WriterException "is bigger than")
  else BitArray.appendBits numLetters numBits.

Definition appendECI (eci : CharacterSetECI.t) : M BitArray.t unit :=
  BitArray.appendBits (Mode.getBits Mode.ECI) 4 ;;
  BitArray.appendBits (CharacterSetECI.getValue eci) 8.

(** The [while (i < length)] loop of [appendNumericBytes].  Each round
    advances [i], so [length] rounds are enough. *)
Fixpoint appendNumericBytes_loop (fuel : nat) (content : JS.JSString)
  (i : nat) : M BitArray.t unit :=
  match fuel with
  | O => ret tt
  | S fuel' =>
      let length := List.length content in
      if (i <? length)%nat then
        let num1 := getDigit (JS.charAt content i) in
        if (i + 2 <? length)%nat then
          let num2 := getDigit (JS.charAt content (i + 1)) in
          let num3 := getDigit (JS.charAt content (i + 2)) in
          BitArray.appendBits (num1 * 100 + num2 * 10 + num3) 10 ;;
          appendNumericBytes_loop fuel' content (i + 3)
        else if (i + 1 <? length)%nat then
          let num2 := getDigit (JS.charAt content (i + 1)) in
          BitArray.appendBits (num1 * 10 + num2) 7 ;;
          appendNumericBytes_loop fuel' content (i + 2)
        else
          BitArray.appendBits num1 4 ;;
          appendNumericBytes_loop fuel' content (i + 1)
      else ret tt
  end.

Definition appendNumericBytes (content : JS.JSString) : M BitArray.t unit :=
  appendNumericBytes_loop (List.length content) content 0.

Fixpoint appendAlphanumericBytes_loop (fuel : nat) (content : JS.JSString)
  (i : nat) : M BitArray.t unit :=
  match fuel with
  | O => ret tt
  | S fuel' =>
      let length := List.length content in
      if (i <? length)%nat then
        let code1 := getAlphanumericCode (JS.charCodeAt content i) in
        if code1 =? -1 then throw (WriterException "")
        else if (i + 1 <? length)%nat then
          let code2 := getAlphanumericCode (JS.charCodeAt content (i + 1)) in
          if code2 =? -1 then throw (WriterException "")
          else
            BitArray.appendBits (code1 * 45 + code2) 11 ;;
            appendAlphanumericBytes_loop fuel' content (i + 2)
        else
          BitArray.appendBits code1 6 ;;
          appendAlphanumericBytes_loop fuel' content (i + 1)
      else ret tt
  end.

Definition appendAlphanumericBytes (content : JS.JSString)
  : M BitArray.t unit :=
  appendAlphanumericBytes_loop (List.length content) content 0.

(** The first loop of [terminateBits]:
    [for (i = 0; i < 4 && bits.getSize() < capacity; ++i)]. *)
Fixpoint terminateBits_zeros (fuel : nat) (capacity : Z) (i : Z)
  : M BitArray.t unit :=
  match fuel with
  | O => ret tt
  | S fuel' =>
      fun bits =>
        if (i <? 4) && (BitArray.getSize bits <? capacity) then
          (BitArray.appendBit false ;;
           terminateBits_zeros fuel' capacity (i + 1)) bits
        else ret tt bits
  end.

Definition terminateBits (numDataBytes : Z) : M BitArray.t unit :=
  fun bits =>
    let capacity := numDataBytes * 8 in
    if BitArray.getSize bits >? capacity then
      throw (WriterException "data bits cannot fit in the QR Code") bits
    else
      (terminateBits_zeros 4 capacity 0 ;;
       (fun bits =>
          let numBitsInLastByte := JS.land (BitArray.getSize bits) 0x07 in
          (if numBitsInLastByte >? 0 then
             forEach (map (fun k => numBitsInLastByte + k)
                          (upTo (8 - numBitsInLastByte)))
                     (fun _ => BitArray.appendBit false)
           else ret tt) bits) ;;
       (fun bits =>
          let numPaddingBytes :=
            numDataBytes - BitArray.getSizeInBytes bits in
          forEach (upTo numPaddingBytes)
                  (fun i =>
                     BitArray.appendBits
                       (if JS.land i 0x01 =? 0 then 0xec else 0x11) 8) bits) ;;
       (fun bits =>
          if negb (BitArray.getSize bits =? capacity) then
            throw (WriterException "Bits size does not equal capacity") bits
          else ret tt bits)) bits.

Module BlockPair.

Record t : Type := mk {
  getDataBytes : list byte;
  getErrorCorrectionBytes : list byte
}.

End BlockPair.

(** The local variables of the first loop of [interleaveWithECBytes]. *)
Record InterleaveVars : Type := mkInterleaveVars {
  dataBytesOffset : Z;
  maxNumDataBytes : Z;
  maxNumEcBytes : Z;
  blocks : list BlockPair.t
}.

(** [new Uint8Array(n)] and [new Int32Array(n)] throw on a negative
    length. *)
Definition checkArrayLength {St} (n : Z) : M St unit :=
  if n <? 0 then throw (RangeError "Invalid typed array length")
  else ret tt.

(** A value that a collaborator returned or threw, in the monad. *)
Definition lift {St A} (o : Outcome A) : M St A := fun s => (o, s).

Section WithCollaborators.

(** [StringEncoding.encode(content, encoding)]: the platform's text
    encoder (util/StringEncoding is not among the sources); it returns
    the bytes or throws. *)
Variable StringEncoding_encode : JS.JSString -> string -> Outcome (list byte).

(** [CharacterSetECI.SJIS], [CharacterSetECI.UTF8] and
    [CharacterSetECI.getCharacterSetECIByName], [null] when the name is
    unknown. *)
Variable SJIS : CharacterSetECI.t.
Variable UTF8 : CharacterSetECI.t.
Variable getCharacterSetECIByName : string -> option CharacterSetECI.t.

(** [Version.getVersionForNumber]: the version table. *)
Variable getVersionForNumber : Z -> Outcome Version.t.

(** [new ReedSolomonEncoder(QR_CODE_FIELD_256).encode(toEncode, ecBytes)]:
    the content of [toEncode] after the call, or the exception. *)
Variable ReedSolomonEncoder_encode : list Z -> Z -> Outcome (list Z).

Definition DEFAULT_BYTE_MODE_ENCODING : string :=
  CharacterSetECI.getName UTF8.

Definition isOnlyDoubleByteKanji (content : JS.JSString) : bool :=
  match StringEncoding_encode content (CharacterSetECI.getName SJIS) with
  | Thrown _ => false
  | Returned bytes =>
      let length := List.length bytes in
      if negb (Nat.modulo length 2 =? 0)%nat then false
      else
        forallb
          (fun i =>
             let byte1 := JS.land (JS.byteAt bytes i) 0xff in
             negb (((byte1 <? 0x81) || (byte1 >? 0x9f))
                   && ((byte1 <? 0xe0) || (byte1 >? 0xeb))))
          (evensBelow length)
  end.

(** The scan of [chooseMode]; [return Mode.BYTE] leaves the loop. *)
Fixpoint chooseMode_scan (content : JS.JSString) (indices : list nat)
  (hasNumeric hasAlphanumeric : bool) : Mode.t :=
  match indices with
  | [] =>
      if hasAlphanumeric then Mode.ALPHANUMERIC
      else if hasNumeric then Mode.NUMERIC
      else Mode.BYTE
  | i :: rest =>
      let c := JS.charAt content i in
      if isDigit c then chooseMode_scan content rest true hasAlphanumeric
      else if negb (getAlphanumericCode (JS.charCodeAt c 0) =? -1) then
        chooseMode_scan content rest hasNumeric true
      else Mode.BYTE
  end.

(** [chooseMode(content, encoding)]; [encoding] is [null] by default. *)
Definition chooseMode (content : JS.JSString) (encoding : option string)
  : Mode.t :=
  if match encoding with
     | Some e => String.eqb (CharacterSetECI.getName SJIS) e
     | None => false
     end && isOnlyDoubleByteKanji content
  then Mode.KANJI
  else chooseMode_scan content (seq 0 (List.length content)) false false.

Definition append8BitBytes (content : JS.JSString) (encoding : string)
  : M BitArray.t unit :=
  match StringEncoding_encode content encoding with
  | Thrown uee => throw (WriterException "uee")
  | Returned bytes =>
      forEach (seq 0 (List.length bytes))
              (fun i => BitArray.appendBits (JS.byteAt bytes i) 8)
  end.

Definition appendKanjiBytes (content : JS.JSString) : M BitArray.t unit :=
  match StringEncoding_encode content (CharacterSetECI.getName SJIS) with
  | Thrown uee => throw (WriterException "uee")
  | Returned bytes =>
      let length := List.length bytes in
      forEach (evensBelow length)
        (fun i =>
           let byte1 := JS.land (JS.byteAt bytes i) 0xff in
           let byte2 := JS.land (JS.byteAt bytes (i + 1)) 0xff in
           let code := JS.lor (JS.land (JS.shl byte1 8) 0xffffffff) byte2 in
           let subtracted :=
             if (code >=? 0x8140) && (code <=? 0x9ffc) then code - 0x8140
             else if (code >=? 0xe040) && (code <=? 0xebbf) then code - 0xc140
             else -1 in
           if subtracted =? -1 then
             throw (WriterException "Invalid byte sequence")
           else
             let encoded :=
               JS.sar subtracted 8 * 0xc0 + JS.land subtracted 0xff in
             BitArray.appendBits encoded 13)
  end.

Definition appendBytes (content : JS.JSString) (mode : Mode.t)
  (encoding : string) : M BitArray.t unit :=
  match mode with
  | Mode.NUMERIC => appendNumericBytes content
  | Mode.ALPHANUMERIC => appendAlphanumericBytes content
  | Mode.BYTE => append8BitBytes content encoding
  | Mode.KANJI => appendKanjiBytes content
  | _ => throw (WriterException "Invalid mode")
  end.

Fixpoint chooseVersion_loop {St} (versionNums : list Z)
  (numInputBits : Z) (ecLevel : ErrorCorrectionLevel.t)
  : M St Version.t :=
  match versionNums with
  | [] => throw (WriterException "Data too big")
  | versionNum :: rest =>
      version <- lift (getVersionForNumber versionNum) ;;
      if willFit numInputBits version ecLevel then ret version
      else chooseVersion_loop rest numInputBits ecLevel
  end.

Definition chooseVersion {St} (numInputBits : Z)
  (ecLevel : ErrorCorrectionLevel.t) : M St Version.t :=
  chooseVersion_loop (map (fun k => 1 + k) (upTo 40)) numInputBits ecLevel.

Definition calculateBitsNeeded (mode : Mode.t)
  (headerBits dataBits : BitArray.t) (version : Version.t) : Z :=
  BitArray.getSize headerBits + Mode.getCharacterCountBits mode version
  + BitArray.getSize dataBits.

Definition recommendVersion {St} (ecLevel : ErrorCorrectionLevel.t)
  (mode : Mode.t) (headerBits dataBits : BitArray.t) : M St Version.t :=
  version1 <- lift (getVersionForNumber 1) ;;
  let provisionalBitsNeeded :=
    calculateBitsNeeded mode headerBits dataBits version1 in
  provisionalVersion <- chooseVersion provisionalBitsNeeded ecLevel ;;
  let bitsNeeded :=
    calculateBitsNeeded mode headerBits dataBits provisionalVersion in
  chooseVersion bitsNeeded ecLevel.


Definition generateECBytes {St} (dataBytes : list byte)
  (numEcBytesInBlock : Z) : M St (list byte) :=
  let numDataBytes := Z.of_nat (List.length dataBytes) in
  checkArrayLength (numDataBytes + numEcBytesInBlock) ;;
  let toEncode :=
    map (fun i => JS.land (JS.byteAt dataBytes i) 0xff)
        (seq 0 (List.length dataBytes))
    ++ repeat 0 (Z.to_nat numEcBytesInBlock) in
  toEncode' <- lift (ReedSolomonEncoder_encode toEncode numEcBytesInBlock) ;;
  checkArrayLength numEcBytesInBlock ;;
  ret (map (fun i =>
              BitArray.byteOfZ
                (nth (List.length dataBytes + i) toEncode' 0))
           (seq 0 (Z.to_nat numEcBytesInBlock))).

(** Step 1 of [interleaveWithECBytes], one round of the loop over the
    blocks. *)
Definition interleave_divide (bits : BitArray.t)
  (numTotalBytes numDataBytes numRSBlocks : Z) (i : Z)
  : M InterleaveVars unit :=
  sizes <- getNumDataBytesAndNumECBytesForBlockID
             numTotalBytes numDataBytes numRSBlocks i ;;
  let numDataBytesInBlock := fst sizes in
  let numEcBytesInBlock := snd sizes in
  let size := numDataBytesInBlock in
  checkArrayLength size ;;
  fun vars =>
    let dataBytes :=
      BitArray.toBytes bits (Z.to_nat (8 * dataBytesOffset vars))
                       (Z.to_nat size) in
    (ecBytes <- generateECBytes dataBytes numEcBytesInBlock ;;
     fun vars =>
       (Returned tt,
        {| dataBytesOffset := dataBytesOffset vars + numDataBytesInBlock;
           maxNumDataBytes := Z.max (maxNumDataBytes vars) size;
           maxNumEcBytes :=
             Z.max (maxNumEcBytes vars) (Z.of_nat (List.length ecBytes));
           blocks := blocks vars ++ [BlockPair.mk dataBytes ecBytes] |}))
      vars.

(** Steps 2 and 3: byte [i] of every block that has one, for the data
    bytes and then for the error correction bytes. *)
Definition interleave_place (maxNumBytes : Z)
  (blocks : list BlockPair.t) (select : BlockPair.t -> list byte)
  : M BitArray.t unit :=
  forEach (upTo maxNumBytes)
    (fun i =>
       forEach blocks
         (fun block =>
            let bytes := select block in
            if i <? Z.of_nat (List.length bytes) then
              BitArray.appendBits (JS.byteAt bytes (Z.to_nat i)) 8
            else ret tt)).

Definition interleaveWithECBytes {St} (bits : BitArray.t)
  (numTotalBytes numDataBytes numRSBlocks : Z) : M St BitArray.t :=
  if negb (BitArray.getSizeInBytes bits =? numDataBytes) then
    throw (WriterException "Number of bits and data bytes does not match")
  else
    match forEach (upTo numRSBlocks)
            (interleave_divide bits numTotalBytes numDataBytes numRSBlocks)
            (mkInterleaveVars 0 0 0 [])
    with
    | (Thrown e, _) => throw e
    | (Returned _, vars) =>
        if negb (numDataBytes =? dataBytesOffset vars) then
          throw (WriterException "Data bytes does not match offset")
        else
          match (interleave_place (maxNumDataBytes vars) (blocks vars)
                   BlockPair.getDataBytes ;;
                 interleave_place (maxNumEcBytes vars) (blocks vars)
                   BlockPair.getErrorCorrectionBytes) BitArray.empty
          with
          | (Thrown e, _) => throw e
          | (Returned _, result) =>
              if negb (numTotalBytes =? BitArray.getSizeInBytes result)
              then throw (WriterException "Interleaving error")
              else ret result
          end
    end.

(** [encode], from its start to the mode marker: the method run that
    fills [headerBits], returning the mode and the encoding. *)
Definition encode_headerBits (content : JS.JSString)
  (hints : option EncodeHints.t) : M BitArray.t (Mode.t * string) :=
  let hint :=
    match hints with
    | Some h => EncodeHints.CHARACTER_SET h
    | None => None
    end in
  let hasEncodingHint :=
    match hint with Some _ => true | None => false end in
  let encoding :=
    match hint with
    | Some e => e
    | None => DEFAULT_BYTE_MODE_ENCODING
    end in
  let mode := chooseMode content (Some encoding) in
  (if Mode.eqb mode Mode.BYTE
      && (hasEncodingHint
          || negb (String.eqb DEFAULT_BYTE_MODE_ENCODING encoding))
   then
     match getCharacterSetECIByName encoding with
     | Some eci => appendECI eci
     | None => ret tt
     end
   else ret tt) ;;
  appendModeInfo mode ;;
  ret (mode, encoding).

(** [encode], up to [finalBits]: the mode, the version and the
    interleaved codewords from which the matrix is built. *)
Definition encode_finalBits {St} (content : JS.JSString)
  (ecLevel : ErrorCorrectionLevel.t) (hints : option EncodeHints.t)
  : M St (Mode.t * Version.t * BitArray.t) :=
  match encode_headerBits content hints BitArray.empty with
  | (Thrown e, _) => throw e
  | (Returned (mode, encoding), headerBits) =>
      match appendBytes content mode encoding BitArray.empty with
      | (Thrown e, _) => throw e
      | (_, dataBits) =>
          version <-
            match hints with
            | Some {| EncodeHints.QR_VERSION := Some versionNumber |} =>
                version <- lift (getVersionForNumber versionNumber) ;;
                let bitsNeeded :=
                  calculateBitsNeeded mode headerBits dataBits version in
                if negb (willFit bitsNeeded version ecLevel) then
                  throw (WriterException
                           "Data too big for requested version")
                else ret version
            | _ => recommendVersion ecLevel mode headerBits dataBits
            end ;;
          let numLetters :=
            if Mode.eqb mode Mode.BYTE
            then BitArray.getSizeInBytes dataBits
            else Z.of_nat (List.length content) in
          match (BitArray.appendBitArray headerBits ;;
                 appendLengthInfo numLetters version mode ;;
                 BitArray.appendBitArray dataBits ;;
                 let ecBlocks :=
                   Version.getECBlocksForLevel version ecLevel in
                 let numDataBytes :=
                   Version.getTotalCodewords version
                   - ECBlocks.getTotalECCodewords ecBlocks in
                 terminateBits numDataBytes) BitArray.empty
          with
          | (Thrown e, _) => throw e
          | (_, headerAndDataBits) =>
              let ecBlocks :=
                Version.getECBlocksForLevel version ecLevel in
              let numDataBytes :=
                Version.getTotalCodewords version
                - ECBlocks.getTotalECCodewords ecBlocks in
              finalBits <-
                interleaveWithECBytes headerAndDataBits
                  (Version.getTotalCodewords version) numDataBytes
                  (ECBlocks.getNumBlocks ecBlocks) ;;
              ret (mode, version, finalBits)
          end
      end
  end.

End WithCollaborators.

Section WithMatrix.

(** The matrix under construction is one [ByteMatrix] object, shared by
    every call below: the state of the monad.  [MatrixUtil] and
    [MaskUtil] are not among the sources. *)
Variable ByteMatrix : Type.

(** [MatrixUtil.buildMatrix(bits, ecLevel, version, maskPattern, matrix)]
    writes into [matrix] and may throw. *)
Variable MatrixUtil_buildMatrix :
  BitArray.t -> ErrorCorrectionLevel.t -> Version.t -> Z -> M ByteMatrix unit.

(** The four penalty rules read the matrix. *)
Variable MaskUtil_applyMaskPenaltyRule1 : ByteMatrix -> Z.
Variable MaskUtil_applyMaskPenaltyRule2 : ByteMatrix -> Z.
Variable MaskUtil_applyMaskPenaltyRule3 : ByteMatrix -> Z.
Variable MaskUtil_applyMaskPenaltyRule4 : ByteMatrix -> Z.

Definition calculateMaskPenalty (matrix : ByteMatrix) : Z :=
  MaskUtil_applyMaskPenaltyRule1 matrix
  + MaskUtil_applyMaskPenaltyRule2 matrix
  + MaskUtil_applyMaskPenaltyRule3 matrix
  + MaskUtil_applyMaskPenaltyRule4 matrix.

(** [Number.MAX_SAFE_INTEGER] *)
Definition MAX_SAFE_INTEGER : Z := 2 ^ 53 - 1.

(** The [for] loop of [chooseMaskPattern] over the remaining patterns. *)
Fixpoint chooseMaskPattern_loop (bits : BitArray.t)
  (ecLevel : ErrorCorrectionLevel.t) (version : Version.t)
  (maskPatterns : list Z) (minPenalty bestMaskPattern : Z)
  : M ByteMatrix Z :=
  match maskPatterns with
  | [] => ret bestMaskPattern
  | maskPattern :: rest =>
      MatrixUtil_buildMatrix bits ecLevel version maskPattern ;;
      fun matrix =>
        let penalty := calculateMaskPenalty matrix in
        if penalty <? minPenalty
        then chooseMaskPattern_loop bits ecLevel version rest
               penalty maskPattern matrix
        else chooseMaskPattern_loop bits ecLevel version rest
               minPenalty bestMaskPattern matrix
  end.

Definition chooseMaskPattern (bits : BitArray.t)
  (ecLevel : ErrorCorrectionLevel.t) (version : Version.t)
  : M ByteMatrix Z :=
  chooseMaskPattern_loop bits ecLevel version
    (upTo QRCode.NUM_MASK_PATTERNS) MAX_SAFE_INTEGER (-1).

End WithMatrix.

End Encoder.


(* ===================================================================== *)
(** ** Binarizer *)
(* ===================================================================== *)

Module Binarizer.

(** [numBetween], on the integers it is called with (region indices). *)
Definition numBetween (value min max : Z) : Z :=
  if value <? min then min else if value >? max then max else value.

End Binarizer.

(* ===================================================================== *)
(** ** Decoder *)
(* ===================================================================== *)

Module Decoder.

(** The values of [Options.inversionAttempts]. *)
Inductive InversionAttempts : Type :=
| dontInvert | onlyInvert | attemptBoth | invertFirst.

Definition InversionAttempts_eqb (a b : InversionAttempts) : bool :=
  match a, b with
  | dontInvert, dontInvert | onlyInvert, onlyInvert
  | attemptBoth, attemptBoth | invertFirst, invertFirst => true
  | _, _ => false
  end.

(** An optional property of an object: absent, or present with a value
    that may be [undefined] ([None]). *)
Inductive Property (A : Type) : Type :=
| Absent
| Present (value : option A).

Arguments Absent {A}.
Arguments Present {A} value.

Record Options : Type := mkOptions {
  inversionAttempts : Property InversionAttempts
}.

Definition defaultOptions : Options :=
  {| inversionAttempts := Present (Some attemptBoth) |}.

(** [{ ...a, ...b }]: a property of [b] replaces the one of [a], also
    when its value is [undefined]. *)
Definition spread (a b : Options) : Options :=
  {| inversionAttempts :=
       match inversionAttempts b with
       | Absent => inversionAttempts a
       | Present v => Present v
       end |}.

(** [setOptions(options)]; [None] is a missing, [undefined] or [null]
    argument.  The state is the [options] field of the decoder. *)
Definition setOptions (options : option Options) : M Options unit :=
  fun _ =>
    let options :=
      match options with
      | Some o => o
      | None => {| inversionAttempts := Absent |}
      end in
    (Returned tt, spread defaultOptions options).

(** [options.inversionAttempts === v] *)
Definition inversionAttemptsIs (options : Options) (v : InversionAttempts)
  : bool :=
  match inversionAttempts options with
  | Present (Some a) => InversionAttempts_eqb a v
  | _ => false
  end.

Section WithCollaborators.

Variable BitMatrix : Type.
Variable DecoderResult : Type.

(** What [binarize] returns: [inverted] is [None] when the property is
    missing from the object. *)
Record BinarizeResult : Type := mkBinarizeResult {
  binarized : BitMatrix;
  inverted : option BitMatrix
}.

(** [binarize(data, width, height, returnInverted)]: its thresholds are
    floating-point computations and stay outside the model. *)
Variable binarize : list Z -> Z -> Z -> bool -> Outcome BinarizeResult.

(** The module function [scan(matrix)], on a matrix or on [undefined]
    ([None]); [null] is [None].  Its callees [locate], [extract] and
    [decode] are not among the sources. *)
Variable scan : option BitMatrix -> Outcome (option DecoderResult).

Definition decode (data : list Z) (width height : Z)
  : M Options (option DecoderResult) :=
  fun options =>
    let shouldInvert :=
      inversionAttemptsIs options attemptBoth
      || inversionAttemptsIs options invertFirst in
    let tryInvertedFirst :=
      inversionAttemptsIs options onlyInvert
      || inversionAttemptsIs options invertFirst in
    match binarize data width height shouldInvert with
    | Thrown e => (Thrown e, options)
    | Returned r =>
        match scan (if tryInvertedFirst then inverted r
                    else Some (binarized r)) with
        | Thrown e => (Thrown e, options)
        | Returned result =>
            if match result with None => true | Some _ => false end
               && (inversionAttemptsIs options attemptBoth
                   || inversionAttemptsIs options invertFirst)
            then
              (scan (if tryInvertedFirst then Some (binarized r)
                     else inverted r), options)
            else (Returned result, options)
        end
    end.

End WithCollaborators.

Arguments mkBinarizeResult {BitMatrix} binarized inverted.
Arguments binarized {BitMatrix} b.
Arguments inverted {BitMatrix} b.
Arguments decode {BitMatrix DecoderResult} binarize scan data width height.

End Decoder.
(* ===================================================================== *)
(** ** The statements' vocabulary *)
(* ===================================================================== *)

(** A code unit in ['0'..'9']. *)
Definition isDigitUnit (c : N) : Prop := (48 <= c <= 57)%N.

(** The groups of three characters, the last one possibly shorter. *)
Fixpoint chunks3 {A} (l : list A) : list (list A) :=
  match l with
  | [] => []
  | a :: b :: c :: rest => [a; b; c] :: chunks3 rest
  | short => [short]
  end.

(** The decimal value of a group of digits. *)
Definition decimalValue (digits : list N) : Z :=
  fold_left (fun acc c => acc * 10 + (Z.of_N c - 48)) digits 0.

(** 10 bits for three digits, 7 for two, 4 for one. *)
Definition groupWidth (group : list N) : nat :=
  match List.length group with
  | 3 => 10
  | 2 => 7
  | 1 => 4
  | _ => 0
  end%nat.

(** The numeric segment as the spec words it: each group as its decimal
    value, in the width of its length. *)
Definition numericSegment (content : JS.JSString) : list bool :=
  flat_map (fun g => BitArray.bitsOf (decimalValue g) (groupWidth g))
           (chunks3 content).

(** The part of [QRNumeric.write] that follows its loop. *)
Definition write_rest (data : JS.JSString) (i : nat) : M BitBuffer.t unit :=
  let length := List.length data in
  if (i <? length)%nat then
    if (length - i =? 1)%nat then
      bind (QRNumeric.strToNum (JS.substring data i (i + 1)))
           (fun n => BitBuffer.put n 4)
    else if (length - i =? 2)%nat then
      bind (QRNumeric.strToNum (JS.substring data i (i + 2)))
           (fun n => BitBuffer.put n 7)
    else ret tt
  else ret tt.

(** Decide the comparisons of a loop guard whose operands are known. *)
Ltac decide_guards :=
  cbn [List.length];
  repeat match goal with
    | |- context [(?a <? ?b)%nat] =>
        first [ rewrite (proj2 (Nat.ltb_lt a b)) by lia
              | rewrite (proj2 (Nat.ltb_ge a b)) by lia ]
    | |- context [(?a =? ?b)%nat] =>
        first [ rewrite (proj2 (Nat.eqb_eq a b)) by lia
              | rewrite (proj2 (Nat.eqb_neq a b)) by lia ]
    end.

(** The padding codewords of the termination step: [n] bytes, 0xEC first,
    alternating with 0x11. *)
Definition paddingBytes (n : nat) : list bool :=
  flat_map (fun i => BitArray.bitsOf (if Nat.even i then 0xec else 0x11) 8)
           (seq 0 n).

(** The sum of a list of numbers. *)
Definition sumZ (l : list Z) : Z := fold_right Z.add 0 l.


(** The error correction counts of the two groups, as
    [getNumDataBytesAndNumECBytesForBlockID] computes them before it
    compares them. *)
Definition numEcBytesInGroup1 (numTotalBytes numDataBytes numRSBlocks : Z)
  : JS.number :=
  JS.sub (JS.floorDiv numTotalBytes numRSBlocks)
         (JS.floorDiv numDataBytes numRSBlocks).

Definition numEcBytesInGroup2 (numTotalBytes numDataBytes numRSBlocks : Z)
  : JS.number :=
  JS.sub (JS.add (JS.floorDiv numTotalBytes numRSBlocks) (JS.Int 1))
         (JS.add (JS.floorDiv numDataBytes numRSBlocks) (JS.Int 1)).

(** The number of bytes that hold [n] bits, rounded up. *)
Definition ceilDiv8 (n : Z) : Z := (n + 7) / 8.

(** The number of data codewords of a version at a level. *)
Definition numDataCodewords (version : Version.t)
  (ecLevel : ErrorCorrectionLevel.t) : Z :=
  Version.getTotalCodewords version
  - ECBlocks.getTotalECCodewords (Version.getECBlocksForLevel version ecLevel).

(** Two rows of the version table, for the examples: version 1 has 26
    codewords, 7 of them error correction at level L (one block); version 2
    has 44 codewords, 10 of them error correction at level L. *)
Definition sampleVersion1 : Version.t :=
  Version.mk 1 26 (fun _ => ECBlocks.mk 7 1).

Definition sampleVersion2 : Version.t :=
  Version.mk 2 44 (fun _ => ECBlocks.mk 10 1).

Definition sampleVersionTable (versionNumber : Z) : Outcome Version.t :=
  if versionNumber =? 1 then Returned sampleVersion1
  else Returned sampleVersion2.

(** The ECI header: the indicator 0111 in 4 bits, then the designator in 8
    bits. *)
Definition eciHeader (eci : CharacterSetECI.t) : list bool :=
  BitArray.bitsOf (Mode.getBits Mode.ECI) 4
  ++ BitArray.bitsOf (CharacterSetECI.getValue eci) 8.

(** The mode indicator, 4 bits. *)
Definition modeIndicator (mode : Mode.t) : list bool :=
  BitArray.bitsOf (Mode.getBits mode) 4.

(** A small registry of character sets for the examples: UTF8 with
    designator 26 and SJIS with designator 20. *)
Definition sampleUTF8 : CharacterSetECI.t := CharacterSetECI.mk "UTF8" 26.

Definition sampleSJIS : CharacterSetECI.t := CharacterSetECI.mk "SJIS" 20.

Definition sampleGetCharacterSetECIByName (name : string)
  : option CharacterSetECI.t :=
  if String.eqb name "UTF8" then Some sampleUTF8
  else if String.eqb name "SJIS" then Some sampleSJIS
  else None.

(** A small text encoder for the examples: U+70B9 and U+8317 have the
    Shift_JIS codes 0x935F and 0xE4AA, a code unit below 0x80 is its own
    byte, anything else is refused.  The charset name is not looked at. *)
Definition sampleEncodeUnit (c : N) : option (list byte) :=
  if (c =? 0x70b9)%N then Some [x93; x5f]
  else if (c =? 0x8317)%N then Some [xe4; xaa]
  else if (c <? 0x80)%N then Some [BitArray.byteOfZ (Z.of_N c)]
  else None.

Fixpoint sampleEncode (content : JS.JSString) (encoding : string)
  : Outcome (list byte) :=
  match content with
  | [] => Returned []
  | c :: rest =>
      match sampleEncodeUnit c, sampleEncode rest encoding with
      | Some bytes, Returned more => Returned (bytes ++ more)
      | _, _ => Thrown (RangeError "unencodable")
      end
  end.

(** The rule as claimed for the ECI header: for a call in Byte mode, the
    header bits start with the ECI indicator exactly when the resolved
    charset differs from the default one. *)
Definition eciExactlyWhenNotDefault
  (StringEncoding_encode : JS.JSString -> string -> Outcome (list byte))
  (SJIS UTF8 : CharacterSetECI.t)
  (getCharacterSetECIByName : string -> option CharacterSetECI.t)
  (content : JS.JSString) (hints : option EncodeHints.t) : Prop :=
  forall encoding headerBits,
    Encoder.encode_headerBits StringEncoding_encode SJIS UTF8
      getCharacterSetECIByName content hints BitArray.empty
    = (Returned (Mode.BYTE, encoding), headerBits) ->
    (firstn 4 headerBits = BitArray.bitsOf (Mode.getBits Mode.ECI) 4
     <-> encoding <> Encoder.DEFAULT_BYTE_MODE_ENCODING UTF8).

(** The 45 characters of the alphanumeric mode. *)
Definition alphanumericSet : list N :=
  JS.ofString "0123456789ABCDEFGHIJKLMNOPQRSTUVWXYZ $%*+-./:".

Definition isDigitUnitb (c : N) : bool := ((48 <=? c) && (c <=? 57))%N.

Definition inAlphanumericSetb (c : N) : bool :=
  existsb (N.eqb c) alphanumericSet.

(** The scan of [chooseMode], on the code units themselves. *)
Fixpoint scanUnits (units : list N) (hasNumeric hasAlphanumeric : bool)
  : Mode.t :=
  match units with
  | [] =>
      if hasAlphanumeric then Mode.ALPHANUMERIC
      else if hasNumeric then Mode.NUMERIC
      else Mode.BYTE
  | c :: rest =>
      if isDigitUnitb c then scanUnits rest true hasAlphanumeric
      else if inAlphanumericSetb c then scanUnits rest hasNumeric true
      else Mode.BYTE
  end.

(** The value of a byte. *)
Definition byteValue (b : byte) : Z := Z.of_N (Byte.to_N b).

(** A first byte of a double-byte Kanji: in [0x81,0x9F] or [0xE0,0xEB]. *)
Definition isKanjiFirstByte (b : byte) : Prop :=
  0x81 <= byteValue b <= 0x9f \/ 0xe0 <= byteValue b <= 0xeb.

(** The pairs [(b1, b2)] that the loop of [appendKanjiBytes] reads, two
    bytes at a time; a last byte without a partner is read with [0]. *)
Fixpoint kanjiPairs (bytes : list byte) : list (Z * Z) :=
  match bytes with
  | [] => []
  | [b1] => [(byteValue b1, 0)]
  | b1 :: b2 :: rest => (byteValue b1, byteValue b2) :: kanjiPairs rest
  end.

(** [code = (b1 << 8) | b2] *)
Definition kanjiCode (p : Z * Z) : Z :=
  Z.lor (Z.shiftl (fst p) 8) (snd p).

(** The two ranges of double-byte Kanji codes. *)
Definition inKanjiRange (code : Z) : Prop :=
  0x8140 <= code <= 0x9ffc \/ 0xe040 <= code <= 0xebbf.

Definition inKanjiRangeb (code : Z) : bool :=
  ((0x8140 <=? code) && (code <=? 0x9ffc))
  || ((0xe040 <=? code) && (code <=? 0xebbf)).

(** [subtracted]: [code - 0x8140] in the first range, [code - 0xC140] in
    the second. *)
Definition kanjiSubtracted (code : Z) : Z :=
  if code <=? 0x9ffc then code - 0x8140 else code - 0xc140.

(** [(subtracted >> 8) * 0xC0 + (subtracted & 0xFF)] *)
Definition kanjiEncoded (code : Z) : Z :=
  Z.shiftr (kanjiSubtracted code) 8 * 0xc0
  + Z.land (kanjiSubtracted code) 0xff.

(** The run of [appendKanjiBytes] over the pairs: thirteen bits for each
    pair in range, an exception at the first pair out of range. *)
Fixpoint kanjiRun (pairs : list (Z * Z)) (bits : BitArray.t)
  : Outcome unit * BitArray.t :=
  match pairs with
  | [] => (Returned tt, bits)
  | p :: rest =>
      if inKanjiRangeb (kanjiCode p) then
        kanjiRun rest
          (bits ++ BitArray.bitsOf (kanjiEncoded (kanjiCode p)) 13)
      else (Thrown (WriterException "Invalid byte sequence"), bits)
  end.

(** A lead byte of a two-byte Shift_JIS character: in [0x81,0x9F] or
    [0xE0,0xFC]. *)
Definition isShiftJISLead (b : byte) : Prop :=
  0x81 <= byteValue b <= 0x9f \/ 0xe0 <= byteValue b <= 0xfc.

(** Modelled from the spec: [StringEncoding.encode(content, SJIS)] is not
    among the sources; the spec calls its result the Shift_JIS encoding of
    the content.  A Shift_JIS byte string is a sequence of characters, each
    either one byte that is not a lead byte or a lead byte followed by a
    trail byte. *)
Inductive ShiftJIS : list byte -> Prop :=
| ShiftJIS_nil : ShiftJIS []
| ShiftJIS_single b rest :
    ~ isShiftJISLead b -> ShiftJIS rest -> ShiftJIS (b :: rest)
| ShiftJIS_double b1 b2 rest :
    isShiftJISLead b1 -> ShiftJIS rest -> ShiftJIS (b1 :: b2 :: rest).

(** The body of the loop of [appendKanjiBytes]. *)
Definition appendKanjiBytes_body (bytes : list byte) (i : nat)
  : M BitArray.t unit :=
  let byte1 := JS.land (JS.byteAt bytes i) 0xff in
  let byte2 := JS.land (JS.byteAt bytes (i + 1)) 0xff in
  let code := JS.lor (JS.land (JS.shl byte1 8) 0xffffffff) byte2 in
  let subtracted :=
    if (code >=? 0x8140) && (code <=? 0x9ffc) then code - 0x8140
    else if (code >=? 0xe040) && (code <=? 0xebbf) then code - 0xc140
    else -1 in
  if subtracted =? -1 then throw (WriterException "Invalid byte sequence")
  else
    let encoded := JS.sar subtracted 8 * 0xc0 + JS.land subtracted 0xff in
    BitArray.appendBits encoded 13.

(** The bits of a sequence of codewords, eight per byte, MSB first. *)
Definition bytesToBits (bytes : list byte) : list bool :=
  flat_map (fun b => BitArray.bitsOf (byteValue b) 8) bytes.

(** Byte [i] of every block that has one, in block order. *)
Definition column {A} (i : nat) (blocks : list (list A)) : list A :=
  flat_map (fun block =>
              match nth_error block i with
              | Some x => [x]
              | None => []
              end) blocks.

(** The length of the longest block. *)
Definition maxLength {A} (blocks : list (list A)) : nat :=
  fold_right (fun block m => Nat.max (List.length block) m) 0%nat blocks.

(** The interleaving of the spec: for each index in order, that byte of
    every block that has one. *)
Definition interleave {A} (blocks : list (list A)) : list A :=
  flat_map (fun i => column i blocks) (seq 0 (maxLength blocks)).

(** The first [n] columns. *)
Definition columnsUpTo {A} (n : nat) (blocks : list (list A)) : list A :=
  flat_map (fun i => column i blocks) (seq 0 n).

(** The total number of bytes in the blocks. *)
Definition totalLength {A} (blocks : list (list A)) : nat :=
  list_sum (map (@List.length A) blocks).

(** The sizes [getNumDataBytesAndNumECBytesForBlockID] gives to a block,
    or the exception it throws. *)
Definition blockSizesOf (numTotalBytes numDataBytes numRSBlocks blockID : Z)
  : Outcome (Z * Z) :=
  fst (Encoder.getNumDataBytesAndNumECBytesForBlockID
         numTotalBytes numDataBytes numRSBlocks blockID tt).

(** What the first loop of [interleaveWithECBytes] has built after [n]
    blocks: the maxima, the offset, the data bytes taken in order from the
    bit array, and for each block its sizes and its error correction
    bytes. *)
Definition dividedInto
  (ReedSolomonEncoder_encode : list Z -> Z -> Outcome (list Z))
  (bits : BitArray.t) (numTotalBytes numDataBytes numRSBlocks : Z)
  (n : nat) (vars : Encoder.InterleaveVars) : Prop :=
  let datas := map Encoder.BlockPair.getDataBytes (Encoder.blocks vars) in
  let ecs :=
    map Encoder.BlockPair.getErrorCorrectionBytes (Encoder.blocks vars) in
  List.length (Encoder.blocks vars) = n
  /\ Encoder.maxNumDataBytes vars = Z.of_nat (maxLength datas)
  /\ Encoder.maxNumEcBytes vars = Z.of_nat (maxLength ecs)
  /\ Encoder.dataBytesOffset vars = Z.of_nat (totalLength datas)
  /\ List.concat datas = BitArray.toBytes bits 0 (totalLength datas)
  /\ forall j block,
       nth_error (Encoder.blocks vars) j = Some block ->
       exists numDataBytesInBlock numEcBytesInBlock,
         blockSizesOf numTotalBytes numDataBytes numRSBlocks (Z.of_nat j)
         = Returned (numDataBytesInBlock, numEcBytesInBlock)
         /\ Z.of_nat (List.length (Encoder.BlockPair.getDataBytes block))
            = numDataBytesInBlock
         /\ Z.of_nat
              (List.length (Encoder.BlockPair.getErrorCorrectionBytes block))
            = numEcBytesInBlock
         /\ fst (Encoder.generateECBytes ReedSolomonEncoder_encode
                   (Encoder.BlockPair.getDataBytes block)
                   numEcBytesInBlock tt)
            = Returned (Encoder.BlockPair.getErrorCorrectionBytes block).

(** A stand-in for the Reed-Solomon encoder in the examples: it leaves the
    array as it is (all error correction bytes zero) and, like the encoder
    of the spec, refuses a call without error correction bytes or without
    data bytes. *)
Definition sampleReedSolomon (toEncode : list Z) (ecBytes : Z)
  : Outcome (list Z) :=
  if (ecBytes <=? 0) || (Z.of_nat (List.length toEncode) <=? ecBytes)
  then Thrown (IllegalArgumentException "No error correction or data bytes")
  else Returned toEncode.

(* ===================================================================== *)
(** ** Vocabulary of the further properties *)
(* ===================================================================== *)

(** The groups of two characters, the last one possibly single. *)
Fixpoint chunks2 {A} (l : list A) : list (list A) :=
  match l with
  | [] => []
  | a :: b :: rest => [a; b] :: chunks2 rest
  | short => [short]
  end.

(** The bits of one alphanumeric group: [c1 * 45 + c2] in 11 bits for a
    pair, the code in 6 bits for a single character. *)
Definition alphanumericGroup (group : list N) : list bool :=
  match group with
  | [a; b] =>
      BitArray.bitsOf (Encoder.getAlphanumericCode a * 45
                       + Encoder.getAlphanumericCode b) 11
  | [a] => BitArray.bitsOf (Encoder.getAlphanumericCode a) 6
  | _ => []
  end.

Definition alphanumericSegment (content : JS.JSString) : list bool :=
  flat_map alphanumericGroup (chunks2 content).

(** An illustrative version table for the examples (not the standard's
    numbers beyond its first row): row [n] has number [n], [16 n + 10]
    codewords and, at every level, [4 n + 3] error correction codewords in
    one block. *)
Definition sampleRow (n : Z) : Version.t :=
  Version.mk n (16 * n + 10) (fun _ => ECBlocks.mk (4 * n + 3) 1).

Definition sampleRows (versionNumber : Z) : Outcome Version.t :=
  if (1 <=? versionNumber) && (versionNumber <=? 40)
  then Returned (sampleRow versionNumber)
  else Thrown (IllegalArgumentException "version number").


(** ** Mask trials *)

(** The shared matrix as trial [n] of [chooseMaskPattern] finds it: the
    mask patterns [0 .. n-1] have been built into it, one after the
    other. *)
Fixpoint matrixBefore {ByteMatrix : Type}
  (build : Z -> M ByteMatrix unit) (n : nat) (matrix : ByteMatrix)
  : ByteMatrix :=
  match n with
  | O => matrix
  | S n' => snd (build (Z.of_nat n') (matrixBefore build n' matrix))
  end.

(** ** A decoder to run *)

(** A binarizer that returns the matrix [1], and the matrix [2] as its
    inverse when asked for it. *)
Definition sampleBinarize (data : list Z) (width height : Z)
  (returnInverted : bool) : Outcome (Decoder.BinarizeResult Z) :=
  Returned {| Decoder.binarized := 1;
              Decoder.inverted := if returnInverted then Some 2 else None |}.

(** A scanner that finds the code 7 in the matrix [2] only, and throws
    when it is given no matrix. *)
Definition sampleScan (matrix : option Z) : Outcome (option Z) :=
  match matrix with
  | None => Thrown (ThrownString "TypeError")
  | Some m => Returned (if m =? 2 then Some 7 else None)
  end.

(** The penalty that trial [k] computes. *)
Definition trialPenalty {ByteMatrix : Type}
  (build : Z -> M ByteMatrix unit) (penalty : ByteMatrix -> Z)
  (k : nat) (matrix : ByteMatrix) : Z :=
  penalty (matrixBefore build (S k) matrix).

(** [best] with penalty [minPenalty] is the choice among the trials
    [0 .. n-1]: no trial yet when none was under [bound], else the first
    trial of the least penalty. *)
Definition leastSoFar (pen : nat -> Z) (bound : Z) (n : nat)
  (minPenalty best : Z) : Prop :=
  (best = -1 /\ minPenalty = bound
   /\ forall k, (k < n)%nat -> bound <= pen k)
  \/ (exists b, best = Z.of_nat b /\ (b < n)%nat
                /\ minPenalty = pen b /\ pen b < bound
                /\ (forall k, (k < n)%nat -> pen b <= pen k)
                /\ (forall k, (k < b)%nat -> pen b < pen k)).

(** A matrix that only remembers the mask pattern last built into it,
    and a penalty that is least for pattern 3 and for pattern 5. *)
Definition sampleBuildMatrix (bits : BitArray.t)
  (ecLevel : ErrorCorrectionLevel.t) (version : Version.t)
  (maskPattern : Z) : M Z unit :=
  fun _ => (Returned tt, maskPattern).

Definition samplePenaltyRule (matrix : Z) : Z :=
  (matrix - 3) * (matrix - 5).

Definition noPenalty (matrix : Z) : Z := 0.

(** The setting that [setOptions] leaves in force. *)
Definition effectiveAttempts (options : option Decoder.Options)
  : option Decoder.InversionAttempts :=
  match options with
  | None => Some Decoder.attemptBoth
  | Some o =>
      match Decoder.inversionAttempts o with
      | Decoder.Absent => Some Decoder.attemptBoth
      | Decoder.Present v => v
      end
  end.

(** A first scan, and a second one when the first found nothing. *)
Definition scanThen {BitMatrix DecoderResult : Type}
  (scan : option BitMatrix -> Outcome (option DecoderResult))
  (first second : option BitMatrix) : Outcome (option DecoderResult) :=
  match scan first with
  | Returned None => scan second
  | other => other
  end.
(* ===================================================================== *)
(** * Properties *)
(* ===================================================================== *)

(** ** The monad and the bit array *)

Lemma bind_returned {St A B} (m : M St A) (k : A -> M St B) s a s' :
  m s = (Returned a, s') -> bind m k s = k a s'.
Proof. intros H. unfold bind. rewrite H. reflexivity. Qed.

Lemma bind_thrown {St A B} (m : M St A) (k : A -> M St B) s e s' :
  m s = (Thrown e, s') -> bind m k s = (Thrown e, s').
Proof. intros H. unfold bind. rewrite H. reflexivity. Qed.

Lemma bitsOf_length value n : List.length (BitArray.bitsOf value n) = n.
Proof. unfold BitArray.bitsOf. rewrite length_map, length_seq. reflexivity. Qed.

Lemma appendBits_ok value numBits bits :
  0 < numBits <= 32 -> 0 <= value < 2 ^ numBits ->
  BitArray.appendBits value numBits bits
  = (Returned tt, bits ++ BitArray.bitsOf value (Z.to_nat numBits)).
Proof.
  intros Hn Hv. unfold BitArray.appendBits.
  destruct (Z.leb_spec numBits 0); [lia|].
  destruct (Z.ltb_spec 32 numBits); [lia|].
  destruct (Z.ltb_spec value 0); [lia|].
  destruct (Z.leb_spec (2 ^ numBits) value); [lia|].
  reflexivity.
Qed.

Lemma getSize_app (a b : BitArray.t) :
  BitArray.getSize (a ++ b) = BitArray.getSize a + BitArray.getSize b.
Proof. unfold BitArray.getSize. rewrite length_app. lia. Qed.

Lemma nth_error_app_offset {A} (pre suf : list A) k :
  nth_error (pre ++ suf) (List.length pre + k) = nth_error suf k.
Proof.
  rewrite nth_error_app2 by lia. f_equal. lia.
Qed.

Lemma charAt_app_offset (pre suf : JS.JSString) k c :
  nth_error suf k = Some c ->
  JS.charAt (pre ++ suf) (List.length pre + k) = [c].
Proof.
  intros H. unfold JS.charAt. rewrite nth_error_app_offset, H. reflexivity.
Qed.

(** An induction principle that follows the groups of three. *)
Lemma list_ind3 {A} (P : list A -> Prop) :
  P [] -> (forall a, P [a]) -> (forall a b, P [a; b]) ->
  (forall a b c rest, P rest -> P (a :: b :: c :: rest)) ->
  forall l, P l.
Proof.
  intros H0 H1 H2 H3.
  fix IH 1. intros [|a [|b [|c rest]]].
  - exact H0.
  - apply H1.
  - apply H2.
  - apply H3. apply IH.
Qed.

(** ** Numeric segments *)

Lemma getDigit_unit c : Encoder.getDigit [c] = Z.of_N c - 48.
Proof. reflexivity. Qed.

Lemma numericSegment_length content :
  Z.of_nat (List.length (numericSegment content))
  = 10 * (Z.of_nat (List.length content) / 3)
    + nth (Z.to_nat (Z.of_nat (List.length content) mod 3)) [0; 4; 7] 0.
Proof.
  induction content as [|a|a b|a b c rest IH] using list_ind3;
    try reflexivity.
  unfold numericSegment in *. cbn [chunks3 flat_map].
  rewrite length_app, bitsOf_length. cbn [groupWidth List.length].
  rewrite Nat2Z.inj_add, IH.
  replace (Z.of_nat (S (S (S (List.length rest)))))
    with (Z.of_nat (List.length rest) + 1 * 3) by lia.
  rewrite Z.div_add, Z.mod_add by lia. lia.
Qed.

Lemma appendNumericBytes_loop_spec fuel :
  forall (pre suf : JS.JSString) bits,
    Forall isDigitUnit suf -> (List.length suf <= fuel)%nat ->
    Encoder.appendNumericBytes_loop fuel (pre ++ suf) (List.length pre) bits
    = (Returned tt, bits ++ numericSegment suf).
Proof.
  induction fuel as [|fuel IH]; intros pre suf bits Hd Hlen.
  - destruct suf; [|simpl in Hlen; lia].
    simpl. unfold ret. rewrite app_nil_r. reflexivity.
  - cbn [Encoder.appendNumericBytes_loop]. rewrite !length_app.
    destruct suf as [|a [|b [|c rest]]].
    + decide_guards.
      unfold ret, numericSegment. simpl. rewrite app_nil_r. reflexivity.
    + (* one digit left *)
      inversion Hd as [|? ? Ha _]; subst. unfold isDigitUnit in Ha.
      decide_guards.
      rewrite <- (Nat.add_0_r (List.length pre)) at 1.
      rewrite (charAt_app_offset pre [a] 0 a eq_refl), getDigit_unit.
      erewrite bind_returned; [|apply appendBits_ok; lia].
      replace (pre ++ [a]) with ((pre ++ [a]) ++ []) by apply app_nil_r.
      replace (List.length pre + 1)%nat with (List.length (pre ++ [a]))
        by (rewrite length_app; reflexivity).
      rewrite IH by (auto; simpl; lia).
      unfold numericSegment. simpl. rewrite !app_nil_r. reflexivity.
    + (* two digits left *)
      inversion Hd as [|? ? Ha Hd']; subst.
      inversion Hd' as [|? ? Hb _]; subst. unfold isDigitUnit in Ha, Hb.
      decide_guards.
      rewrite <- (Nat.add_0_r (List.length pre)) at 1.
      rewrite (charAt_app_offset pre [a; b] 0 a eq_refl),
        (charAt_app_offset pre [a; b] 1 b eq_refl), !getDigit_unit.
      erewrite bind_returned; [|apply appendBits_ok; lia].
      replace (pre ++ [a; b]) with ((pre ++ [a; b]) ++ []) by apply app_nil_r.
      replace (List.length pre + 2)%nat with (List.length (pre ++ [a; b]))
        by (rewrite length_app; reflexivity).
      rewrite IH by (auto; simpl; lia).
      unfold numericSegment. simpl. rewrite !app_nil_r. reflexivity.
    + (* at least three digits left *)
      inversion Hd as [|? ? Ha Hd']; subst.
      inversion Hd' as [|? ? Hb Hd'']; subst.
      inversion Hd'' as [|? ? Hc Hrest]; subst.
      unfold isDigitUnit in Ha, Hb, Hc.
      cbn [List.length] in Hlen. decide_guards.
      rewrite <- (Nat.add_0_r (List.length pre)) at 1.
      rewrite (charAt_app_offset pre (a :: b :: c :: rest) 0 a eq_refl),
        (charAt_app_offset pre (a :: b :: c :: rest) 1 b eq_refl),
        (charAt_app_offset pre (a :: b :: c :: rest) 2 c eq_refl),
        !getDigit_unit.
      erewrite bind_returned; [|apply appendBits_ok; lia].
      replace (pre ++ a :: b :: c :: rest) with ((pre ++ [a; b; c]) ++ rest)
        by (rewrite <- app_assoc; reflexivity).
      replace (List.length pre + 3)%nat with (List.length (pre ++ [a; b; c]))
        by (rewrite length_app; reflexivity).
      rewrite IH by (auto; lia).
      unfold numericSegment. cbn [chunks3 flat_map].
      rewrite <- !app_assoc. do 2 f_equal.
      unfold decimalValue, groupWidth. cbn [fold_left List.length].
      change (Z.to_nat 10) with 10%nat. f_equal.
      apply (f_equal (fun v => BitArray.bitsOf v 10)). lia.
Qed.

Lemma charToNum_digit {St} c (s : St) :
  isDigitUnit c ->
  QRNumeric.charToNum [c] s = (Returned (Z.of_N c - 48), s).
Proof.
  intros [H1 H2]. unfold QRNumeric.charToNum.
  rewrite (proj2 (N.leb_le 48 c) H1), (proj2 (N.leb_le c 57) H2).
  reflexivity.
Qed.

Lemma strToNum_loop_digits {St} (suf : JS.JSString) :
  forall (pre : JS.JSString) num (s : St),
    Forall isDigitUnit suf ->
    QRNumeric.strToNum_loop (pre ++ suf)
      (seq (List.length pre) (List.length suf)) num s
    = (Returned (fold_left (fun acc c => acc * 10 + (Z.of_N c - 48)) suf num),
       s).
Proof.
  induction suf as [|c suf IH]; intros pre num s Hd.
  - reflexivity.
  - inversion Hd as [|? ? Hc Hd']; subst.
    cbn [List.length seq QRNumeric.strToNum_loop fold_left].
    rewrite <- (Nat.add_0_r (List.length pre)) at 1.
    rewrite (charAt_app_offset pre (c :: suf) 0 c eq_refl).
    erewrite bind_returned; [|apply charToNum_digit; exact Hc].
    replace (pre ++ c :: suf) with ((pre ++ [c]) ++ suf)
      by (rewrite <- app_assoc; reflexivity).
    replace (S (List.length pre)) with (List.length (pre ++ [c]))
      by (rewrite length_app; simpl; lia).
    apply IH. exact Hd'.
Qed.

Lemma strToNum_digits {St} (str : JS.JSString) (s : St) :
  Forall isDigitUnit str ->
  QRNumeric.strToNum str s = (Returned (decimalValue str), s).
Proof.
  intros Hd. unfold QRNumeric.strToNum.
  apply (strToNum_loop_digits str [] 0 s Hd).
Qed.

Lemma substring_app_offset (pre suf : JS.JSString) k :
  JS.substring (pre ++ suf) (List.length pre) (List.length pre + k)
  = firstn k suf.
Proof.
  unfold JS.substring.
  replace (List.length pre + k - List.length pre)%nat with k by lia.
  rewrite skipn_app, skipn_all, Nat.sub_diag. reflexivity.
Qed.

Lemma decimalValue_bounds digits :
  Forall isDigitUnit digits ->
  0 <= decimalValue digits < 10 ^ Z.of_nat (List.length digits).
Proof.
  unfold decimalValue.
  assert (G : forall l acc k, Forall isDigitUnit l -> 0 <= acc < 10 ^ k ->
              0 <= k ->
              0 <= fold_left (fun a c => a * 10 + (Z.of_N c - 48)) l acc
                < 10 ^ (k + Z.of_nat (List.length l))).
  { induction l as [|c l IH]; intros acc k Hd Hacc Hk.
    - simpl. rewrite Z.add_0_r. exact Hacc.
    - inversion Hd as [|? ? Hc Hd']; subst. unfold isDigitUnit in Hc.
      cbn [fold_left List.length].
      replace (k + Z.of_nat (S (List.length l)))
        with ((k + 1) + Z.of_nat (List.length l)) by lia.
      apply IH; [exact Hd'| |lia].
      rewrite Z.pow_add_r by lia. change (10 ^ 1) with 10. lia. }
  intros Hd. apply (G digits 0 0 Hd); simpl; lia.
Qed.

Lemma write_unfold data :
  QRNumeric.write data
  = bind (QRNumeric.write_loop (List.length data) data 0) (write_rest data).
Proof. reflexivity. Qed.

Lemma write_loop_spec fuel :
  forall (pre suf : JS.JSString) bits,
    Forall isDigitUnit suf -> (List.length suf <= fuel)%nat ->
    bind (QRNumeric.write_loop fuel (pre ++ suf) (List.length pre))
         (write_rest (pre ++ suf)) bits
    = (Returned tt, bits ++ numericSegment suf).
Proof.
  induction fuel as [|fuel IH]; intros pre suf bits Hd Hlen.
  - destruct suf; [|simpl in Hlen; lia].
    unfold bind, write_rest. cbn [QRNumeric.write_loop ret].
    rewrite app_nil_r, Nat.ltb_irrefl. unfold ret, numericSegment. simpl.
    rewrite app_nil_r. reflexivity.
  - destruct suf as [|a [|b [|c rest]]].
    + unfold bind, write_rest. cbn [QRNumeric.write_loop].
      rewrite !app_nil_r. decide_guards.
      unfold ret, numericSegment. simpl. decide_guards.
      rewrite ?app_nil_r. reflexivity.
    + unfold bind at 1. cbn [QRNumeric.write_loop].
      rewrite !length_app. decide_guards. unfold ret at 1.
      unfold write_rest. rewrite !length_app. decide_guards.
      rewrite (substring_app_offset pre [a] 1). cbn [firstn].
      erewrite bind_returned; [|apply strToNum_digits; exact Hd].
      pose proof (decimalValue_bounds [a] Hd) as Hb. cbn [List.length] in Hb.
      unfold BitBuffer.put. rewrite appendBits_ok by (simpl in *; lia).
      unfold numericSegment. simpl. rewrite ?app_nil_r. reflexivity.
    + unfold bind at 1. cbn [QRNumeric.write_loop].
      rewrite !length_app. decide_guards. unfold ret at 1.
      unfold write_rest. rewrite !length_app. decide_guards.
      rewrite (substring_app_offset pre [a; b] 2). cbn [firstn].
      erewrite bind_returned; [|apply strToNum_digits; exact Hd].
      pose proof (decimalValue_bounds [a; b] Hd) as Hb.
      cbn [List.length] in Hb.
      unfold BitBuffer.put. rewrite appendBits_ok by (simpl in *; lia).
      unfold numericSegment. simpl. rewrite ?app_nil_r. reflexivity.
    + assert (Hd3 : Forall isDigitUnit [a; b; c]).
      { inversion Hd as [|? ? Ha Hd']; subst.
        inversion Hd' as [|? ? Hb Hd'']; subst.
        inversion Hd'' as [|? ? Hc Hrest]; subst.
        auto using Forall_cons, Forall_nil. }
      assert (Hdr : Forall isDigitUnit rest).
      { inversion Hd as [|? ? Ha Hd']; subst.
        inversion Hd' as [|? ? Hb Hd'']; subst.
        inversion Hd'' as [|? ? Hc Hrest]; subst. exact Hrest. }
      cbn [List.length] in Hlen.
      unfold bind at 1. cbn [QRNumeric.write_loop].
      rewrite !length_app. decide_guards.
      rewrite (substring_app_offset pre (a :: b :: c :: rest) 3).
      cbn [firstn].
      erewrite bind_returned; [|apply strToNum_digits; exact Hd3].
      pose proof (decimalValue_bounds [a; b; c] Hd3) as Hb.
      cbn [List.length] in Hb.
      unfold BitBuffer.put at 1.
      erewrite bind_returned; [|apply appendBits_ok; simpl in *; lia].
      replace (pre ++ a :: b :: c :: rest) with ((pre ++ [a; b; c]) ++ rest)
        by (rewrite <- app_assoc; reflexivity).
      replace (List.length pre + 3)%nat with (List.length (pre ++ [a; b; c]))
        by (rewrite length_app; reflexivity).
      specialize (IH (pre ++ [a; b; c]) rest
                    (bits ++ BitArray.bitsOf (decimalValue [a; b; c])
                                             (Z.to_nat 10))
                    Hdr ltac:(lia)).
      unfold bind at 1 in IH. rewrite IH.
      unfold numericSegment. cbn [chunks3 flat_map].
      rewrite <- !app_assoc. reflexivity.
Qed.

Lemma appendNumericBytes_digits content bits :
  Forall isDigitUnit content ->
  Encoder.appendNumericBytes content bits
  = (Returned tt, bits ++ numericSegment content).
Proof.
  intros Hd. unfold Encoder.appendNumericBytes.
  apply (appendNumericBytes_loop_spec (List.length content) [] content bits Hd).
  lia.
Qed.

Lemma write_digits content bits :
  Forall isDigitUnit content ->
  QRNumeric.write content bits = (Returned tt, bits ++ numericSegment content).
Proof.
  intros Hd. rewrite write_unfold.
  apply (write_loop_spec (List.length content) [] content bits Hd). lia.
Qed.

(** C8. On an all-digit content of length [n], [appendNumericBytes]
    returns normally having appended, for each group of three digits, their
    decimal value in 10 bits, for a trailing pair its value in 7 bits and
    for a trailing single digit its value in 4 bits; the number of bits
    appended is [10 * (n / 3)] plus 0, 4 or 7 for [n mod 3] = 0, 1 or 2. *)
Theorem appendNumericBytes_all_digits (content : JS.JSString)
  (bits : BitArray.t) :
  Forall isDigitUnit content ->
  let n := Z.of_nat (List.length content) in
  Encoder.appendNumericBytes content bits
  = (Returned tt,
     bits ++ flat_map (fun g => BitArray.bitsOf (decimalValue g) (groupWidth g))
                      (chunks3 content))
  /\ Z.of_nat (List.length
                 (flat_map
                    (fun g => BitArray.bitsOf (decimalValue g) (groupWidth g))
                    (chunks3 content)))
     = 10 * (n / 3) + nth (Z.to_nat (n mod 3)) [0; 4; 7] 0.
Proof.
  intros Hd n. split.
  - apply appendNumericBytes_digits. exact Hd.
  - apply numericSegment_length.
Qed.

Lemma appendNumericBytes_all_digits_witness :
  Encoder.appendNumericBytes (JS.ofString "20241") BitArray.empty
  = (Returned tt,
     [false; false; true; true; false; false; true; false; true; false;
      false; true; false; true; false; false; true])
  /\ 17 = 10 * (5 / 3) + 7.
Proof.
  apply (appendNumericBytes_all_digits (JS.ofString "20241") BitArray.empty).
  repeat (apply Forall_cons; [unfold isDigitUnit; simpl; lia|]).
  apply Forall_nil.
Defined.

(** C10. On a string of the characters '0'..'9', [QRNumeric.write] on an
    empty buffer and [Encoder.appendNumericBytes] on an empty bit array
    both return normally and leave the same bit sequence. *)
Theorem write_equals_appendNumericBytes (content : JS.JSString) :
  Forall isDigitUnit content ->
  QRNumeric.write content BitArray.empty
  = Encoder.appendNumericBytes content BitArray.empty
  /\ returned (QRNumeric.write content BitArray.empty) = true.
Proof.
  intros Hd. rewrite write_digits, appendNumericBytes_digits by exact Hd.
  split; reflexivity.
Qed.

Lemma write_equals_appendNumericBytes_witness :
  QRNumeric.write (JS.ofString "0123456789") BitArray.empty
  = Encoder.appendNumericBytes (JS.ofString "0123456789") BitArray.empty
  /\ returned (QRNumeric.write (JS.ofString "0123456789") BitArray.empty)
     = true.
Proof.
  apply (write_equals_appendNumericBytes (JS.ofString "0123456789")).
  repeat (apply Forall_cons; [unfold isDigitUnit; simpl; lia|]).
  apply Forall_nil.
Defined.

(** ** 32-bit operators on small operands *)

Lemma toInt32_small x : - 2 ^ 31 <= x < 2 ^ 31 -> JS.toInt32 x = x.
Proof.
  intros H. unfold JS.toInt32. rewrite Z.mod_small by lia. lia.
Qed.

Lemma toInt32_decompose x :
  JS.toInt32 x = x + (- ((x + 2 ^ 31) / 2 ^ 32)) * 2 ^ 32.
Proof.
  unfold JS.toInt32.
  pose proof (Z.div_mod (x + 2 ^ 31) (2 ^ 32) ltac:(lia)). lia.
Qed.

Lemma land_7 x : JS.land x 0x07 = x mod 8.
Proof.
  unfold JS.land. rewrite (toInt32_small 7) by lia.
  change 7 with (Z.ones 3). rewrite Z.land_ones by lia.
  rewrite toInt32_decompose.
  replace (- ((x + 2 ^ 31) / 2 ^ 32) * 2 ^ 32)
    with ((- ((x + 2 ^ 31) / 2 ^ 32) * 2 ^ 29) * 2 ^ 3) by lia.
  apply Z.mod_add. lia.
Qed.

Lemma land_1 x : JS.land x 0x01 = x mod 2.
Proof.
  unfold JS.land. rewrite (toInt32_small 1) by lia.
  change 1 with (Z.ones 1) at 1. rewrite Z.land_ones by lia.
  rewrite toInt32_decompose.
  replace (- ((x + 2 ^ 31) / 2 ^ 32) * 2 ^ 32)
    with ((- ((x + 2 ^ 31) / 2 ^ 32) * 2 ^ 31) * 2 ^ 1) by lia.
  apply Z.mod_add. lia.
Qed.

Lemma land_255 x : JS.land x 0xff = x mod 256.
Proof.
  unfold JS.land. rewrite (toInt32_small 255) by lia.
  change 255 with (Z.ones 8). rewrite Z.land_ones by lia.
  rewrite toInt32_decompose.
  replace (- ((x + 2 ^ 31) / 2 ^ 32) * 2 ^ 32)
    with ((- ((x + 2 ^ 31) / 2 ^ 32) * 2 ^ 24) * 2 ^ 8) by lia.
  apply Z.mod_add. lia.
Qed.

(** ** Termination and padding *)

Lemma forEach_appendBit_false {A} (l : list A) bits :
  forEach l (fun _ => BitArray.appendBit false) bits
  = (Returned tt, bits ++ repeat false (List.length l)).
Proof.
  revert bits. induction l as [|x l IH]; intros bits.
  - simpl. unfold ret. rewrite app_nil_r. reflexivity.
  - cbn [forEach]. unfold bind, BitArray.appendBit. rewrite IH.
    simpl. rewrite <- app_assoc. reflexivity.
Qed.

Lemma nothing_appended {A} (bits : list bool) (k : nat) (a : A) :
  k = 0%nat -> (Returned a, bits) = (Returned a, bits ++ repeat false k).
Proof. intros ->. simpl. rewrite app_nil_r. reflexivity. Qed.

Lemma terminateBits_zeros_spec fuel :
  forall capacity i bits,
    0 <= i <= 4 -> 4 - i <= Z.of_nat fuel ->
    Encoder.terminateBits_zeros fuel capacity i bits
    = (Returned tt,
       bits ++ repeat false
                 (Z.to_nat (Z.min (4 - i)
                                  (capacity - BitArray.getSize bits)))).
Proof.
  induction fuel as [|fuel IH]; intros capacity i bits Hi Hfuel.
  - cbn [Encoder.terminateBits_zeros]. unfold ret.
    apply nothing_appended. lia.
  - cbn [Encoder.terminateBits_zeros].
    destruct (Z.ltb_spec i 4) as [Hlt|Hge];
      destruct (Z.ltb_spec (BitArray.getSize bits) capacity) as [Hs|Hs];
      cbn [andb]; try (unfold ret; apply nothing_appended; lia).
    unfold bind, BitArray.appendBit. rewrite IH by lia.
    rewrite getSize_app. change (BitArray.getSize [false]) with 1.
    rewrite <- app_assoc. do 2 f_equal.
    replace (Z.to_nat (Z.min (4 - i) (capacity - BitArray.getSize bits)))
      with (S (Z.to_nat (Z.min (4 - (i + 1))
                           (capacity - (BitArray.getSize bits + 1)))))
      by lia.
    reflexivity.
Qed.

Lemma even_of_nat a : Z.even (Z.of_nat a) = Nat.even a.
Proof.
  destruct (Nat.even a) eqn:E.
  - apply Nat.even_spec in E. destruct E as [k ->].
    apply Z.even_spec. exists (Z.of_nat k). lia.
  - apply not_true_is_false. intros H. apply Z.even_spec in H.
    destruct H as [k Hk].
    assert (Nat.even a = true); [|congruence].
    apply Nat.even_spec. exists (Z.to_nat k). lia.
Qed.

Lemma forEach_padding k :
  forall a bits,
    forEach (map Z.of_nat (seq a k))
      (fun i => BitArray.appendBits (if JS.land i 0x01 =? 0 then 0xec else 0x11) 8)
      bits
    = (Returned tt,
       bits ++ flat_map
                 (fun i => BitArray.bitsOf (if Nat.even i then 0xec else 0x11) 8)
                 (seq a k)).
Proof.
  induction k as [|k IH]; intros a bits.
  - simpl. unfold ret. rewrite app_nil_r. reflexivity.
  - cbn [seq map forEach flat_map].
    assert (Hpar : (JS.land (Z.of_nat a) 0x01 =? 0) = Nat.even a).
    { rewrite land_1, <- Zeven_mod. apply even_of_nat. }
    rewrite Hpar.
    erewrite bind_returned;
      [|apply appendBits_ok; destruct (Nat.even a); lia].
    rewrite IH, <- app_assoc. reflexivity.
Qed.

Lemma getSize_repeat (b : bool) n :
  BitArray.getSize (repeat b n) = Z.of_nat n.
Proof. unfold BitArray.getSize. rewrite repeat_length. reflexivity. Qed.

Lemma paddingBytes_size n :
  BitArray.getSize (paddingBytes n) = 8 * Z.of_nat n.
Proof.
  unfold paddingBytes, BitArray.getSize.
  assert (G : forall a k,
             List.length
               (flat_map
                  (fun i => BitArray.bitsOf (if Nat.even i then 0xec else 0x11) 8)
                  (seq a k)) = (8 * k)%nat).
  { intros a k. revert a. induction k as [|k IH]; intros a; [reflexivity|].
    cbn [seq flat_map]. rewrite length_app, bitsOf_length, IH. lia. }
  rewrite G. lia.
Qed.

(** The alignment step: zero bits up to the next byte boundary. *)
Lemma terminateBits_align bits :
  let numBitsInLastByte := JS.land (BitArray.getSize bits) 0x07 in
  (if numBitsInLastByte >? 0 then
     forEach (map (fun k => numBitsInLastByte + k)
                  (upTo (8 - numBitsInLastByte)))
             (fun _ => BitArray.appendBit false)
   else ret tt) bits
  = (Returned tt,
     bits ++ repeat false (Z.to_nat ((- BitArray.getSize bits) mod 8))).
Proof.
  cbv zeta. rewrite land_7.
  pose proof (Z.mod_pos_bound (BitArray.getSize bits) 8 ltac:(lia)) as Hr.
  pose proof (Z.div_mod (BitArray.getSize bits) 8 ltac:(lia)) as Hdm.
  destruct (Z.gtb_spec (BitArray.getSize bits mod 8) 0) as [Hpos|Hzero].
  - rewrite forEach_appendBit_false. unfold upTo.
    rewrite !length_map, length_seq.
    replace ((- BitArray.getSize bits) mod 8)
      with (8 - BitArray.getSize bits mod 8); [reflexivity|].
    apply Z.mod_unique with (q := - (BitArray.getSize bits / 8) - 1); lia.
  - unfold ret. apply nothing_appended.
    replace ((- BitArray.getSize bits) mod 8) with 0; [reflexivity|].
    apply Z.mod_unique with (q := - (BitArray.getSize bits / 8)); lia.
Qed.

Lemma terminateBits_fits numDataBytes bits :
  BitArray.getSize bits <= numDataBytes * 8 ->
  let capacity := numDataBytes * 8 in
  let size := BitArray.getSize bits in
  let t := Z.to_nat (Z.min 4 (capacity - size)) in
  let p := Z.to_nat ((- (size + Z.of_nat t)) mod 8) in
  let n := Z.to_nat (numDataBytes - (size + Z.of_nat t + Z.of_nat p + 7) / 8) in
  Encoder.terminateBits numDataBytes bits
  = (Returned tt,
     bits ++ repeat false t ++ repeat false p ++ paddingBytes n)
  /\ size + Z.of_nat t + Z.of_nat p + 8 * Z.of_nat n = capacity
  /\ (size + Z.of_nat t + Z.of_nat p) mod 8 = 0.
Proof.
  intros Hfit capacity size t p n.
  assert (Hsize : 0 <= size) by (unfold size, BitArray.getSize; lia).
  assert (Ht : Z.of_nat t = Z.min 4 (capacity - size))
    by (unfold t, capacity, size in *; lia).
  pose proof (Z.mod_pos_bound (- (size + Z.of_nat t)) 8 ltac:(lia)) as Hp.
  pose proof (Z.div_mod (- (size + Z.of_nat t)) 8 ltac:(lia)) as Hpdm.
  assert (Hp' : Z.of_nat p = (- (size + Z.of_nat t)) mod 8)
    by (unfold p; lia).
  assert (Haligned : (size + Z.of_nat t + Z.of_nat p) mod 8 = 0).
  { symmetry.
    apply Z.mod_unique with (q := - ((- (size + Z.of_nat t)) / 8)); lia. }
  pose proof (Z.div_mod (size + Z.of_nat t + Z.of_nat p) 8 ltac:(lia)) as Hdm.
  rewrite Haligned in Hdm.
  assert (Hbytes : (size + Z.of_nat t + Z.of_nat p + 7) / 8
                   = (size + Z.of_nat t + Z.of_nat p) / 8).
  { symmetry. apply Z.div_unique with (r := 7); lia. }
  assert (Hle : size + Z.of_nat t + Z.of_nat p <= capacity).
  { unfold capacity in *. lia. }
  assert (Htotal : size + Z.of_nat t + Z.of_nat p + 8 * Z.of_nat n = capacity).
  { unfold n. rewrite Hbytes. unfold capacity in *. lia. }
  split; [|split; assumption].
  unfold Encoder.terminateBits.
  destruct (Z.gtb_spec (BitArray.getSize bits) (numDataBytes * 8)) as [Hgt|_];
    [lia|].
  erewrite bind_returned;
    [|apply terminateBits_zeros_spec; simpl; lia].
  change (4 - 0) with 4. fold capacity size t.
  erewrite bind_returned; [|apply terminateBits_align].
  rewrite getSize_app, getSize_repeat. fold size p.
  erewrite bind_returned; [|apply forEach_padding].
  unfold BitArray.getSizeInBytes.
  rewrite !getSize_app, !getSize_repeat. fold size n.
  fold (paddingBytes n).
  rewrite ?getSize_app, ?getSize_repeat, paddingBytes_size. fold size.
  rewrite (proj2 (Z.eqb_eq _ _)) by (fold capacity; lia).
  cbn [negb]. unfold ret. rewrite <- !app_assoc. reflexivity.
Qed.

(** C5. When the bits fit ([size <= numDataBytes * 8]), [terminateBits]
    returns normally having appended [t] zero bits of termination, with
    [t] the smaller of 4 and the free capacity, then [p < 8] zero bits that
    reach a byte boundary, then the padding bytes 0xEC, 0x11, 0xEC, ... up
    to the capacity: the final size is exactly [numDataBytes * 8].  When
    the bits do not fit, it throws and the bit array is left as it was. *)
Theorem terminateBits_spec (numDataBytes : Z) (bits : BitArray.t) :
  let capacity := numDataBytes * 8 in
  let size := BitArray.getSize bits in
  (size <= capacity ->
   exists t p n : nat,
     Encoder.terminateBits numDataBytes bits
     = (Returned tt,
        bits ++ repeat false t ++ repeat false p ++ paddingBytes n)
     /\ Z.of_nat t = Z.min 4 (capacity - size)
     /\ (p < 8)%nat
     /\ (size + Z.of_nat t + Z.of_nat p) mod 8 = 0
     /\ BitArray.getSize
          (bits ++ repeat false t ++ repeat false p ++ paddingBytes n)
        = capacity)
  /\ (size > capacity ->
      exists msg,
        Encoder.terminateBits numDataBytes bits
        = (Thrown (WriterException msg), bits)).
Proof.
  intros capacity size. split.
  - intros Hfit.
    destruct (terminateBits_fits numDataBytes bits Hfit) as (Hrun & Htot & Hal).
    cbv zeta in Hrun, Htot, Hal. fold capacity size in Hrun, Htot, Hal.
    eexists _, _, _. split; [exact Hrun|].
    assert (Hsize : 0 <= size) by (unfold size, BitArray.getSize; lia).
    repeat split.
    + lia.
    + pose proof (Z.mod_pos_bound
                    (- (size + Z.of_nat (Z.to_nat (Z.min 4 (capacity - size)))))
                    8 ltac:(lia)). lia.
    + exact Hal.
    + rewrite !getSize_app, !getSize_repeat, paddingBytes_size.
      fold size. lia.
  - intros Hover. unfold Encoder.terminateBits.
    fold capacity size.
    destruct (Z.gtb_spec size capacity) as [_|Hle]; [|lia].
    eexists. reflexivity.
Qed.

Lemma terminateBits_spec_witness :
  (exists t p n : nat,
     Encoder.terminateBits 3 [true; false; true]
     = (Returned tt,
        [true; false; true] ++ repeat false t ++ repeat false p
        ++ paddingBytes n)
     /\ Z.of_nat t = Z.min 4 (3 * 8 - 3)
     /\ (p < 8)%nat
     /\ (3 + Z.of_nat t + Z.of_nat p) mod 8 = 0
     /\ BitArray.getSize
          ([true; false; true] ++ repeat false t ++ repeat false p
           ++ paddingBytes n)
        = 3 * 8)
  /\ (exists msg,
        Encoder.terminateBits 0 [true]
        = (Thrown (WriterException msg), [true])).
Proof.
  split.
  - apply (proj1 (terminateBits_spec 3 [true; false; true])).
    vm_compute. discriminate.
  - apply (proj2 (terminateBits_spec 0 [true])). reflexivity.
Defined.

(** ** The split into Reed-Solomon blocks *)

Lemma getNumDataBytesAndNumECBytesForBlockID_returns {St}
  (numTotalBytes numDataBytes numRSBlocks blockID : Z) (s : St) :
  0 <= numTotalBytes < 2 ^ 31 -> 0 <= numDataBytes < 2 ^ 31 ->
  0 < numRSBlocks -> blockID < numRSBlocks ->
  Encoder.getNumDataBytesAndNumECBytesForBlockID
    numTotalBytes numDataBytes numRSBlocks blockID s
  = (Returned
       (if blockID <? numRSBlocks - numTotalBytes mod numRSBlocks
        then numDataBytes / numRSBlocks
        else numDataBytes / numRSBlocks + 1,
        numTotalBytes / numRSBlocks - numDataBytes / numRSBlocks),
     s).
Proof.
  intros HT HD HB Hid.
  unfold Encoder.getNumDataBytesAndNumECBytesForBlockID.
  destruct (Z.geb_spec blockID numRSBlocks) as [Hge|_]; [lia|].
  unfold JS.rem, JS.floorDiv.
  rewrite (proj2 (Z.eqb_neq numRSBlocks 0)) by lia.
  cbn [JS.add JS.sub JS.mul JS.strictNeq JS.lt JS.storeInt32].
  rewrite Z.rem_mod_nonneg by lia.
  set (g2 := numTotalBytes mod numRSBlocks).
  set (t1 := numTotalBytes / numRSBlocks).
  set (d1 := numDataBytes / numRSBlocks).
  pose proof (Z.mod_pos_bound numTotalBytes numRSBlocks HB) as Hg2.
  pose proof (Z.div_mod numTotalBytes numRSBlocks ltac:(lia)) as HTdm.
  pose proof (Z.div_mod numDataBytes numRSBlocks ltac:(lia)) as HDdm.
  pose proof (Z.mod_pos_bound numDataBytes numRSBlocks HB) as Hdr.
  fold g2 t1 in HTdm, Hg2. fold d1 in HDdm.
  assert (Ht1 : 0 <= t1) by (apply Z.div_pos; lia).
  assert (Hd1 : 0 <= d1) by (apply Z.div_pos; lia).
  assert (Ht1' : t1 <= numTotalBytes) by nia.
  assert (Hd1' : d1 <= numDataBytes) by nia.
  replace (t1 + 1 - (d1 + 1)) with (t1 - d1) by lia.
  rewrite Z.eqb_refl. cbn [negb].
  rewrite (proj2 (Z.eqb_eq _ _)) by lia. cbn [negb].
  rewrite (proj2 (Z.eqb_eq numTotalBytes _)) by nia. cbn [negb].
  destruct (Z.ltb_spec blockID (numRSBlocks - g2)) as [Hg1|Hg1].
  - unfold ret. rewrite !toInt32_small by lia. reflexivity.
  - unfold ret. rewrite (toInt32_small (t1 - d1)) by lia.
    assert (2 <= numRSBlocks \/ numRSBlocks = 1) as [Hmany|Hone] by lia.
    + assert (d1 * 2 <= numDataBytes) by nia.
      rewrite toInt32_small by lia. reflexivity.
    + exfalso. subst numRSBlocks. unfold g2 in Hg1.
      rewrite Z.mod_1_r in Hg1. lia.
Qed.

Lemma sumZ_app l1 l2 : sumZ (l1 ++ l2) = sumZ l1 + sumZ l2.
Proof.
  unfold sumZ. induction l1 as [|x l1 IH]; simpl; [reflexivity|].
  rewrite IH. lia.
Qed.

Lemma upTo_succ n : 0 <= n -> upTo (n + 1) = upTo n ++ [n].
Proof.
  intros Hn. unfold upTo.
  replace (Z.to_nat (n + 1)) with (S (Z.to_nat n)) by lia.
  rewrite seq_S, map_app. simpl. rewrite Z2Nat.id by lia. reflexivity.
Qed.

(** A sum over the blocks of a two-group split. *)
Lemma sumZ_two_groups (small large : Z) (numGroup1 : Z) (n : nat) :
  0 <= numGroup1 ->
  sumZ (map (fun blockID => if blockID <? numGroup1 then small else large)
            (upTo (Z.of_nat n)))
  = Z.min (Z.of_nat n) numGroup1 * small
    + Z.max 0 (Z.of_nat n - numGroup1) * large.
Proof.
  intros Hg. induction n as [|n IH].
  - change (upTo (Z.of_nat 0)) with (@nil Z). cbn [map sumZ fold_right].
    change (Z.of_nat 0) with 0.
    rewrite Z.min_l, Z.max_l by lia. lia.
  - replace (Z.of_nat (S n)) with (Z.of_nat n + 1) by lia.
    rewrite upTo_succ by lia. rewrite map_app, sumZ_app, IH.
    cbn [map sumZ fold_right].
    destruct (Z.ltb_spec (Z.of_nat n) numGroup1).
    + rewrite !Z.min_l, !Z.max_l by lia. lia.
    + rewrite !Z.min_r, !Z.max_r by lia. lia.
Qed.



(** ** The character count *)

Lemma getCharacterCountBits_payload mode version :
  mode <> Mode.ECI ->
  In (Mode.getCharacterCountBits mode version) [8; 9; 10; 11; 12; 13; 14; 16].
Proof.
  intros Hmode. unfold Mode.getCharacterCountBits.
  destruct (Version.getVersionNumber version <=? 9);
    [|destruct (Version.getVersionNumber version <=? 26)];
    destruct mode; try congruence; simpl; tauto.
Qed.

Lemma shl_1_payload numBits :
  In numBits [8; 9; 10; 11; 12; 13; 14; 16] ->
  JS.shl 1 numBits = 2 ^ numBits /\ 0 < numBits <= 32.
Proof.
  simpl. intros H.
  repeat (destruct H as [<-|H]; [split; [reflexivity|lia]|]).
  contradiction.
Qed.

(** C9. For a payload mode and a character count [numLetters >= 0],
    [appendLengthInfo] throws, leaving the bits as they were, exactly when
    [numLetters >= 2 ^ charCountBits(mode, version)], and otherwise appends
    [numLetters] in exactly that many bits; a count of [2 ^ charCountBits -
    1] is accepted and [2 ^ charCountBits] is refused. *)
Theorem appendLengthInfo_spec (numLetters : Z) (version : Version.t)
  (mode : Mode.t) (bits : BitArray.t) :
  mode <> Mode.ECI -> 0 <= numLetters ->
  let numBits := Mode.getCharacterCountBits mode version in
  (numLetters >= 2 ^ numBits ->
   exists msg,
     Encoder.appendLengthInfo numLetters version mode bits
     = (Thrown (WriterException msg), bits))
  /\ (numLetters < 2 ^ numBits ->
      Encoder.appendLengthInfo numLetters version mode bits
      = (Returned tt, bits ++ BitArray.bitsOf numLetters (Z.to_nat numBits))
      /\ List.length (BitArray.bitsOf numLetters (Z.to_nat numBits))
         = Z.to_nat numBits)
  /\ returned (Encoder.appendLengthInfo (2 ^ numBits - 1) version mode bits)
     = true
  /\ failed (Encoder.appendLengthInfo (2 ^ numBits) version mode bits) = true.
Proof.
  intros Hmode Hpos numBits.
  destruct (shl_1_payload numBits
              (getCharacterCountBits_payload mode version Hmode))
    as [Hshl Hrange].
  assert (Hthrow : forall n, n >= 2 ^ numBits ->
            Encoder.appendLengthInfo n version mode bits
            = (Thrown (WriterException "is bigger than"), bits)).
  { intros n Hn. unfold Encoder.appendLengthInfo. fold numBits.
    rewrite Hshl. destruct (Z.geb_spec n (2 ^ numBits)); [reflexivity|lia]. }
  assert (Hok : forall n, 0 <= n < 2 ^ numBits ->
            Encoder.appendLengthInfo n version mode bits
            = (Returned tt, bits ++ BitArray.bitsOf n (Z.to_nat numBits))).
  { intros n Hn. unfold Encoder.appendLengthInfo. fold numBits.
    rewrite Hshl. destruct (Z.geb_spec n (2 ^ numBits)); [lia|].
    apply appendBits_ok; lia. }
  assert (Hpow : 0 < 2 ^ numBits) by (apply Z.pow_pos_nonneg; lia).
  repeat split.
  - intros Hbig. eexists. apply Hthrow. exact Hbig.
  - apply Hok. lia.
  - apply bitsOf_length.
  - rewrite Hok by lia. reflexivity.
  - rewrite Hthrow by lia. reflexivity.
Qed.

Lemma appendLengthInfo_spec_witness :
  (exists msg,
     Encoder.appendLengthInfo 256 sampleVersion1 Mode.BYTE []
     = (Thrown (WriterException msg), []))
  /\ Encoder.appendLengthInfo 255 sampleVersion1 Mode.BYTE []
     = (Returned tt, repeat true 8).
Proof.
  split.
  - apply (proj1 (appendLengthInfo_spec 256 sampleVersion1 Mode.BYTE []
                    ltac:(discriminate) ltac:(lia))).
    vm_compute. discriminate.
  - apply (proj1 (proj1 (proj2 (appendLengthInfo_spec 255 sampleVersion1
                                  Mode.BYTE []
                                  ltac:(discriminate) ltac:(lia)))
                    eq_refl)).
Defined.

(** ** Capacity test and version selection *)

(** What [willFit] computes: the data codewords must hold
    [(numInputBits + 7) / 8] as a fraction, seven eighths of a byte more
    than the bits need. *)
Lemma willFit_iff numInputBits version ecLevel :
  Encoder.willFit numInputBits version ecLevel = true
  <-> numInputBits + 7 <= 8 * numDataCodewords version ecLevel.
Proof.
  unfold Encoder.willFit, numDataCodewords.
  rewrite Qle_bool_iff. unfold Qle, Qdiv, Qmult, Qinv, inject_Z.
  cbn [Qnum Qden]. change (Z.pos (1 * 8)) with 8. lia.
Qed.

Lemma ceilDiv8_le n d : ceilDiv8 n <= d <-> n <= 8 * d.
Proof.
  unfold ceilDiv8.
  pose proof (Z.div_mod (n + 7) 8 ltac:(lia)).
  pose proof (Z.mod_pos_bound (n + 7) 8 ltac:(lia)).
  lia.
Qed.

(** C1. The capacity test of the code is not the ceiling division: a
    payload that fills the data codewords exactly ([numInputBits] eight
    times their number) satisfies [numDataCodewords >= ceil
    (numInputBits / 8)] and is refused by [willFit]; with version 1-L (19
    data codewords) and 152 bits, [willFit] is false and [chooseVersion]
    moves on to version 2. *)
Theorem willFit_refuses_exact_fill (version : Version.t)
  (ecLevel : ErrorCorrectionLevel.t) :
  let numDataBytes := numDataCodewords version ecLevel in
  Encoder.willFit (8 * numDataBytes) version ecLevel = false
  /\ ceilDiv8 (8 * numDataBytes) <= numDataBytes
  /\ Encoder.willFit 152 sampleVersion1 ErrorCorrectionLevel.L = false
  /\ fst (Encoder.chooseVersion sampleVersionTable 152
            ErrorCorrectionLevel.L tt)
     = Returned sampleVersion2.
Proof.
  intros numDataBytes. repeat split.
  - apply not_true_is_false. rewrite willFit_iff. fold numDataBytes. lia.
  - apply ceilDiv8_le. lia.
Qed.

(** ** The ECI header of [encode] *)

Section ECIHeader.

Variable StringEncoding_encode : JS.JSString -> string -> Outcome (list byte).
Variables SJIS UTF8 : CharacterSetECI.t.
Variable getCharacterSetECIByName : string -> option CharacterSetECI.t.

Lemma appendECI_ok eci bits :
  0 <= CharacterSetECI.getValue eci < 256 ->
  Encoder.appendECI eci bits = (Returned tt, bits ++ eciHeader eci).
Proof.
  intros Hv. unfold Encoder.appendECI.
  erewrite bind_returned; [|apply appendBits_ok; simpl; lia].
  rewrite appendBits_ok by (simpl; lia).
  unfold eciHeader. rewrite <- app_assoc. reflexivity.
Qed.

Lemma appendModeInfo_ok mode bits :
  Encoder.appendModeInfo mode bits = (Returned tt, bits ++ modeIndicator mode).
Proof.
  unfold Encoder.appendModeInfo. apply appendBits_ok; destruct mode; simpl; lia.
Qed.

(** C2, as the code has it.  [encode] prepends the ECI header in Byte mode
    exactly when the caller supplied a charset hint and the name resolves
    to a registered character set, whether or not that charset is the
    default one; without a hint, or outside Byte mode, the header bits are
    the mode indicator alone. *)
Theorem encode_headerBits_eci (content : JS.JSString)
  (hints : option EncodeHints.t) :
  (forall name eci,
     getCharacterSetECIByName name = Some eci ->
     0 <= CharacterSetECI.getValue eci < 256) ->
  let charset :=
    match hints with
    | Some h => EncodeHints.CHARACTER_SET h
    | None => None
    end in
  let encoding :=
    match charset with
    | Some e => e
    | None => Encoder.DEFAULT_BYTE_MODE_ENCODING UTF8
    end in
  let mode :=
    Encoder.chooseMode StringEncoding_encode SJIS content (Some encoding) in
  Encoder.encode_headerBits StringEncoding_encode SJIS UTF8
    getCharacterSetECIByName content hints BitArray.empty
  = (Returned (mode, encoding),
     match mode, charset with
     | Mode.BYTE, Some e =>
         match getCharacterSetECIByName e with
         | Some eci => eciHeader eci
         | None => []
         end
     | _, _ => []
     end ++ modeIndicator mode).
Proof.
  intros Hreg charset encoding mode.
  unfold Encoder.encode_headerBits.
  fold charset. fold encoding. fold mode.
  destruct charset as [e|] eqn:Hcs.
  - (* a hint is present *)
    cbn [orb]. rewrite andb_true_r.
    destruct mode eqn:Hmode; cbn [Mode.eqb];
      try (unfold bind, ret; rewrite appendModeInfo_ok; reflexivity).
    subst encoding.
    destruct (getCharacterSetECIByName e) as [eci|] eqn:Hlook.
    + erewrite bind_returned; [|apply appendECI_ok; eapply Hreg; exact Hlook].
      erewrite bind_returned; [|apply appendModeInfo_ok].
      unfold ret. rewrite app_nil_l. reflexivity.
    + unfold bind, ret. rewrite appendModeInfo_ok. reflexivity.
  - (* no hint: the encoding is the default one *)
    subst encoding. rewrite String.eqb_refl. cbn [orb negb].
    rewrite andb_false_r.
    unfold bind, ret. rewrite appendModeInfo_ok.
    destruct mode; reflexivity.
Qed.

End ECIHeader.

Lemma sample_registry_values name eci :
  sampleGetCharacterSetECIByName name = Some eci ->
  0 <= CharacterSetECI.getValue eci < 256.
Proof.
  unfold sampleGetCharacterSetECIByName.
  destruct (String.eqb name "UTF8"); [intros [= <-]; simpl; lia|].
  destruct (String.eqb name "SJIS"); [intros [= <-]; simpl; lia|].
  discriminate.
Qed.

Lemma encode_headerBits_eci_witness :
  Encoder.encode_headerBits sampleEncode sampleSJIS sampleUTF8
    sampleGetCharacterSetECIByName (JS.ofString "hello")
    (Some (EncodeHints.mk (Some "UTF8"%string) None)) BitArray.empty
  = (Returned (Mode.BYTE, "UTF8"%string),
     [false; true; true; true;
      false; false; false; true; true; false; true; false;
      false; true; false; false]).
Proof.
  apply (encode_headerBits_eci sampleEncode sampleSJIS sampleUTF8
           sampleGetCharacterSetECIByName (JS.ofString "hello")
           (Some (EncodeHints.mk (Some "UTF8"%string) None))
           sample_registry_values).
Defined.

Lemma sample_headerBits_default_hint :
  Encoder.encode_headerBits sampleEncode sampleSJIS sampleUTF8
    sampleGetCharacterSetECIByName (JS.ofString "hello")
    (Some (EncodeHints.mk (Some "UTF8"%string) None)) BitArray.empty
  = (Returned (Mode.BYTE, "UTF8"%string),
     eciHeader sampleUTF8 ++ modeIndicator Mode.BYTE).
Proof. vm_compute. reflexivity. Qed.

(** C2, as claimed, fails: with the hint "UTF8", which is the default
    charset, a Byte-mode call gets the ECI header although the resolved
    charset does not differ from the default. *)
Lemma eci_header_for_default_charset_hint :
  ~ eciExactlyWhenNotDefault sampleEncode sampleSJIS sampleUTF8
      sampleGetCharacterSetECIByName (JS.ofString "hello")
      (Some (EncodeHints.mk (Some "UTF8"%string) None)).
Proof.
  intros Hclaim.
  specialize (Hclaim "UTF8"%string _ sample_headerBits_default_hint).
  destruct Hclaim as [Hto _].
  apply (Hto eq_refl). reflexivity.
Qed.

(** ** Mode selection *)

Lemma byteValue_range b : 0 <= byteValue b < 256.
Proof.
  unfold byteValue. pose proof (Byte.to_N_bounded b). lia.
Qed.

Lemma isDigitUnitb_iff c : isDigitUnitb c = true <-> isDigitUnit c.
Proof.
  unfold isDigitUnitb, isDigitUnit.
  rewrite andb_true_iff, !N.leb_le. tauto.
Qed.

Lemma inAlphanumericSetb_iff c :
  inAlphanumericSetb c = true <-> In c alphanumericSet.
Proof.
  unfold inAlphanumericSetb. rewrite existsb_exists. split.
  - intros (x & Hin & Heq). apply N.eqb_eq in Heq. subst. exact Hin.
  - intros Hin. exists c. split; [exact Hin|apply N.eqb_refl].
Qed.

Lemma isDigit_charAt c : Encoder.isDigit [c] = isDigitUnitb c.
Proof.
  unfold Encoder.isDigit, Encoder.getDigit, JS.charCodeAt, isDigitUnitb.
  cbn [nth].
  destruct (N.leb_spec 48 c), (N.leb_spec c 57),
    (Z.leb_spec 0 (Z.of_N c - 48)), (Z.leb_spec (Z.of_N c - 48) 9);
    try reflexivity; lia.
Qed.

(** The table and the 45-character set agree on the code units below 96. *)
Lemma ALPHANUMERIC_TABLE_set :
  forallb
    (fun c =>
       Bool.eqb (negb (Encoder.getAlphanumericCode c =? -1))
                (inAlphanumericSetb c))
    (map N.of_nat (seq 0 96))
  = true.
Proof. vm_compute. reflexivity. Qed.

Lemma alphanumericSet_below_96 :
  forallb (fun c => (c <? 96)%N) alphanumericSet = true.
Proof. vm_compute. reflexivity. Qed.

Lemma getAlphanumericCode_set c :
  negb (Encoder.getAlphanumericCode c =? -1) = inAlphanumericSetb c.
Proof.
  destruct (N.ltb_spec c 96) as [Hlt|Hge].
  - pose proof ALPHANUMERIC_TABLE_set as Htab.
    rewrite forallb_forall in Htab.
    apply eqb_prop. apply Htab.
    apply in_map_iff. exists (N.to_nat c). split; [lia|].
    apply in_seq. lia.
  - unfold Encoder.getAlphanumericCode.
    change (Z.of_nat (List.length Encoder.ALPHANUMERIC_TABLE)) with 96.
    destruct (Z.ltb_spec (Z.of_N c) 96); [lia|].
    cbn [Z.eqb negb].
    symmetry. apply not_true_is_false. intros Hin.
    apply inAlphanumericSetb_iff in Hin.
    pose proof alphanumericSet_below_96 as Hb.
    rewrite forallb_forall in Hb. apply Hb in Hin.
    apply N.ltb_lt in Hin. lia.
Qed.

Lemma digit_in_alphanumericSet c :
  isDigitUnitb c = true -> inAlphanumericSetb c = true.
Proof.
  intros Hd. apply isDigitUnitb_iff in Hd. destruct Hd as [H1 H2].
  assert (Hc : In c (map N.of_nat (seq 48 10))).
  { apply in_map_iff. exists (N.to_nat c). split; [lia|].
    apply in_seq. lia. }
  apply inAlphanumericSetb_iff. simpl in Hc.
  unfold alphanumericSet. simpl.
  repeat (destruct Hc as [<-|Hc]; [tauto|]). contradiction.
Qed.

Lemma charAt_app_head (pre : JS.JSString) c suf :
  JS.charAt (pre ++ c :: suf) (List.length pre) = [c].
Proof.
  rewrite <- (Nat.add_0_r (List.length pre)).
  apply charAt_app_offset. reflexivity.
Qed.

Lemma chooseMode_scan_units (suf : JS.JSString) :
  forall (pre : JS.JSString) hasNumeric hasAlphanumeric,
    Encoder.chooseMode_scan (pre ++ suf)
      (seq (List.length pre) (List.length suf)) hasNumeric hasAlphanumeric
    = scanUnits suf hasNumeric hasAlphanumeric.
Proof.
  induction suf as [|c suf IH]; intros pre hn ha.
  - reflexivity.
  - cbn [List.length seq Encoder.chooseMode_scan scanUnits].
    cbv zeta. rewrite !(charAt_app_head pre c suf).
    rewrite isDigit_charAt.
    change (JS.charCodeAt [c] 0) with c.
    rewrite getAlphanumericCode_set.
    replace (pre ++ c :: suf) with ((pre ++ [c]) ++ suf)
      by (rewrite <- app_assoc; reflexivity).
    replace (S (List.length pre)) with (List.length (pre ++ [c]))
      by (rewrite length_app; simpl; lia).
    rewrite !IH. reflexivity.
Qed.

Lemma scanUnits_closed_form units :
  forall hasNumeric hasAlphanumeric,
    scanUnits units hasNumeric hasAlphanumeric
    = if existsb (fun c => negb (inAlphanumericSetb c)) units then Mode.BYTE
      else if hasAlphanumeric || existsb (fun c => negb (isDigitUnitb c)) units
           then Mode.ALPHANUMERIC
      else if hasNumeric || existsb isDigitUnitb units then Mode.NUMERIC
      else Mode.BYTE.
Proof.
  induction units as [|c units IH]; intros hn ha.
  - simpl. rewrite !orb_false_r. reflexivity.
  - cbn [scanUnits existsb].
    destruct (isDigitUnitb c) eqn:Hd.
    + rewrite (digit_in_alphanumericSet c Hd). cbn [negb orb].
      rewrite IH. rewrite orb_true_r. reflexivity.
    + destruct (inAlphanumericSetb c) eqn:Ha; cbn [negb orb].
      * rewrite IH. rewrite orb_true_r. cbn [orb]. reflexivity.
      * reflexivity.
Qed.

Lemma in_evensBelow i n :
  In i (evensBelow n) <-> exists k, i = (2 * k)%nat /\ (2 * k < n)%nat.
Proof.
  unfold evensBelow. rewrite in_map_iff.
  pose proof (Nat.div2_odd (S n)) as Hdiv.
  destruct (Nat.odd (S n)); cbn [Nat.b2n] in Hdiv.
  - split.
    + intros (k & <- & Hk). apply in_seq in Hk. exists k. lia.
    + intros (k & -> & Hk). exists k. split; [reflexivity|].
      apply in_seq. lia.
  - split.
    + intros (k & <- & Hk). apply in_seq in Hk. exists k. lia.
    + intros (k & -> & Hk). exists k. split; [reflexivity|].
      apply in_seq. lia.
Qed.

Lemma byteAt_some bytes i b :
  nth_error bytes i = Some b -> JS.byteAt bytes i = byteValue b.
Proof. intros H. unfold JS.byteAt. rewrite H. reflexivity. Qed.

Lemma byteAt_none bytes i :
  (List.length bytes <= i)%nat -> JS.byteAt bytes i = 0.
Proof.
  intros H. unfold JS.byteAt.
  rewrite (proj2 (nth_error_None bytes i) H). reflexivity.
Qed.

Lemma land_255_byte b : JS.land (byteValue b) 0xff = byteValue b.
Proof.
  rewrite land_255. apply Z.mod_small. apply byteValue_range.
Qed.

Lemma kanjiFirstByte_test b :
  negb (((byteValue b <? 0x81) || (byteValue b >? 0x9f))
        && ((byteValue b <? 0xe0) || (byteValue b >? 0xeb))) = true
  <-> isKanjiFirstByte b.
Proof.
  unfold isKanjiFirstByte.
  destruct (Z.ltb_spec (byteValue b) 0x81), (Z.gtb_spec (byteValue b) 0x9f),
    (Z.ltb_spec (byteValue b) 0xe0), (Z.gtb_spec (byteValue b) 0xeb);
    cbn [orb andb negb]; split; intros; try discriminate; try reflexivity;
    lia.
Qed.

Section ChooseMode.

Variable StringEncoding_encode : JS.JSString -> string -> Outcome (list byte).
Variable SJIS : CharacterSetECI.t.

Lemma isOnlyDoubleByteKanji_iff (content : JS.JSString) :
  Encoder.isOnlyDoubleByteKanji StringEncoding_encode SJIS content = true
  <-> exists bytes,
        StringEncoding_encode content (CharacterSetECI.getName SJIS)
        = Returned bytes
        /\ Nat.Even (List.length bytes)
        /\ forall k b, nth_error bytes (2 * k) = Some b -> isKanjiFirstByte b.
Proof.
  unfold Encoder.isOnlyDoubleByteKanji.
  destruct (StringEncoding_encode content (CharacterSetECI.getName SJIS))
    as [bytes|e].
  - destruct (Nat.eqb_spec (Nat.modulo (List.length bytes) 2) 0) as [Hev|Hodd];
      cbn [negb].
    + rewrite forallb_forall. split.
      * intros Hall. exists bytes. split; [reflexivity|]. split.
        { apply Nat.Div0.mod_divides in Hev. destruct Hev as [m Hm].
          exists m. exact Hm. }
        intros k b Hnth.
        assert (Hk : (2 * k < List.length bytes)%nat)
          by (apply nth_error_Some; congruence).
        specialize (Hall (2 * k)%nat
                      (proj2 (in_evensBelow _ _) (ex_intro _ k (conj eq_refl Hk)))).
        cbv beta zeta in Hall.
        rewrite (byteAt_some _ _ _ Hnth), land_255_byte in Hall.
        apply kanjiFirstByte_test. exact Hall.
      * intros (bytes' & [= <-] & _ & Hfirst) i Hin.
        apply in_evensBelow in Hin. destruct Hin as (k & -> & Hk).
        destruct (nth_error bytes (2 * k)) as [b|] eqn:Hnth;
          [|apply nth_error_None in Hnth; lia].
        cbv beta zeta.
        rewrite (byteAt_some _ _ _ Hnth), land_255_byte.
        apply kanjiFirstByte_test. eapply Hfirst. exact Hnth.
    + split; [discriminate|].
      intros (bytes' & [= <-] & [m Hm] & _). exfalso. apply Hodd.
      rewrite Hm. rewrite Nat.mul_comm. apply Nat.Div0.mod_mul.
  - split; [discriminate|]. intros (bytes & Hb & _). discriminate.
Qed.

(** C4. Without the Shift_JIS hint, [chooseMode] returns Byte if some
    character is outside the 45-character alphanumeric set, else
    Alphanumeric if some character is not a digit, else Numeric if some
    character is a digit, and Byte for the empty string.  With the
    Shift_JIS hint it returns Kanji exactly when [isOnlyDoubleByteKanji]
    holds, that is, when the Shift_JIS bytes are even in number and the
    first byte of every pair lies in [0x81,0x9F] or [0xE0,0xEB]. *)
Theorem chooseMode_spec (content : JS.JSString) (encoding : option string) :
  (encoding <> Some (CharacterSetECI.getName SJIS) ->
   (Exists (fun c => ~ In c alphanumericSet) content ->
    Encoder.chooseMode StringEncoding_encode SJIS content encoding
    = Mode.BYTE)
   /\ (Forall (fun c => In c alphanumericSet) content ->
       Exists (fun c => ~ isDigitUnit c) content ->
       Encoder.chooseMode StringEncoding_encode SJIS content encoding
       = Mode.ALPHANUMERIC)
   /\ (Forall isDigitUnit content -> Exists isDigitUnit content ->
       Encoder.chooseMode StringEncoding_encode SJIS content encoding
       = Mode.NUMERIC)
   /\ (content = [] ->
       Encoder.chooseMode StringEncoding_encode SJIS content encoding
       = Mode.BYTE))
  /\ (encoding = Some (CharacterSetECI.getName SJIS) ->
      (Encoder.chooseMode StringEncoding_encode SJIS content encoding
       = Mode.KANJI
       <-> Encoder.isOnlyDoubleByteKanji StringEncoding_encode SJIS content
           = true))
  /\ (Encoder.isOnlyDoubleByteKanji StringEncoding_encode SJIS content = true
      <-> exists bytes,
            StringEncoding_encode content (CharacterSetECI.getName SJIS)
            = Returned bytes
            /\ Nat.Even (List.length bytes)
            /\ forall k b,
                 nth_error bytes (2 * k) = Some b -> isKanjiFirstByte b).
Proof.
  assert (Hscan :
            Encoder.chooseMode_scan content (seq 0 (List.length content))
              false false
            = scanUnits content false false)
    by apply (chooseMode_scan_units content []).
  split; [|split].
  - intros Hnot.
    assert (Hmode :
              Encoder.chooseMode StringEncoding_encode SJIS content encoding
              = scanUnits content false false).
    { unfold Encoder.chooseMode.
      destruct encoding as [e|]; [|cbn [andb]; exact Hscan].
      destruct (String.eqb_spec (CharacterSetECI.getName SJIS) e) as [Heq|_];
        [subst e; congruence|].
      cbn [andb]. exact Hscan. }
    rewrite Hmode, scanUnits_closed_form. cbn [orb].
    repeat split.
    + intros Hout.
      replace (existsb (fun c => negb (inAlphanumericSetb c)) content)
        with true; [reflexivity|].
      symmetry. apply existsb_exists.
      apply Exists_exists in Hout. destruct Hout as (c & Hin & Hc).
      exists c. split; [exact Hin|].
      apply negb_true_iff, not_true_is_false.
      rewrite inAlphanumericSetb_iff. exact Hc.
    + intros Hall Hnondigit.
      replace (existsb (fun c => negb (inAlphanumericSetb c)) content)
        with false.
      * replace (existsb (fun c => negb (isDigitUnitb c)) content) with true;
          [reflexivity|].
        symmetry. apply existsb_exists.
        apply Exists_exists in Hnondigit.
        destruct Hnondigit as (c & Hin & Hc).
        exists c. split; [exact Hin|].
        apply negb_true_iff, not_true_is_false.
        rewrite isDigitUnitb_iff. exact Hc.
      * symmetry. apply not_true_is_false. intros Hex.
        apply existsb_exists in Hex. destruct Hex as (c & Hin & Hc).
        rewrite Forall_forall in Hall.
        apply negb_true_iff in Hc.
        rewrite (proj2 (inAlphanumericSetb_iff c) (Hall c Hin)) in Hc.
        discriminate.
    + intros Hall Hsome.
      rewrite Forall_forall in Hall.
      replace (existsb (fun c => negb (inAlphanumericSetb c)) content)
        with false.
      * replace (existsb (fun c => negb (isDigitUnitb c)) content) with false.
        -- replace (existsb isDigitUnitb content) with true; [reflexivity|].
           symmetry. apply existsb_exists.
           apply Exists_exists in Hsome. destruct Hsome as (c & Hin & Hc).
           exists c. split; [exact Hin|]. apply isDigitUnitb_iff. exact Hc.
        -- symmetry. apply not_true_is_false. intros Hex.
           apply existsb_exists in Hex. destruct Hex as (c & Hin & Hc).
           apply negb_true_iff in Hc.
           rewrite (proj2 (isDigitUnitb_iff c) (Hall c Hin)) in Hc.
           discriminate.
      * symmetry. apply not_true_is_false. intros Hex.
        apply existsb_exists in Hex. destruct Hex as (c & Hin & Hc).
        apply negb_true_iff in Hc.
        rewrite (digit_in_alphanumericSet c
                   (proj2 (isDigitUnitb_iff c) (Hall c Hin))) in Hc.
        discriminate.
    + intros ->. reflexivity.
  - intros ->. unfold Encoder.chooseMode. rewrite String.eqb_refl.
    cbn [andb].
    destruct (Encoder.isOnlyDoubleByteKanji StringEncoding_encode SJIS content).
    + split; reflexivity.
    + rewrite Hscan, scanUnits_closed_form.
      split; [|discriminate].
      destruct (existsb _ content); [discriminate|].
      destruct (_ || _); [discriminate|].
      destruct (_ || _); discriminate.
  - apply isOnlyDoubleByteKanji_iff.
Qed.

End ChooseMode.

Lemma Forall_of_forallb {A} (P : A -> Prop) (f : A -> bool) (l : list A) :
  (forall x, f x = true -> P x) -> forallb f l = true -> Forall P l.
Proof.
  intros Hf Hall. apply Forall_forall. intros x Hin.
  apply Hf. rewrite forallb_forall in Hall. apply Hall. exact Hin.
Qed.

Lemma chooseMode_spec_witness :
  Encoder.chooseMode sampleEncode sampleSJIS (JS.ofString "HELLO WORLD") None
  = Mode.ALPHANUMERIC
  /\ Encoder.chooseMode sampleEncode sampleSJIS (JS.ofString "0123") None
     = Mode.NUMERIC
  /\ Encoder.chooseMode sampleEncode sampleSJIS (JS.ofString "hello") None
     = Mode.BYTE
  /\ (Encoder.chooseMode sampleEncode sampleSJIS [0x70b9; 0x8317]%N
        (Some "SJIS"%string) = Mode.KANJI
      <-> Encoder.isOnlyDoubleByteKanji sampleEncode sampleSJIS
            [0x70b9; 0x8317]%N = true).
Proof.
  split; [|split; [|split]].
  - destruct (proj1 (chooseMode_spec sampleEncode sampleSJIS
                       (JS.ofString "HELLO WORLD") None)
                ltac:(discriminate)) as (_ & Halpha & _ & _).
    apply Halpha.
    + apply (Forall_of_forallb _ inAlphanumericSetb);
        [intros x; apply inAlphanumericSetb_iff|reflexivity].
    + apply Exists_cons_hd. unfold isDigitUnit. simpl. lia.
  - destruct (proj1 (chooseMode_spec sampleEncode sampleSJIS
                       (JS.ofString "0123") None)
                ltac:(discriminate)) as (_ & _ & Hnum & _).
    apply Hnum.
    + apply (Forall_of_forallb _ isDigitUnitb);
        [intros x; apply isDigitUnitb_iff|reflexivity].
    + apply Exists_cons_hd. unfold isDigitUnit. simpl. lia.
  - destruct (proj1 (chooseMode_spec sampleEncode sampleSJIS
                       (JS.ofString "hello") None)
                ltac:(discriminate)) as (Hbyte & _ & _ & _).
    apply Hbyte.
    apply Exists_cons_hd. intros Hin.
    apply inAlphanumericSetb_iff in Hin. discriminate.
  - apply (proj1 (proj2 (chooseMode_spec sampleEncode sampleSJIS
                           [0x70b9; 0x8317]%N (Some "SJIS"%string)))).
    reflexivity.
Defined.

(** ** Kanji segments *)

Lemma list_ind2 {A} (P : list A -> Prop) :
  P [] -> (forall a, P [a]) ->
  (forall a b rest, P rest -> P (a :: b :: rest)) ->
  forall l, P l.
Proof.
  intros H0 H1 H2.
  fix IH 1. intros [|a [|b rest]].
  - exact H0.
  - apply H1.
  - apply H2. apply IH.
Qed.

Lemma kanjiCode_value v1 v2 :
  0 <= v1 < 256 -> 0 <= v2 < 256 ->
  kanjiCode (v1, v2) = v1 * 256 + v2.
Proof.
  intros H1 H2. unfold kanjiCode. cbn [fst snd].
  rewrite Z.shiftl_mul_pow2 by lia. change (2 ^ 8) with 256.
  assert (Hland : Z.land (v1 * 256) v2 = 0);
    [|pose proof (Z.add_lor_land (v1 * 256) v2); lia].
  apply Z.bits_inj'. intros n Hn. rewrite Z.land_spec, Z.bits_0.
  destruct (Z.ltb_spec n 8) as [Hlt|Hge].
  - change 256 with (2 ^ 8). rewrite Z.mul_pow2_bits_low by lia. reflexivity.
  - replace (Z.testbit v2 n) with false; [apply andb_false_r|].
    symmetry. destruct (Z.eq_dec v2 0) as [->|Hnz]; [apply Z.bits_0|].
    apply Z.bits_above_log2; [lia|].
    assert (Z.log2 v2 < 8); [|lia].
    apply Z.log2_lt_pow2; lia.
Qed.

(** The code as the 32-bit operators of the source compute it. *)
Lemma js_kanjiCode v1 v2 :
  0 <= v1 < 256 -> 0 <= v2 < 256 ->
  JS.lor (JS.land (JS.shl v1 8) 0xffffffff) v2 = kanjiCode (v1, v2).
Proof.
  intros H1 H2.
  assert (Hshl : JS.shl v1 8 = Z.shiftl v1 8).
  { unfold JS.shl. rewrite (toInt32_small v1) by lia.
    change (8 mod 32) with 8.
    rewrite Z.shiftl_mul_pow2 by lia. change (2 ^ 8) with 256.
    apply toInt32_small. lia. }
  assert (Hrange : 0 <= Z.shiftl v1 8 < 2 ^ 31).
  { rewrite Z.shiftl_mul_pow2 by lia. change (2 ^ 8) with 256. lia. }
  unfold JS.lor, JS.land. rewrite Hshl.
  change (JS.toInt32 0xffffffff) with (-1).
  rewrite (toInt32_small (Z.shiftl v1 8)) by lia.
  rewrite Z.land_m1_r.
  rewrite (toInt32_small (Z.shiftl v1 8)), (toInt32_small v2) by lia.
  reflexivity.
Qed.

Lemma kanjiEncoded_range code :
  inKanjiRange code ->
  0 <= kanjiSubtracted code < 2 ^ 31
  /\ 0 <= kanjiEncoded code < 2 ^ 13.
Proof.
  intros Hr. unfold kanjiEncoded.
  assert (Hs : 0 <= kanjiSubtracted code <= 0x2a7f).
  { unfold kanjiSubtracted, inKanjiRange in *.
    destruct (Z.leb_spec code 0x9ffc); lia. }
  set (s := kanjiSubtracted code) in *.
  rewrite Z.shiftr_div_pow2 by lia. change (2 ^ 8) with 256.
  change 0xff with (Z.ones 8). rewrite Z.land_ones by lia.
  change (2 ^ 8) with 256.
  pose proof (Z.div_mod s 256 ltac:(lia)).
  pose proof (Z.mod_pos_bound s 256 ltac:(lia)).
  change (2 ^ 13) with 8192. change (2 ^ 31) with 2147483648.
  lia.
Qed.

Lemma kanji_emit subtracted bits :
  0 <= subtracted < 2 ^ 31 ->
  0 <= Z.shiftr subtracted 8 * 0xc0 + Z.land subtracted 0xff < 2 ^ 13 ->
  BitArray.appendBits
    (JS.sar subtracted 8 * 0xc0 + subtracted mod 256) 13 bits
  = (Returned tt,
     bits ++ BitArray.bitsOf
               (Z.shiftr subtracted 8 * 0xc0 + Z.land subtracted 0xff) 13).
Proof.
  intros Hs He.
  unfold JS.sar. rewrite toInt32_small by lia. change (8 mod 32) with 8.
  replace (subtracted mod 256) with (Z.land subtracted 0xff).
  - apply appendBits_ok; lia.
  - change 0xff with (Z.ones 8). rewrite Z.land_ones by lia. reflexivity.
Qed.

(** One round of the loop on a pair of byte values. *)
Lemma appendKanjiBytes_body_pair bytes i v1 v2 bits :
  JS.byteAt bytes i = v1 -> JS.byteAt bytes (i + 1) = v2 ->
  0 <= v1 < 256 -> 0 <= v2 < 256 ->
  appendKanjiBytes_body bytes i bits
  = if inKanjiRangeb (kanjiCode (v1, v2)) then
      (Returned tt,
       bits ++ BitArray.bitsOf (kanjiEncoded (kanjiCode (v1, v2))) 13)
    else (Thrown (WriterException "Invalid byte sequence"), bits).
Proof.
  intros Hb1 Hb2 H1 H2. unfold appendKanjiBytes_body. cbv zeta.
  rewrite Hb1, Hb2, !land_255, !Z.mod_small by lia.
  rewrite js_kanjiCode by lia.
  set (code := kanjiCode (v1, v2)).
  unfold inKanjiRangeb. rewrite !Z.geb_leb.
  destruct ((0x8140 <=? code) && (code <=? 0x9ffc)) eqn:Hfirst.
  - cbn [orb].
    assert (Hr : inKanjiRange code).
    { left. apply andb_true_iff in Hfirst. lia. }
    destruct (kanjiEncoded_range code Hr) as [Hs He].
    assert (Hsub : kanjiSubtracted code = code - 0x8140).
    { unfold kanjiSubtracted. apply andb_true_iff in Hfirst.
      destruct (Z.leb_spec code 0x9ffc); lia. }
    rewrite Hsub in Hs. unfold kanjiEncoded in *. rewrite Hsub in *.
    destruct (Z.eqb_spec (code - 0x8140) (-1)); [lia|].
    apply kanji_emit; assumption.
  - cbn [orb].
    destruct ((0xe040 <=? code) && (code <=? 0xebbf)) eqn:Hsecond.
    + assert (Hr : inKanjiRange code).
      { right. apply andb_true_iff in Hsecond. lia. }
      destruct (kanjiEncoded_range code Hr) as [Hs He].
      assert (Hsub : kanjiSubtracted code = code - 0xc140).
      { unfold kanjiSubtracted. apply andb_true_iff in Hsecond.
        destruct (Z.leb_spec code 0x9ffc); lia. }
      rewrite Hsub in Hs. unfold kanjiEncoded in *. rewrite Hsub in *.
      destruct (Z.eqb_spec (code - 0xc140) (-1)); [lia|].
      apply kanji_emit; assumption.
    + reflexivity.
Qed.

Lemma byteAt_app_offset (pre suf : list byte) k :
  JS.byteAt (pre ++ suf) (List.length pre + k) = JS.byteAt suf k.
Proof. unfold JS.byteAt. rewrite nth_error_app_offset. reflexivity. Qed.

Lemma appendKanjiBytes_loop_pairs (suf : list byte) :
  forall (pre : list byte) bits,
    forEach (map (fun k => (List.length pre + 2 * k)%nat)
                 (seq 0 (Nat.div2 (S (List.length suf)))))
            (appendKanjiBytes_body (pre ++ suf)) bits
    = kanjiRun (kanjiPairs suf) bits.
Proof.
  induction suf as [|a|a b rest IH] using list_ind2; intros pre bits.
  - reflexivity.
  - cbn [List.length Nat.div2 seq map forEach kanjiPairs kanjiRun].
    unfold bind.
    rewrite (appendKanjiBytes_body_pair _ _ (byteValue a) 0).
    + destruct (inKanjiRangeb (kanjiCode (byteValue a, 0))); reflexivity.
    + rewrite byteAt_app_offset. reflexivity.
    + rewrite <- Nat.add_assoc, byteAt_app_offset. reflexivity.
    + apply byteValue_range.
    + lia.
  - cbn [List.length Nat.div2 seq map forEach kanjiPairs kanjiRun].
    unfold bind.
    rewrite (appendKanjiBytes_body_pair _ _ (byteValue a) (byteValue b)).
    + destruct (inKanjiRangeb (kanjiCode (byteValue a, byteValue b)));
        [|reflexivity].
      rewrite <- seq_shift, map_map.
      replace (pre ++ a :: b :: rest) with ((pre ++ [a; b]) ++ rest)
        by (rewrite <- app_assoc; reflexivity).
      rewrite <- (IH (pre ++ [a; b])).
      f_equal. apply map_ext. intros k. rewrite length_app. simpl. lia.
    + rewrite byteAt_app_offset. reflexivity.
    + rewrite <- Nat.add_assoc, byteAt_app_offset. reflexivity.
    + apply byteValue_range.
    + apply byteValue_range.
Qed.

Lemma kanjiRun_in_range pairs :
  forall bits,
    Forall (fun p => inKanjiRange (kanjiCode p)) pairs ->
    kanjiRun pairs bits
    = (Returned tt,
       bits ++ flat_map
                 (fun p => BitArray.bitsOf (kanjiEncoded (kanjiCode p)) 13)
                 pairs).
Proof.
  induction pairs as [|p pairs IH]; intros bits Hall.
  - simpl. rewrite app_nil_r. reflexivity.
  - inversion Hall as [|? ? Hp Hrest]; subst.
    cbn [kanjiRun flat_map].
    replace (inKanjiRangeb (kanjiCode p)) with true.
    + rewrite IH by exact Hrest. rewrite <- app_assoc. reflexivity.
    + symmetry. unfold inKanjiRangeb, inKanjiRange in *.
      destruct Hp; [apply orb_true_iff; left|apply orb_true_iff; right];
        apply andb_true_iff; split; apply Z.leb_le; lia.
Qed.

Lemma kanjiRun_out_of_range pairs :
  forall bits,
    Exists (fun p => ~ inKanjiRange (kanjiCode p)) pairs ->
    exists bits',
      kanjiRun pairs bits
      = (Thrown (WriterException "Invalid byte sequence"), bits').
Proof.
  induction pairs as [|p pairs IH]; intros bits Hex.
  - inversion Hex.
  - cbn [kanjiRun].
    destruct (inKanjiRangeb (kanjiCode p)) eqn:Hp.
    + inversion Hex as [? ? Hbad|? ? Hlater]; subst.
      * exfalso. apply Hbad. unfold inKanjiRangeb, inKanjiRange in *.
        apply orb_true_iff in Hp.
        destruct Hp as [Hp|Hp]; apply andb_true_iff in Hp; lia.
      * apply IH. exact Hlater.
    + eexists. reflexivity.
Qed.

Lemma kanjiPairs_nth bytes :
  forall k b1 b2,
    nth_error bytes (2 * k) = Some b1 ->
    nth_error bytes (2 * k + 1) = Some b2 ->
    nth_error (kanjiPairs bytes) k = Some (byteValue b1, byteValue b2).
Proof.
  induction bytes as [|a|a b rest IH] using list_ind2; intros k b1 b2 H1 H2.
  - destruct k; discriminate.
  - destruct k; [discriminate|].
    replace (2 * S k)%nat with (S (S (2 * k))) in H1 by lia.
    simpl in H1. destruct (2 * k)%nat; discriminate.
  - destruct k as [|k].
    + simpl in H1, H2. injection H1 as <-. injection H2 as <-. reflexivity.
    + replace (2 * S k)%nat with (S (S (2 * k))) in H1 by lia.
      replace (2 * S k + 1)%nat with (S (S (2 * k + 1))) in H2 by lia.
      cbn [nth_error kanjiPairs] in *. apply IH; assumption.
Qed.

Lemma kanjiPairs_in bytes p :
  Nat.Even (List.length bytes) ->
  In p (kanjiPairs bytes) ->
  exists k b1 b2,
    nth_error bytes (2 * k) = Some b1
    /\ nth_error bytes (2 * k + 1) = Some b2
    /\ p = (byteValue b1, byteValue b2).
Proof.
  revert p.
  induction bytes as [|a|a b rest IH] using list_ind2; intros p Hev Hin.
  - contradiction.
  - destruct Hev as [m Hm]. simpl in Hm. lia.
  - cbn [kanjiPairs] in Hin. destruct Hin as [<-|Hin].
    + exists 0%nat, a, b. repeat split; reflexivity.
    + assert (Hev' : Nat.Even (List.length rest)).
      { destruct Hev as [m Hm]. exists (m - 1)%nat. simpl in Hm. lia. }
      destruct (IH p Hev' Hin) as (k & b1 & b2 & H1 & H2 & ->).
      exists (S k), b1, b2. repeat split.
      * replace (2 * S k)%nat with (S (S (2 * k))) by lia. exact H1.
      * replace (2 * S k + 1)%nat with (S (S (2 * k + 1))) by lia. exact H2.
Qed.

(** On a Shift_JIS byte string of odd length some pair is out of range:
    the first one-byte character starts a pair, and no code in the two
    ranges has such a high byte. *)
Lemma ShiftJIS_odd_out_of_range bytes :
  ShiftJIS bytes -> Nat.Odd (List.length bytes) ->
  Exists (fun p => ~ inKanjiRange (kanjiCode p)) (kanjiPairs bytes).
Proof.
  intros Hsjis. induction Hsjis as [|b rest Hsingle _ _|b1 b2 rest _ _ IH];
    intros Hodd.
  - destruct Hodd as [m Hm]. simpl in Hm. lia.
  - assert (Hhead : forall v2, 0 <= v2 < 256 ->
                      ~ inKanjiRange (kanjiCode (byteValue b, v2))).
    { intros v2 Hv2 Hr. apply Hsingle.
      pose proof (byteValue_range b) as Hb.
      rewrite kanjiCode_value in Hr by assumption.
      unfold inKanjiRange, isShiftJISLead in *. lia. }
    destruct rest as [|b2 rest].
    + cbn [kanjiPairs]. apply Exists_cons_hd. apply Hhead. lia.
    + cbn [kanjiPairs]. apply Exists_cons_hd. apply Hhead.
      apply byteValue_range.
  - cbn [kanjiPairs]. apply Exists_cons_tl. apply IH.
    destruct Hodd as [m Hm]. exists (m - 1)%nat. simpl in Hm. lia.
Qed.

Section AppendKanjiBytes.

Variable StringEncoding_encode : JS.JSString -> string -> Outcome (list byte).
Variable SJIS : CharacterSetECI.t.

Lemma appendKanjiBytes_run content bits bytes :
  StringEncoding_encode content (CharacterSetECI.getName SJIS)
  = Returned bytes ->
  Encoder.appendKanjiBytes StringEncoding_encode SJIS content bits
  = kanjiRun (kanjiPairs bytes) bits.
Proof.
  intros Henc. unfold Encoder.appendKanjiBytes. rewrite Henc.
  rewrite <- (appendKanjiBytes_loop_pairs bytes [] bits).
  unfold evensBelow, appendKanjiBytes_body.
  cbn [List.length app Nat.add]. reflexivity.
Qed.

(** C3. Let [bytes] be the Shift_JIS encoding of the content.
    [appendKanjiBytes] throws when [bytes] has odd length, and when some
    pair [(b1, b2)] has its code [(b1 << 8) | b2] outside [0x8140,0x9FFC]
    and [0xE040,0xEBBF]; when every pair is in range it returns normally
    having appended, for each pair, [(subtracted >> 8) * 0xC0 + (subtracted
    & 0xFF)] in 13 bits, [subtracted] being [code - 0x8140] in the first
    range and [code - 0xC140] in the second. *)
Theorem appendKanjiBytes_spec (content : JS.JSString) (bits : BitArray.t)
  (bytes : list byte) :
  StringEncoding_encode content (CharacterSetECI.getName SJIS)
  = Returned bytes ->
  (ShiftJIS bytes -> Nat.Odd (List.length bytes) ->
   exists bits',
     Encoder.appendKanjiBytes StringEncoding_encode SJIS content bits
     = (Thrown (WriterException "Invalid byte sequence"), bits'))
  /\ (forall k b1 b2,
        nth_error bytes (2 * k) = Some b1 ->
        nth_error bytes (2 * k + 1) = Some b2 ->
        ~ inKanjiRange (kanjiCode (byteValue b1, byteValue b2)) ->
        exists bits',
          Encoder.appendKanjiBytes StringEncoding_encode SJIS content bits
          = (Thrown (WriterException "Invalid byte sequence"), bits'))
  /\ (Nat.Even (List.length bytes) ->
      (forall k b1 b2,
         nth_error bytes (2 * k) = Some b1 ->
         nth_error bytes (2 * k + 1) = Some b2 ->
         inKanjiRange (kanjiCode (byteValue b1, byteValue b2))) ->
      Encoder.appendKanjiBytes StringEncoding_encode SJIS content bits
      = (Returned tt,
         bits ++ flat_map
                   (fun p => BitArray.bitsOf (kanjiEncoded (kanjiCode p)) 13)
                   (kanjiPairs bytes))).
Proof.
  intros Henc. rewrite (appendKanjiBytes_run content bits bytes Henc).
  split; [|split].
  - intros Hsjis Hodd. apply kanjiRun_out_of_range.
    apply ShiftJIS_odd_out_of_range; assumption.
  - intros k b1 b2 H1 H2 Hout. apply kanjiRun_out_of_range.
    apply Exists_exists. exists (byteValue b1, byteValue b2).
    split; [|exact Hout].
    eapply nth_error_In. apply kanjiPairs_nth; eassumption.
  - intros Hev Hall. apply kanjiRun_in_range.
    apply Forall_forall. intros p Hin.
    destruct (kanjiPairs_in bytes p Hev Hin) as (k & b1 & b2 & H1 & H2 & ->).
    eapply Hall; eassumption.
Qed.

(** The loop itself does not look at the parity of the length: a byte
    string that is not Shift_JIS, such as the lone lead byte 0x82, is read
    with a second byte [0] and accepted. *)
Lemma appendKanjiBytes_unpaired_byte (content : JS.JSString)
  (bits : BitArray.t) :
  StringEncoding_encode content (CharacterSetECI.getName SJIS)
  = Returned [x82] ->
  Encoder.appendKanjiBytes StringEncoding_encode SJIS content bits
  = (Returned tt, bits ++ BitArray.bitsOf 0xc0 13).
Proof.
  intros Henc. rewrite (appendKanjiBytes_run content bits [x82] Henc).
  reflexivity.
Qed.

End AppendKanjiBytes.

Lemma sample_kanji_in_range :
  forall k b1 b2,
    nth_error [x93; x5f; xe4; xaa] (2 * k) = Some b1 ->
    nth_error [x93; x5f; xe4; xaa] (2 * k + 1) = Some b2 ->
    inKanjiRange (kanjiCode (byteValue b1, byteValue b2)).
Proof.
  intros [|[|k]] b1 b2 H1 H2.
  - injection H1 as <-. injection H2 as <-.
    left. vm_compute. split; discriminate.
  - injection H1 as <-. injection H2 as <-.
    right. vm_compute. split; discriminate.
  - exfalso.
    assert (Hnone : nth_error [x93; x5f; xe4; xaa] (2 * S (S k)) = None)
      by (apply nth_error_None; simpl; lia).
    congruence.
Qed.

Lemma appendKanjiBytes_spec_witness :
  (exists bits',
     Encoder.appendKanjiBytes sampleEncode sampleSJIS [0x70b9; 0x41]%N []
     = (Thrown (WriterException "Invalid byte sequence"), bits'))
  /\ Encoder.appendKanjiBytes sampleEncode sampleSJIS [0x70b9; 0x8317]%N []
     = (Returned tt,
        [] ++ flat_map
                (fun p => BitArray.bitsOf (kanjiEncoded (kanjiCode p)) 13)
                (kanjiPairs [x93; x5f; xe4; xaa])).
Proof.
  split.
  - apply (proj1 (appendKanjiBytes_spec sampleEncode sampleSJIS
                    [0x70b9; 0x41]%N [] [x93; x5f; x41] eq_refl)).
    + apply ShiftJIS_double;
        [unfold isShiftJISLead, byteValue; simpl; lia|].
      apply ShiftJIS_single;
        [unfold isShiftJISLead, byteValue; simpl; lia|].
      apply ShiftJIS_nil.
    + exists 1%nat. reflexivity.
  - apply (proj2 (proj2 (appendKanjiBytes_spec sampleEncode sampleSJIS
                           [0x70b9; 0x8317]%N [] [x93; x5f; xe4; xaa]
                           eq_refl))).
    + exists 2%nat. reflexivity.
    + exact sample_kanji_in_range.
Defined.

(** The two Kanji of the example give 0x0D9F and 0x1AAA. *)
Example sample_kanji_bits :
  Encoder.appendKanjiBytes sampleEncode sampleSJIS [0x70b9; 0x8317]%N []
  = (Returned tt, BitArray.bitsOf 0xd9f 13 ++ BitArray.bitsOf 0x1aaa 13).
Proof. vm_compute. reflexivity. Qed.

(** ** Interleaving *)

Lemma appendBits_byte b bits :
  BitArray.appendBits (byteValue b) 8 bits
  = (Returned tt, bits ++ BitArray.bitsOf (byteValue b) 8).
Proof.
  pose proof (byteValue_range b).
  apply (appendBits_ok (byteValue b) 8 bits); [lia|].
  change (2 ^ 8) with 256. lia.
Qed.

Lemma bytesToBits_app l1 l2 :
  bytesToBits (l1 ++ l2) = bytesToBits l1 ++ bytesToBits l2.
Proof. unfold bytesToBits. apply flat_map_app. Qed.

(** One round of the outer placing loop: byte [i] of every block. *)
Lemma place_column (select : Encoder.BlockPair.t -> list byte) (i : nat)
  (blocks : list Encoder.BlockPair.t) :
  forall bits,
    forEach blocks
      (fun block =>
         let bytes := select block in
         if Z.of_nat i <? Z.of_nat (List.length bytes) then
           BitArray.appendBits (JS.byteAt bytes (Z.to_nat (Z.of_nat i))) 8
         else ret tt) bits
    = (Returned tt, bits ++ bytesToBits (column i (map select blocks))).
Proof.
  set (body := fun block : Encoder.BlockPair.t =>
                 let bytes := select block in
                 if Z.of_nat i <? Z.of_nat (List.length bytes) then
                   BitArray.appendBits
                     (JS.byteAt bytes (Z.to_nat (Z.of_nat i))) 8
                 else ret tt).
  induction blocks as [|block blocks IH]; intros bits.
  - simpl. unfold ret. rewrite app_nil_r. reflexivity.
  - cbn [forEach map]. unfold column. cbn [flat_map].
    fold (column i (map select blocks)).
    assert (Hbody : body block bits
                    = (Returned tt,
                       bits ++ bytesToBits
                                 match nth_error (select block) i with
                                 | Some x => [x]
                                 | None => []
                                 end)).
    { unfold body. cbv zeta. rewrite Nat2Z.id.
      destruct (nth_error (select block) i) as [b|] eqn:Hnth.
      - assert (Hlt : (i < List.length (select block))%nat)
          by (apply nth_error_Some; congruence).
        destruct (Z.ltb_spec (Z.of_nat i)
                    (Z.of_nat (List.length (select block)))); [|lia].
        rewrite (byteAt_some _ _ _ Hnth), appendBits_byte.
        unfold bytesToBits. cbn [flat_map]. rewrite app_nil_r. reflexivity.
      - apply nth_error_None in Hnth.
        destruct (Z.ltb_spec (Z.of_nat i)
                    (Z.of_nat (List.length (select block)))); [lia|].
        unfold ret, bytesToBits. cbn [flat_map]. rewrite app_nil_r.
        reflexivity. }
    erewrite bind_returned; [|exact Hbody].
    rewrite IH, bytesToBits_app, <- app_assoc. reflexivity.
Qed.

Lemma interleave_place_columns (select : Encoder.BlockPair.t -> list byte)
  (blocks : list Encoder.BlockPair.t) (n : nat) :
  forall (a : nat) bits,
    forEach (map Z.of_nat (seq a n))
      (fun i =>
         forEach blocks
           (fun block =>
              let bytes := select block in
              if i <? Z.of_nat (List.length bytes) then
                BitArray.appendBits (JS.byteAt bytes (Z.to_nat i)) 8
              else ret tt)) bits
    = (Returned tt,
       bits ++ bytesToBits
                 (flat_map (fun i => column i (map select blocks)) (seq a n))).
Proof.
  induction n as [|n IH]; intros a bits.
  - simpl. unfold ret. rewrite app_nil_r. reflexivity.
  - cbn [seq map forEach flat_map].
    erewrite bind_returned; [|apply place_column].
    rewrite IH, bytesToBits_app, <- app_assoc. reflexivity.
Qed.

Lemma interleave_place_spec maxNumBytes blocks select bits :
  Encoder.interleave_place maxNumBytes blocks select bits
  = (Returned tt,
     bits ++ bytesToBits
               (columnsUpTo (Z.to_nat maxNumBytes) (map select blocks))).
Proof.
  unfold Encoder.interleave_place, upTo, columnsUpTo.
  apply interleave_place_columns.
Qed.

(** Columns beyond the longest block are empty. *)
Lemma column_beyond {A} (blocks : list (list A)) i :
  (maxLength blocks <= i)%nat -> column i blocks = [].
Proof.
  induction blocks as [|block blocks IH]; intros Hi; [reflexivity|].
  cbn [maxLength fold_right] in Hi. fold (maxLength blocks) in Hi.
  unfold column. cbn [flat_map]. fold (column i blocks).
  rewrite (proj2 (nth_error_None block i)) by lia.
  rewrite IH by lia. reflexivity.
Qed.

Lemma flat_map_all_nil {A B} (f : A -> list B) (l : list A) :
  (forall x, In x l -> f x = []) -> flat_map f l = [].
Proof.
  induction l as [|x l IH]; intros Hnil; [reflexivity|].
  cbn [flat_map]. rewrite (Hnil x (or_introl eq_refl)).
  apply IH. intros y Hy. apply Hnil. right. exact Hy.
Qed.

Lemma columnsUpTo_interleave {A} (blocks : list (list A)) n :
  (maxLength blocks <= n)%nat -> columnsUpTo n blocks = interleave blocks.
Proof.
  intros Hn. unfold columnsUpTo, interleave.
  replace n with (maxLength blocks + (n - maxLength blocks))%nat by lia.
  rewrite seq_app, flat_map_app.
  rewrite <- app_nil_r. f_equal.
  apply flat_map_all_nil. intros i Hin. apply in_seq in Hin.
  apply column_beyond. lia.
Qed.

Lemma maxLength_snoc {A} (blocks : list (list A)) block :
  maxLength (blocks ++ [block])
  = Nat.max (maxLength blocks) (List.length block).
Proof.
  induction blocks as [|b blocks IH].
  - simpl. lia.
  - cbn [app maxLength fold_right]. fold (maxLength (blocks ++ [block])).
    fold (maxLength blocks). rewrite IH. lia.
Qed.

Lemma totalLength_snoc {A} (blocks : list (list A)) block :
  totalLength (blocks ++ [block])
  = (totalLength blocks + List.length block)%nat.
Proof.
  unfold totalLength. rewrite map_app, list_sum_app. simpl. lia.
Qed.

Lemma toBytes_length bits bitOffset numBytes :
  List.length (BitArray.toBytes bits bitOffset numBytes) = numBytes.
Proof. unfold BitArray.toBytes. rewrite length_map, length_seq. reflexivity. Qed.

Lemma seq_offset n m : seq n m = map (fun j => (n + j)%nat) (seq 0 m).
Proof.
  induction n as [|n IH].
  - simpl. symmetry. apply map_id.
  - rewrite <- seq_shift, IH, map_map. reflexivity.
Qed.

Lemma toBytes_app bits n m :
  BitArray.toBytes bits 0 n ++ BitArray.toBytes bits (8 * n) m
  = BitArray.toBytes bits 0 (n + m).
Proof.
  unfold BitArray.toBytes. rewrite seq_app, map_app. f_equal.
  cbn [Nat.add]. rewrite (seq_offset n m), map_map.
  apply map_ext. intros j. do 2 f_equal. lia.
Qed.

Lemma getNumDataBytesAndNumECBytesForBlockID_pure {St}
  numTotalBytes numDataBytes numRSBlocks blockID (s : St) :
  Encoder.getNumDataBytesAndNumECBytesForBlockID
    numTotalBytes numDataBytes numRSBlocks blockID s
  = (blockSizesOf numTotalBytes numDataBytes numRSBlocks blockID, s).
Proof.
  unfold blockSizesOf, Encoder.getNumDataBytesAndNumECBytesForBlockID.
  repeat match goal with
         | |- context [if ?c then _ else _] => destruct c
         end; reflexivity.
Qed.

Section Interleave.

Variable ReedSolomonEncoder_encode : list Z -> Z -> Outcome (list Z).

Lemma generateECBytes_pure {St} dataBytes numEcBytesInBlock (s : St) :
  Encoder.generateECBytes ReedSolomonEncoder_encode dataBytes
    numEcBytesInBlock s
  = (fst (Encoder.generateECBytes ReedSolomonEncoder_encode dataBytes
            numEcBytesInBlock tt), s).
Proof.
  unfold Encoder.generateECBytes, Encoder.checkArrayLength, Encoder.lift,
    bind, ret, throw.
  destruct (_ <? 0); [reflexivity|].
  destruct (ReedSolomonEncoder_encode _ _); [|reflexivity].
  destruct (_ <? 0); reflexivity.
Qed.

(** When [generateECBytes] returns, it returns [numEcBytesInBlock] bytes. *)
Lemma generateECBytes_length dataBytes numEcBytesInBlock ecBytes :
  fst (Encoder.generateECBytes ReedSolomonEncoder_encode dataBytes
         numEcBytesInBlock tt) = Returned ecBytes ->
  Z.of_nat (List.length ecBytes) = numEcBytesInBlock.
Proof.
  unfold Encoder.generateECBytes, Encoder.checkArrayLength, Encoder.lift,
    bind, ret, throw.
  destruct (_ <? 0); [discriminate|].
  destruct (ReedSolomonEncoder_encode _ _); [|discriminate].
  destruct (Z.ltb_spec numEcBytesInBlock 0); [discriminate|].
  cbn [fst]. intros [= <-]. rewrite length_map, length_seq. lia.
Qed.

Lemma interleave_divide_step bits numTotalBytes numDataBytes numRSBlocks
  (n : nat) vars vars' :
  dividedInto ReedSolomonEncoder_encode bits numTotalBytes numDataBytes
    numRSBlocks n vars ->
  Encoder.interleave_divide ReedSolomonEncoder_encode bits numTotalBytes
    numDataBytes numRSBlocks (Z.of_nat n) vars
  = (Returned tt, vars') ->
  dividedInto ReedSolomonEncoder_encode bits numTotalBytes numDataBytes
    numRSBlocks (S n) vars'.
Proof.
  intros (Hlen & Hmaxd & Hmaxe & Hoff & Hcat & Hblocks) Hrun.
  unfold Encoder.interleave_divide in Hrun.
  unfold bind at 1 in Hrun.
  rewrite getNumDataBytesAndNumECBytesForBlockID_pure in Hrun.
  destruct (blockSizesOf numTotalBytes numDataBytes numRSBlocks (Z.of_nat n))
    as [[numData numEc]|e] eqn:Hsizes; [|discriminate].
  cbn [fst snd] in Hrun.
  unfold bind at 1, Encoder.checkArrayLength in Hrun.
  destruct (Z.ltb_spec numData 0) as [|Hpos]; [discriminate|].
  unfold ret at 1 in Hrun.
  unfold bind at 1 in Hrun. rewrite generateECBytes_pure in Hrun.
  set (dataBytes :=
         BitArray.toBytes bits (Z.to_nat (8 * Encoder.dataBytesOffset vars))
           (Z.to_nat numData)) in *.
  destruct (fst (Encoder.generateECBytes ReedSolomonEncoder_encode dataBytes
                   numEc tt)) as [ecBytes|e] eqn:Hec; [|discriminate].
  injection Hrun as <-.
  pose proof (generateECBytes_length _ _ _ Hec) as Heclen.
  assert (Hdlen : List.length dataBytes = Z.to_nat numData)
    by apply toBytes_length.
  unfold dividedInto. cbn [Encoder.blocks Encoder.maxNumDataBytes
                             Encoder.maxNumEcBytes Encoder.dataBytesOffset].
  rewrite !map_app. cbn [map Encoder.BlockPair.getDataBytes
                           Encoder.BlockPair.getErrorCorrectionBytes].
  rewrite !maxLength_snoc, !totalLength_snoc, List.concat_app.
  cbn [List.concat]. rewrite app_nil_r.
  repeat split.
  - rewrite length_app. simpl. lia.
  - rewrite Hmaxd. lia.
  - rewrite Hmaxe. lia.
  - rewrite Hoff. lia.
  - rewrite Hcat, Hdlen, <- toBytes_app. f_equal. unfold dataBytes.
    f_equal. rewrite Hoff. lia.
  - intros j block Hnth.
    destruct (Nat.lt_ge_cases j (List.length (Encoder.blocks vars)))
      as [Hj|Hj].
    + rewrite nth_error_app1 in Hnth by exact Hj.
      apply Hblocks. exact Hnth.
    + rewrite nth_error_app2 in Hnth by exact Hj.
      destruct (j - List.length (Encoder.blocks vars))%nat as [|k] eqn:Hk;
        [|destruct k; discriminate].
      injection Hnth as <-.
      assert (j = n) by lia. subst j.
      exists numData, numEc.
      cbn [Encoder.BlockPair.getDataBytes
             Encoder.BlockPair.getErrorCorrectionBytes].
      repeat split; [exact Hsizes|lia|exact Heclen|exact Hec].
Qed.

Lemma interleave_divide_loop bits numTotalBytes numDataBytes numRSBlocks
  (k : nat) :
  forall (n : nat) vars vars',
    dividedInto ReedSolomonEncoder_encode bits numTotalBytes numDataBytes
      numRSBlocks n vars ->
    forEach (map Z.of_nat (seq n k))
      (Encoder.interleave_divide ReedSolomonEncoder_encode bits numTotalBytes
         numDataBytes numRSBlocks) vars
    = (Returned tt, vars') ->
    dividedInto ReedSolomonEncoder_encode bits numTotalBytes numDataBytes
      numRSBlocks (n + k) vars'.
Proof.
  induction k as [|k IH]; intros n vars vars' Hinv Hrun.
  - cbn [seq map forEach] in Hrun. injection Hrun as <-.
    rewrite Nat.add_0_r. exact Hinv.
  - cbn [seq map forEach] in Hrun. unfold bind in Hrun.
    destruct (Encoder.interleave_divide ReedSolomonEncoder_encode bits
                numTotalBytes numDataBytes numRSBlocks (Z.of_nat n) vars)
      as [[[]|e] vars1] eqn:Hstep; [|discriminate].
    replace (n + S k)%nat with (S n + k)%nat by lia.
    eapply IH; [|exact Hrun].
    eapply interleave_divide_step; eassumption.
Qed.

End Interleave.

Lemma list_sum_map_add {A} (f g : A -> nat) (l : list A) :
  list_sum (map (fun x => (f x + g x)%nat) l)
  = (list_sum (map f l) + list_sum (map g l))%nat.
Proof.
  induction l as [|x l IH]; [reflexivity|].
  simpl. simpl in IH. rewrite IH. lia.
Qed.

Lemma count_present {A} (block : list A) n :
  list_sum
    (map (fun i =>
            List.length match nth_error block i with
                        | Some x => [x]
                        | None => []
                        end) (seq 0 n))
  = Nat.min n (List.length block).
Proof.
  induction n as [|n IH]; [reflexivity|].
  rewrite seq_S, map_app, list_sum_app, IH. cbn [Nat.add map list_sum].
  destruct (nth_error block n) eqn:Hnth.
  - assert (n < List.length block)%nat by (apply nth_error_Some; congruence).
    change (list_sum [List.length [a]]) with 1%nat. lia.
  - apply nth_error_None in Hnth.
    change (list_sum [List.length (@nil A)]) with 0%nat. lia.
Qed.

Lemma columnsUpTo_length {A} (blocks : list (list A)) n :
  (maxLength blocks <= n)%nat ->
  List.length (columnsUpTo n blocks) = totalLength blocks.
Proof.
  induction blocks as [|block blocks IH]; intros Hn.
  - unfold columnsUpTo, column, totalLength. cbn [flat_map map list_sum].
    rewrite flat_map_all_nil; reflexivity.
  - cbn [maxLength fold_right] in Hn. fold (maxLength blocks) in Hn.
    unfold columnsUpTo, column. cbn [flat_map].
    rewrite length_flat_map.
    rewrite (map_ext _
               (fun i =>
                  (List.length match nth_error block i with
                               | Some x => [x]
                               | None => []
                               end
                   + List.length (column i blocks))%nat))
      by (intros i; rewrite length_app; reflexivity).
    rewrite list_sum_map_add, count_present.
    rewrite <- length_flat_map. fold (columnsUpTo n blocks).
    rewrite IH by lia.
    change (totalLength (block :: blocks))
      with (List.length block + totalLength blocks)%nat.
    lia.
Qed.

Lemma interleave_length {A} (blocks : list (list A)) :
  List.length (interleave blocks) = totalLength blocks.
Proof.
  rewrite <- (columnsUpTo_interleave blocks (maxLength blocks)) by lia.
  apply columnsUpTo_length. lia.
Qed.

Lemma bytesToBits_size bytes :
  BitArray.getSize (bytesToBits bytes) = 8 * Z.of_nat (List.length bytes).
Proof.
  unfold BitArray.getSize, bytesToBits.
  induction bytes as [|b bytes IH]; [reflexivity|].
  cbn [flat_map]. rewrite length_app, bitsOf_length. cbn [List.length]. lia.
Qed.

Lemma bytesToBits_sizeInBytes bytes :
  BitArray.getSizeInBytes (bytesToBits bytes) = Z.of_nat (List.length bytes).
Proof.
  unfold BitArray.getSizeInBytes. rewrite bytesToBits_size.
  symmetry. apply Z.div_unique with (r := 7); lia.
Qed.

(** A sum over a list, element by element against a function of the
    index. *)
Lemma totalLength_by_index {A} (f : Z -> Z) (blocks : list (list A)) :
  (forall j block,
     nth_error blocks j = Some block ->
     Z.of_nat (List.length block) = f (Z.of_nat j)) ->
  Z.of_nat (totalLength blocks)
  = sumZ (map f (upTo (Z.of_nat (List.length blocks)))).
Proof.
  induction blocks as [|block blocks IH] using rev_ind; intros Hf.
  - reflexivity.
  - rewrite totalLength_snoc, length_app. cbn [List.length].
    replace (Z.of_nat (List.length blocks + 1))
      with (Z.of_nat (List.length blocks) + 1) by lia.
    rewrite upTo_succ by lia. rewrite map_app, sumZ_app.
    cbn [map sumZ fold_right].
    rewrite Nat2Z.inj_add, IH.
    + rewrite (Hf (List.length blocks) block); [lia|].
      rewrite nth_error_app2 by lia. rewrite Nat.sub_diag. reflexivity.
    + intros j b Hnth. apply Hf.
      rewrite nth_error_app1; [exact Hnth|].
      apply nth_error_Some. congruence.
Qed.

Lemma nth_error_map_some {A B} (f : A -> B) (l : list A) j y :
  nth_error (map f l) j = Some y ->
  exists x, nth_error l j = Some x /\ f x = y.
Proof.
  rewrite nth_error_map. destruct (nth_error l j) as [x|]; simpl;
    [|discriminate].
  intros [= <-]. exists x. split; reflexivity.
Qed.

Section InterleaveWithECBytes.

Variable ReedSolomonEncoder_encode : list Z -> Z -> Outcome (list Z).

Lemma dividedInto_start bits numTotalBytes numDataBytes numRSBlocks :
  dividedInto ReedSolomonEncoder_encode bits numTotalBytes numDataBytes
    numRSBlocks 0 (Encoder.mkInterleaveVars 0 0 0 []).
Proof.
  unfold dividedInto. cbn. repeat split.
  intros j block Hnth. destruct j; discriminate.
Qed.

(** What a normal return of [interleaveWithECBytes] tells. *)
Lemma interleaveWithECBytes_returned {St} (s s' : St) bits
  numTotalBytes numDataBytes numRSBlocks result :
  Encoder.interleaveWithECBytes ReedSolomonEncoder_encode bits numTotalBytes
    numDataBytes numRSBlocks s = (Returned result, s') ->
  BitArray.getSizeInBytes bits = numDataBytes
  /\ exists vars,
       dividedInto ReedSolomonEncoder_encode bits numTotalBytes numDataBytes
         numRSBlocks (Z.to_nat numRSBlocks) vars
       /\ Encoder.dataBytesOffset vars = numDataBytes
       /\ result
          = bytesToBits
              (interleave
                 (map Encoder.BlockPair.getDataBytes (Encoder.blocks vars))
               ++ interleave
                    (map Encoder.BlockPair.getErrorCorrectionBytes
                       (Encoder.blocks vars)))
       /\ BitArray.getSizeInBytes result = numTotalBytes.
Proof.
  unfold Encoder.interleaveWithECBytes.
  destruct (Z.eqb_spec (BitArray.getSizeInBytes bits) numDataBytes)
    as [Hsize|]; [|discriminate].
  cbn [negb].
  destruct (forEach (upTo numRSBlocks) _ _) as [[[]|e] vars] eqn:Hloop;
    [|discriminate].
  destruct (Z.eqb_spec numDataBytes (Encoder.dataBytesOffset vars))
    as [Hoff|]; [|discriminate].
  cbn [negb].
  assert (Hinv : dividedInto ReedSolomonEncoder_encode bits numTotalBytes
                   numDataBytes numRSBlocks (Z.to_nat numRSBlocks) vars).
  { apply (interleave_divide_loop ReedSolomonEncoder_encode bits numTotalBytes
             numDataBytes numRSBlocks (Z.to_nat numRSBlocks) 0 _ vars
             (dividedInto_start _ _ _ _)).
    exact Hloop. }
  destruct Hinv as (Hlen & Hmaxd & Hmaxe & Hrest).
  erewrite bind_returned; [|apply interleave_place_spec].
  rewrite interleave_place_spec.
  rewrite Hmaxd, Hmaxe, !Nat2Z.id.
  rewrite !columnsUpTo_interleave by lia.
  unfold BitArray.empty. rewrite app_nil_l, <- bytesToBits_app.
  destruct (Z.eqb_spec numTotalBytes
              (BitArray.getSizeInBytes
                 (bytesToBits
                    (interleave
                       (map Encoder.BlockPair.getDataBytes
                          (Encoder.blocks vars))
                     ++ interleave
                          (map Encoder.BlockPair.getErrorCorrectionBytes
                             (Encoder.blocks vars))))))
    as [Htotal|]; [|discriminate].
  cbn [negb]. intros [= <- <-].
  split; [exact Hsize|]. exists vars.
  split; [exact (conj Hlen (conj Hmaxd (conj Hmaxe Hrest)))|].
  split; [symmetry; exact Hoff|]. split; [reflexivity|].
  symmetry. exact Htotal.
Qed.

(** The collaborator returns when there is at least one error correction
    byte and at least one data byte. *)
Hypothesis ReedSolomonEncoder_returns :
  forall toEncode ecBytes,
    0 < ecBytes -> ecBytes < Z.of_nat (List.length toEncode) ->
    exists encoded, ReedSolomonEncoder_encode toEncode ecBytes = Returned encoded.

Lemma interleave_divide_returns bits numTotalBytes numDataBytes numRSBlocks :
  0 <= numTotalBytes < 2 ^ 31 -> 0 <= numDataBytes < 2 ^ 31 ->
  0 < numRSBlocks <= numDataBytes ->
  numDataBytes + numRSBlocks <= numTotalBytes ->
  forall (k n : nat) vars,
    Z.of_nat (n + k) <= numRSBlocks ->
    exists vars',
      forEach (map Z.of_nat (seq n k))
        (Encoder.interleave_divide ReedSolomonEncoder_encode bits
           numTotalBytes numDataBytes numRSBlocks) vars
      = (Returned tt, vars').
Proof.
  intros HT HD HB HDT.
  assert (Hd1 : 1 <= numDataBytes / numRSBlocks).
  { apply Z.div_le_lower_bound; lia. }
  assert (Hec : 1 <= numTotalBytes / numRSBlocks - numDataBytes / numRSBlocks).
  { assert (numDataBytes / numRSBlocks + 1 <= numTotalBytes / numRSBlocks);
      [|lia].
    replace (numDataBytes / numRSBlocks + 1)
      with ((numDataBytes + 1 * numRSBlocks) / numRSBlocks)
      by (rewrite Z.div_add by lia; reflexivity).
    apply Z.div_le_mono; lia. }
  induction k as [|k IH]; intros n vars Hn.
  - eexists. reflexivity.
  - cbn [seq map forEach].
    assert (Hstep : exists vars1,
               Encoder.interleave_divide ReedSolomonEncoder_encode bits
                 numTotalBytes numDataBytes numRSBlocks (Z.of_nat n) vars
               = (Returned tt, vars1)).
    { unfold Encoder.interleave_divide. unfold bind at 1.
      rewrite getNumDataBytesAndNumECBytesForBlockID_returns by lia.
      cbn [fst snd].
      set (size := if Z.of_nat n <? numRSBlocks - numTotalBytes mod numRSBlocks
                   then numDataBytes / numRSBlocks
                   else numDataBytes / numRSBlocks + 1).
      assert (Hsize : 1 <= size) by (unfold size; destruct (_ <? _); lia).
      unfold bind at 1, Encoder.checkArrayLength.
      destruct (Z.ltb_spec size 0); [lia|]. unfold ret at 1.
      unfold bind at 1.
      set (dataBytes := BitArray.toBytes bits _ (Z.to_nat size)).
      assert (Hdlen : List.length dataBytes = Z.to_nat size)
        by apply toBytes_length.
      unfold Encoder.generateECBytes at 1.
      unfold bind at 1, Encoder.checkArrayLength.
      destruct (Z.ltb_spec (Z.of_nat (List.length dataBytes)
                            + (numTotalBytes / numRSBlocks
                               - numDataBytes / numRSBlocks)) 0); [lia|].
      unfold ret at 1. unfold bind at 1, Encoder.lift.
      destruct (ReedSolomonEncoder_returns
                  (map (fun i => JS.land (JS.byteAt dataBytes i) 0xff)
                       (seq 0 (List.length dataBytes))
                   ++ repeat 0
                        (Z.to_nat (numTotalBytes / numRSBlocks
                                   - numDataBytes / numRSBlocks)))
                  (numTotalBytes / numRSBlocks - numDataBytes / numRSBlocks))
        as [encoded Hencoded].
      - lia.
      - rewrite length_app, length_map, length_seq, repeat_length. lia.
      - rewrite Hencoded. unfold bind at 1.
        destruct (Z.ltb_spec (numTotalBytes / numRSBlocks
                              - numDataBytes / numRSBlocks) 0); [lia|].
        unfold ret at 1 2. eexists. reflexivity. }
    destruct Hstep as [vars1 Hstep].
    erewrite bind_returned; [|exact Hstep].
    apply IH. lia.
Qed.

Lemma interleaveWithECBytes_returns {St} (s : St) bits
  numTotalBytes numDataBytes numRSBlocks :
  BitArray.getSizeInBytes bits = numDataBytes ->
  0 < numRSBlocks <= numDataBytes ->
  numDataBytes + numRSBlocks <= numTotalBytes < 2 ^ 31 ->
  numDataBytes mod numRSBlocks = numTotalBytes mod numRSBlocks ->
  exists result,
    Encoder.interleaveWithECBytes ReedSolomonEncoder_encode bits
      numTotalBytes numDataBytes numRSBlocks s = (Returned result, s).
Proof.
  intros Hsize HB HT Hmod.
  destruct (interleave_divide_returns bits numTotalBytes numDataBytes
              numRSBlocks ltac:(lia) ltac:(lia) HB ltac:(lia)
              (Z.to_nat numRSBlocks) 0%nat
              (Encoder.mkInterleaveVars 0 0 0 []) ltac:(lia))
    as [vars Hloop].
  pose proof (interleave_divide_loop ReedSolomonEncoder_encode bits
                numTotalBytes numDataBytes numRSBlocks (Z.to_nat numRSBlocks)
                0 _ vars (dividedInto_start _ _ _ _) Hloop) as Hinv.
  destruct Hinv as (Hlen & Hmaxd & Hmaxe & Hoff & _ & Hblocks).
  cbn [Nat.add] in Hlen.
  (* the sizes of the blocks, by index *)
  pose proof (Z.mod_pos_bound numTotalBytes numRSBlocks ltac:(lia)) as Hg2.
  pose proof (Z.div_mod numTotalBytes numRSBlocks ltac:(lia)) as HTdm.
  pose proof (Z.div_mod numDataBytes numRSBlocks ltac:(lia)) as HDdm.
  assert (Hsizes : forall j block,
            nth_error (Encoder.blocks vars) j = Some block ->
            Z.of_nat (List.length (Encoder.BlockPair.getDataBytes block))
            = (if Z.of_nat j <? numRSBlocks - numTotalBytes mod numRSBlocks
               then numDataBytes / numRSBlocks
               else numDataBytes / numRSBlocks + 1)
            /\ Z.of_nat
                 (List.length (Encoder.BlockPair.getErrorCorrectionBytes block))
               = numTotalBytes / numRSBlocks - numDataBytes / numRSBlocks).
  { intros j block Hnth.
    assert (Hj : (j < List.length (Encoder.blocks vars))%nat)
      by (apply nth_error_Some; congruence).
    destruct (Hblocks j block Hnth) as (nd & ne & Hs & Hd & He & _).
    unfold blockSizesOf in Hs.
    rewrite getNumDataBytesAndNumECBytesForBlockID_returns in Hs by lia.
    cbn [fst] in Hs. injection Hs as <- <-. split; assumption. }
  assert (Hdata : Z.of_nat
                    (totalLength
                       (map Encoder.BlockPair.getDataBytes
                          (Encoder.blocks vars))) = numDataBytes).
  { rewrite (totalLength_by_index
               (fun j => if j <? numRSBlocks - numTotalBytes mod numRSBlocks
                         then numDataBytes / numRSBlocks
                         else numDataBytes / numRSBlocks + 1)).
    - rewrite length_map, Hlen, sumZ_two_groups by lia.
      rewrite Z2Nat.id by lia. rewrite Z.min_r, Z.max_r by lia. nia.
    - intros j block Hnth. apply nth_error_map_some in Hnth.
      destruct Hnth as (pair & Hnth & <-). apply (Hsizes j pair Hnth). }
  assert (Hecs : Z.of_nat
                   (totalLength
                      (map Encoder.BlockPair.getErrorCorrectionBytes
                         (Encoder.blocks vars)))
                 = numTotalBytes - numDataBytes).
  { rewrite (totalLength_by_index
               (fun j => if j <? numRSBlocks
                         then numTotalBytes / numRSBlocks
                              - numDataBytes / numRSBlocks
                         else 0)).
    - rewrite length_map, Hlen, sumZ_two_groups by lia.
      rewrite Z2Nat.id by lia. rewrite Z.min_r, Z.max_r by lia. nia.
    - intros j block Hnth.
      assert (Hj : (j < List.length (map
                       Encoder.BlockPair.getErrorCorrectionBytes
                       (Encoder.blocks vars)))%nat)
        by (apply nth_error_Some; congruence).
      rewrite length_map, Hlen in Hj.
      apply nth_error_map_some in Hnth.
      destruct Hnth as (pair & Hnth & <-).
      destruct (Z.ltb_spec (Z.of_nat j) numRSBlocks); [|lia].
      apply (Hsizes j pair Hnth). }
  unfold Encoder.interleaveWithECBytes.
  rewrite (proj2 (Z.eqb_eq _ _) Hsize). cbn [negb].
  unfold upTo. rewrite Hloop.
  rewrite (proj2 (Z.eqb_eq numDataBytes (Encoder.dataBytesOffset vars)))
    by lia.
  cbn [negb].
  erewrite bind_returned; [|apply interleave_place_spec].
  rewrite interleave_place_spec.
  rewrite Hmaxd, Hmaxe, !Nat2Z.id.
  rewrite !columnsUpTo_interleave by lia.
  unfold BitArray.empty. rewrite app_nil_l, <- bytesToBits_app.
  rewrite bytesToBits_sizeInBytes, length_app, !interleave_length.
  rewrite (proj2 (Z.eqb_eq numTotalBytes _)) by lia.
  cbn [negb]. eexists. reflexivity.
Qed.

End InterleaveWithECBytes.

(** C6. [interleaveWithECBytes] throws when the bit array does not hold
    [numDataBytes] bytes.  When it returns, the data bytes of the bit array
    have been cut, in order, into [numRSBlocks] blocks of the sizes given by
    [getNumDataBytesAndNumECBytesForBlockID], each with its error
    correction bytes, and the result is, for each index in order, the data
    byte at that index of every block that has one, followed in the same
    way by the error correction bytes; it holds exactly [numTotalBytes]
    bytes.  It does return for the counts of a version (each block has
    data and error correction bytes, and the two totals leave the same
    remainder) whenever the Reed-Solomon encoder does.  A result whose
    length differs from [numTotalBytes] is refused. *)
Theorem interleaveWithECBytes_spec
  (ReedSolomonEncoder_encode : list Z -> Z -> Outcome (list Z))
  (St : Type) (s : St) (bits : BitArray.t)
  (numTotalBytes numDataBytes numRSBlocks : Z) :
  (BitArray.getSizeInBytes bits <> numDataBytes ->
   Encoder.interleaveWithECBytes ReedSolomonEncoder_encode bits numTotalBytes
     numDataBytes numRSBlocks s
   = (Thrown (WriterException "Number of bits and data bytes does not match"),
      s))
  /\ (forall result s',
        Encoder.interleaveWithECBytes ReedSolomonEncoder_encode bits
          numTotalBytes numDataBytes numRSBlocks s = (Returned result, s') ->
        exists blocks,
          List.length blocks = Z.to_nat numRSBlocks
          /\ List.concat (map Encoder.BlockPair.getDataBytes blocks)
             = BitArray.toBytes bits 0 (Z.to_nat numDataBytes)
          /\ (forall j block,
                nth_error blocks j = Some block ->
                exists numDataBytesInBlock numEcBytesInBlock,
                  blockSizesOf numTotalBytes numDataBytes numRSBlocks
                    (Z.of_nat j)
                  = Returned (numDataBytesInBlock, numEcBytesInBlock)
                  /\ Z.of_nat
                       (List.length (Encoder.BlockPair.getDataBytes block))
                     = numDataBytesInBlock
                  /\ Z.of_nat
                       (List.length
                          (Encoder.BlockPair.getErrorCorrectionBytes block))
                     = numEcBytesInBlock
                  /\ fst (Encoder.generateECBytes ReedSolomonEncoder_encode
                            (Encoder.BlockPair.getDataBytes block)
                            numEcBytesInBlock tt)
                     = Returned
                         (Encoder.BlockPair.getErrorCorrectionBytes block))
          /\ result
             = bytesToBits
                 (interleave (map Encoder.BlockPair.getDataBytes blocks)
                  ++ interleave
                       (map Encoder.BlockPair.getErrorCorrectionBytes blocks))
          /\ BitArray.getSizeInBytes result = numTotalBytes
          /\ BitArray.getSize result = 8 * numTotalBytes)
  /\ ((forall toEncode ecBytes,
         0 < ecBytes -> ecBytes < Z.of_nat (List.length toEncode) ->
         exists encoded,
           ReedSolomonEncoder_encode toEncode ecBytes = Returned encoded) ->
      BitArray.getSizeInBytes bits = numDataBytes ->
      0 < numRSBlocks <= numDataBytes ->
      numDataBytes + numRSBlocks <= numTotalBytes < 2 ^ 31 ->
      numDataBytes mod numRSBlocks = numTotalBytes mod numRSBlocks ->
      exists result,
        Encoder.interleaveWithECBytes ReedSolomonEncoder_encode bits
          numTotalBytes numDataBytes numRSBlocks s = (Returned result, s))
  /\ (numTotalBytes <> 0 ->
      Encoder.interleaveWithECBytes ReedSolomonEncoder_encode [] numTotalBytes
        0 0 s
      = (Thrown (WriterException "Interleaving error"), s)).
Proof.
  split; [|split; [|split]].
  - intros Hsize. unfold Encoder.interleaveWithECBytes.
    destruct (Z.eqb_spec (BitArray.getSizeInBytes bits) numDataBytes);
      [contradiction|reflexivity].
  - intros result s' Hrun.
    destruct (interleaveWithECBytes_returned ReedSolomonEncoder_encode
                s s' bits numTotalBytes numDataBytes numRSBlocks result Hrun)
      as (_ & vars & Hinv & Hoff & Hresult & Htotal).
    destruct Hinv as (Hlen & _ & _ & Hoffset & Hcat & Hblocks).
    exists (Encoder.blocks vars).
    split; [exact Hlen|]. split.
    { rewrite Hcat. f_equal. lia. }
    split; [exact Hblocks|]. split; [exact Hresult|].
    split; [exact Htotal|].
    rewrite Hresult in Htotal |- *.
    rewrite bytesToBits_sizeInBytes in Htotal.
    rewrite bytesToBits_size, Htotal. reflexivity.
  - intros Hrs Hsize HB HT Hmod.
    apply interleaveWithECBytes_returns; assumption.
  - intros HT. unfold Encoder.interleaveWithECBytes. cbn.
    destruct (Z.eqb_spec numTotalBytes 0); [contradiction|reflexivity].
Qed.

Lemma sampleReedSolomon_returns toEncode ecBytes :
  0 < ecBytes -> ecBytes < Z.of_nat (List.length toEncode) ->
  exists encoded, sampleReedSolomon toEncode ecBytes = Returned encoded.
Proof.
  intros H1 H2. unfold sampleReedSolomon.
  destruct (Z.leb_spec ecBytes 0); [lia|].
  destruct (Z.leb_spec (Z.of_nat (List.length toEncode)) ecBytes); [lia|].
  eexists. reflexivity.
Qed.

Lemma interleaveWithECBytes_spec_witness :
  (exists result,
     Encoder.interleaveWithECBytes sampleReedSolomon
       (bytesToBits [x01; x02; x03; x04; x05]) 9 5 2 tt
     = (Returned result, tt))
  /\ Encoder.interleaveWithECBytes sampleReedSolomon [true] 9 5 2 tt
     = (Thrown
          (WriterException "Number of bits and data bytes does not match"),
        tt)
  /\ Encoder.interleaveWithECBytes sampleReedSolomon [] 9 0 0 tt
     = (Thrown (WriterException "Interleaving error"), tt).
Proof.
  split; [|split].
  - apply (proj1 (proj2 (proj2
             (interleaveWithECBytes_spec sampleReedSolomon unit tt
                (bytesToBits [x01; x02; x03; x04; x05]) 9 5 2)))).
    + exact sampleReedSolomon_returns.
    + reflexivity.
    + lia.
    + lia.
    + reflexivity.
  - apply (proj1 (interleaveWithECBytes_spec sampleReedSolomon unit tt
                    [true] 9 5 2)).
    vm_compute. discriminate.
  - apply (proj2 (proj2 (proj2
             (interleaveWithECBytes_spec sampleReedSolomon unit tt
                [] 9 0 0)))).
    lia.
Defined.

(** The interleaved codewords of the example: data 1, 3, 2, 4, 5 (the
    second block has one byte more), then the error correction bytes. *)
Example sample_interleaving :
  Encoder.interleaveWithECBytes sampleReedSolomon
    (bytesToBits [x01; x02; x03; x04; x05]) 9 5 2 tt
  = (Returned (bytesToBits [x01; x03; x02; x04; x05; x00; x00; x00; x00]),
     tt).
Proof. vm_compute. reflexivity. Qed.

(* ===================================================================== *)
(** * Further properties of the encoder *)
(* ===================================================================== *)

(** ** The alphanumeric table and segments *)

Lemma ALPHANUMERIC_TABLE_range :
  forallb
    (fun c =>
       let code := Encoder.getAlphanumericCode c in
       (code =? -1) || ((0 <=? code) && (code <=? 44)))
    (map N.of_nat (seq 0 96))
  = true.
Proof. vm_compute. reflexivity. Qed.

Lemma getAlphanumericCode_beyond c :
  (96 <= c)%N -> Encoder.getAlphanumericCode c = -1.
Proof.
  intros Hc. unfold Encoder.getAlphanumericCode.
  change (Z.of_nat (List.length Encoder.ALPHANUMERIC_TABLE)) with 96.
  destruct (Z.ltb_spec (Z.of_N c) 96); [lia|reflexivity].
Qed.

Lemma below_96_listed c :
  (c < 96)%N -> In c (map N.of_nat (seq 0 96)).
Proof.
  intros Hc. apply in_map_iff. exists (N.to_nat c). split; [lia|].
  apply in_seq. lia.
Qed.

Lemma getAlphanumericCode_range c :
  Encoder.getAlphanumericCode c = -1
  \/ 0 <= Encoder.getAlphanumericCode c <= 44.
Proof.
  destruct (N.ltb_spec c 96) as [Hlt|Hge].
  - pose proof ALPHANUMERIC_TABLE_range as Htab.
    rewrite forallb_forall in Htab.
    specialize (Htab c (below_96_listed c Hlt)). cbv zeta in Htab.
    apply orb_true_iff in Htab. destruct Htab as [H|H].
    + left. apply Z.eqb_eq. exact H.
    + right. apply andb_true_iff in H. lia.
  - left. apply getAlphanumericCode_beyond. exact Hge.
Qed.

Lemma getAlphanumericCode_in_set c :
  In c alphanumericSet -> 0 <= Encoder.getAlphanumericCode c <= 44.
Proof.
  intros Hin. apply inAlphanumericSetb_iff in Hin.
  rewrite <- getAlphanumericCode_set in Hin.
  destruct (getAlphanumericCode_range c) as [Hm|Hr]; [|exact Hr].
  rewrite Hm in Hin. discriminate.
Qed.

Lemma getAlphanumericCode_not_in_set c :
  ~ In c alphanumericSet -> Encoder.getAlphanumericCode c = -1.
Proof.
  intros Hout.
  destruct (Z.eqb_spec (Encoder.getAlphanumericCode c) (-1)) as [H|H];
    [exact H|].
  exfalso. apply Hout. apply inAlphanumericSetb_iff.
  rewrite <- getAlphanumericCode_set.
  apply negb_true_iff. apply Z.eqb_neq. exact H.
Qed.

(** The code of a listed character is its position in the list. *)
Lemma ALPHANUMERIC_TABLE_positions :
  map Encoder.getAlphanumericCode alphanumericSet = upTo 45.
Proof. vm_compute. reflexivity. Qed.

(** X1. [getAlphanumericCode] gives a code in 0..44 to each of the 45
    characters, a different one to each: the character is the one at that
    position of "0123456789ABCDEFGHIJKLMNOPQRSTUVWXYZ $%*+-./:"; every
    other code unit gets -1. *)
Theorem getAlphanumericCode_table (c : N) :
  (In c alphanumericSet ->
   0 <= Encoder.getAlphanumericCode c <= 44
   /\ nth_error alphanumericSet (Z.to_nat (Encoder.getAlphanumericCode c))
      = Some c)
  /\ (~ In c alphanumericSet -> Encoder.getAlphanumericCode c = -1)
  /\ (forall c',
        In c alphanumericSet -> In c' alphanumericSet ->
        Encoder.getAlphanumericCode c = Encoder.getAlphanumericCode c' ->
        c = c').
Proof.
  assert (Hpos : forall x, In x alphanumericSet ->
            nth_error alphanumericSet
              (Z.to_nat (Encoder.getAlphanumericCode x)) = Some x).
  { intros x Hin. apply In_nth_error in Hin. destruct Hin as [i Hi].
    assert (Hlt : (i < 45)%nat).
    { change 45%nat with (List.length alphanumericSet).
      apply nth_error_Some. congruence. }
    assert (Hcode : nth_error (map Encoder.getAlphanumericCode alphanumericSet)
                      i = Some (Encoder.getAlphanumericCode x))
      by (rewrite nth_error_map, Hi; reflexivity).
    rewrite ALPHANUMERIC_TABLE_positions in Hcode. unfold upTo in Hcode.
    rewrite nth_error_map in Hcode.
    rewrite (nth_error_nth' _ 0%nat) in Hcode
      by (rewrite length_seq; change (Z.to_nat 45) with 45%nat; lia).
    rewrite seq_nth in Hcode by (change (Z.to_nat 45) with 45%nat; lia).
    cbn [option_map Nat.add] in Hcode. injection Hcode as Hcode.
    rewrite <- Hcode, Nat2Z.id. exact Hi. }
  split; [|split].
  - intros Hin. split; [apply getAlphanumericCode_in_set; exact Hin|].
    apply Hpos. exact Hin.
  - apply getAlphanumericCode_not_in_set.
  - intros c' Hin Hin' Heq.
    pose proof (Hpos c Hin) as H1. pose proof (Hpos c' Hin') as H2.
    rewrite Heq in H1. congruence.
Qed.

Lemma getAlphanumericCode_table_witness :
  0 <= Encoder.getAlphanumericCode 65 <= 44
  /\ nth_error alphanumericSet (Z.to_nat (Encoder.getAlphanumericCode 65))
     = Some 65%N.
Proof.
  apply (proj1 (getAlphanumericCode_table 65)).
  apply inAlphanumericSetb_iff. reflexivity.
Defined.

Lemma charCodeAt_app_offset (pre suf : JS.JSString) k c :
  nth_error suf k = Some c ->
  JS.charCodeAt (pre ++ suf) (List.length pre + k) = c.
Proof.
  intros H. unfold JS.charCodeAt.
  apply nth_error_nth. rewrite nth_error_app_offset. exact H.
Qed.

Lemma charCodeAt_app_head (pre : JS.JSString) c suf :
  JS.charCodeAt (pre ++ c :: suf) (List.length pre) = c.
Proof.
  rewrite <- (Nat.add_0_r (List.length pre)).
  apply charCodeAt_app_offset. reflexivity.
Qed.

Lemma alphanumericSegment_length content :
  Forall (fun c => In c alphanumericSet) content ->
  Z.of_nat (List.length (alphanumericSegment content))
  = 11 * (Z.of_nat (List.length content) / 2)
    + 6 * (Z.of_nat (List.length content) mod 2).
Proof.
  intros _. induction content as [|a|a b rest IH] using list_ind2;
    try reflexivity.
  unfold alphanumericSegment in *. cbn [chunks2 flat_map alphanumericGroup].
  rewrite length_app, bitsOf_length, Nat2Z.inj_add, IH.
  cbn [List.length].
  replace (Z.of_nat (S (S (List.length rest))))
    with (Z.of_nat (List.length rest) + 1 * 2) by lia.
  rewrite Z.div_add, Z.mod_add by lia. lia.
Qed.

Lemma appendAlphanumericBytes_loop_spec fuel :
  forall (pre suf : JS.JSString) bits,
    Forall (fun c => In c alphanumericSet) suf ->
    (List.length suf <= fuel)%nat ->
    Encoder.appendAlphanumericBytes_loop fuel (pre ++ suf) (List.length pre)
      bits
    = (Returned tt, bits ++ alphanumericSegment suf).
Proof.
  induction fuel as [|fuel IH]; intros pre suf bits Hall Hlen.
  - destruct suf; [|simpl in Hlen; lia].
    simpl. unfold ret. rewrite app_nil_r. reflexivity.
  - cbn [Encoder.appendAlphanumericBytes_loop]. rewrite !length_app.
    destruct suf as [|a [|b rest]].
    + decide_guards. unfold ret. cbn. rewrite app_nil_r. reflexivity.
    + inversion Hall as [|? ? Ha _]; subst.
      pose proof (getAlphanumericCode_in_set a Ha) as Hca.
      decide_guards. rewrite charCodeAt_app_head.
      destruct (Z.eqb_spec (Encoder.getAlphanumericCode a) (-1)); [lia|].
      erewrite bind_returned;
        [|apply appendBits_ok; [lia|change (2 ^ 6) with 64; lia]].
      replace (pre ++ [a]) with ((pre ++ [a]) ++ []) by apply app_nil_r.
      replace (List.length pre + 1)%nat with (List.length (pre ++ [a]))
        by (rewrite length_app; reflexivity).
      rewrite IH by (auto; simpl; lia).
      unfold alphanumericSegment. cbn. rewrite !app_nil_r. reflexivity.
    + inversion Hall as [|? ? Ha Hall']; subst.
      inversion Hall' as [|? ? Hb Hrest]; subst.
      pose proof (getAlphanumericCode_in_set a Ha) as Hca.
      pose proof (getAlphanumericCode_in_set b Hb) as Hcb.
      cbn [List.length] in Hlen. decide_guards.
      rewrite charCodeAt_app_head.
      rewrite (charCodeAt_app_offset pre (a :: b :: rest) 1 b eq_refl).
      destruct (Z.eqb_spec (Encoder.getAlphanumericCode a) (-1)); [lia|].
      destruct (Z.eqb_spec (Encoder.getAlphanumericCode b) (-1)); [lia|].
      erewrite bind_returned;
        [|apply appendBits_ok; [lia|change (2 ^ 11) with 2048; lia]].
      replace (pre ++ a :: b :: rest) with ((pre ++ [a; b]) ++ rest)
        by (rewrite <- app_assoc; reflexivity).
      replace (List.length pre + 2)%nat with (List.length (pre ++ [a; b]))
        by (rewrite length_app; reflexivity).
      rewrite IH by (auto; lia).
      unfold alphanumericSegment. cbn [chunks2 flat_map alphanumericGroup].
      rewrite <- !app_assoc. reflexivity.
Qed.

Lemma appendAlphanumericBytes_loop_throws fuel :
  forall (pre suf : JS.JSString) bits,
    Exists (fun c => ~ In c alphanumericSet) suf ->
    (List.length suf <= fuel)%nat ->
    exists bits',
      Encoder.appendAlphanumericBytes_loop fuel (pre ++ suf)
        (List.length pre) bits
      = (Thrown (WriterException ""), bits').
Proof.
  induction fuel as [|fuel IH]; intros pre suf bits Hex Hlen.
  - destruct suf; [inversion Hex|simpl in Hlen; lia].
  - cbn [Encoder.appendAlphanumericBytes_loop]. rewrite !length_app.
    destruct suf as [|a [|b rest]].
    + inversion Hex.
    + decide_guards. rewrite charCodeAt_app_head.
      inversion Hex as [? ? Ha|? ? Hrest]; subst; [|inversion Hrest].
      rewrite (getAlphanumericCode_not_in_set a Ha). cbn [Z.eqb].
      eexists. reflexivity.
    + cbn [List.length] in Hlen. decide_guards.
      rewrite charCodeAt_app_head.
      rewrite (charCodeAt_app_offset pre (a :: b :: rest) 1 b eq_refl).
      destruct (Z.eqb_spec (Encoder.getAlphanumericCode a) (-1)) as [|Hna];
        [eexists; reflexivity|].
      destruct (Z.eqb_spec (Encoder.getAlphanumericCode b) (-1)) as [|Hnb];
        [eexists; reflexivity|].
      assert (Ha : In a alphanumericSet).
      { apply inAlphanumericSetb_iff. rewrite <- getAlphanumericCode_set.
        apply negb_true_iff, Z.eqb_neq. exact Hna. }
      assert (Hb : In b alphanumericSet).
      { apply inAlphanumericSetb_iff. rewrite <- getAlphanumericCode_set.
        apply negb_true_iff, Z.eqb_neq. exact Hnb. }
      pose proof (getAlphanumericCode_in_set a Ha) as Hca.
      pose proof (getAlphanumericCode_in_set b Hb) as Hcb.
      erewrite bind_returned;
        [|apply appendBits_ok; [lia|change (2 ^ 11) with 2048; lia]].
      replace (pre ++ a :: b :: rest) with ((pre ++ [a; b]) ++ rest)
        by (rewrite <- app_assoc; reflexivity).
      replace (List.length pre + 2)%nat with (List.length (pre ++ [a; b]))
        by (rewrite length_app; reflexivity).
      apply IH; [|lia].
      inversion Hex as [? ? Hbad|? ? Hex']; subst; [contradiction|].
      inversion Hex' as [? ? Hbad|? ? Hex'']; subst; [contradiction|].
      exact Hex''.
Qed.

(** X2. [appendAlphanumericBytes] returns normally exactly on the contents
    made of the 45 alphanumeric characters.  It then has appended
    [c1 * 45 + c2] in 11 bits for each pair of characters and the code of
    a last single character in 6 bits, [11 * (n / 2) + 6 * (n mod 2)] bits
    for [n] characters.  On any other content it throws a
    [WriterException]. *)
Theorem appendAlphanumericBytes_spec (content : JS.JSString)
  (bits : BitArray.t) :
  (Forall (fun c => In c alphanumericSet) content ->
   Encoder.appendAlphanumericBytes content bits
   = (Returned tt, bits ++ flat_map alphanumericGroup (chunks2 content))
   /\ Z.of_nat (List.length (flat_map alphanumericGroup (chunks2 content)))
      = 11 * (Z.of_nat (List.length content) / 2)
        + 6 * (Z.of_nat (List.length content) mod 2))
  /\ (Exists (fun c => ~ In c alphanumericSet) content ->
      exists bits',
        Encoder.appendAlphanumericBytes content bits
        = (Thrown (WriterException ""), bits')).
Proof.
  split.
  - intros Hall. split.
    + apply (appendAlphanumericBytes_loop_spec (List.length content) []
               content bits Hall). lia.
    + apply alphanumericSegment_length. exact Hall.
  - intros Hex.
    apply (appendAlphanumericBytes_loop_throws (List.length content) []
             content bits Hex). lia.
Qed.

Lemma appendAlphanumericBytes_spec_witness :
  (Encoder.appendAlphanumericBytes (JS.ofString "AB1") []
   = (Returned tt,
      [] ++ flat_map alphanumericGroup (chunks2 (JS.ofString "AB1")))
   /\ Z.of_nat
        (List.length (flat_map alphanumericGroup (chunks2 (JS.ofString "AB1"))))
      = 11 * (Z.of_nat (List.length (JS.ofString "AB1")) / 2)
        + 6 * (Z.of_nat (List.length (JS.ofString "AB1")) mod 2))
  /\ (exists bits',
        Encoder.appendAlphanumericBytes (JS.ofString "Ab") []
        = (Thrown (WriterException ""), bits')).
Proof.
  split.
  - apply (proj1 (appendAlphanumericBytes_spec (JS.ofString "AB1") [])).
    apply (Forall_of_forallb _ inAlphanumericSetb);
      [intros x; apply inAlphanumericSetb_iff|reflexivity].
  - apply (proj2 (appendAlphanumericBytes_spec (JS.ofString "Ab") [])).
    apply Exists_cons_tl, Exists_cons_hd. intros Hin.
    apply inAlphanumericSetb_iff in Hin. discriminate.
Defined.

(** ** Byte segments, and the agreement of mode selection and packing *)

Lemma forEach_append_bytes (suf : list byte) :
  forall (pre : list byte) bits,
    forEach (seq (List.length pre) (List.length suf))
      (fun i => BitArray.appendBits (JS.byteAt (pre ++ suf) i) 8) bits
    = (Returned tt, bits ++ bytesToBits suf).
Proof.
  induction suf as [|b suf IH]; intros pre bits.
  - simpl. unfold ret. rewrite app_nil_r. reflexivity.
  - cbn [List.length seq forEach].
    rewrite <- (Nat.add_0_r (List.length pre)) at 1.
    rewrite byteAt_app_offset. cbn [JS.byteAt nth_error].
    fold (byteValue b).
    erewrite bind_returned; [|apply appendBits_byte].
    replace (pre ++ b :: suf) with ((pre ++ [b]) ++ suf)
      by (rewrite <- app_assoc; reflexivity).
    replace (S (List.length pre)) with (List.length (pre ++ [b]))
      by (rewrite length_app; simpl; lia).
    rewrite IH. unfold bytesToBits. cbn [flat_map].
    rewrite <- app_assoc. reflexivity.
Qed.

Lemma inKanjiRange_dec code : {inKanjiRange code} + {~ inKanjiRange code}.
Proof.
  unfold inKanjiRange.
  destruct (Z_le_dec 0x8140 code), (Z_le_dec code 0x9ffc),
    (Z_le_dec 0xe040 code), (Z_le_dec code 0xebbf);
    (left; lia) || (right; lia).
Qed.

Section Append8BitBytes.

Variable StringEncoding_encode : JS.JSString -> string -> Outcome (list byte).
Variable SJIS : CharacterSetECI.t.

(** X3. [append8BitBytes] appends the bytes that the text encoder gives
    for the content in the requested charset, eight bits each, most
    significant bit first, so the bit array grows by eight times their
    number; when the encoder throws, it throws a [WriterException] and the
    bit array is left as it was. *)
Theorem append8BitBytes_spec (content : JS.JSString) (encoding : string)
  (bits : BitArray.t) :
  (forall bytes,
     StringEncoding_encode content encoding = Returned bytes ->
     Encoder.append8BitBytes StringEncoding_encode content encoding bits
     = (Returned tt, bits ++ bytesToBits bytes)
     /\ BitArray.getSize (bits ++ bytesToBits bytes)
        = BitArray.getSize bits + 8 * Z.of_nat (List.length bytes))
  /\ (forall e,
        StringEncoding_encode content encoding = Thrown e ->
        Encoder.append8BitBytes StringEncoding_encode content encoding bits
        = (Thrown (WriterException "uee"), bits)).
Proof.
  split.
  - intros bytes Henc. split.
    + unfold Encoder.append8BitBytes. rewrite Henc.
      apply (forEach_append_bytes bytes [] bits).
    + rewrite getSize_app, bytesToBits_size. reflexivity.
  - intros e Henc. unfold Encoder.append8BitBytes. rewrite Henc.
    reflexivity.
Qed.

Lemma scanUnits_numeric units :
  scanUnits units false false = Mode.NUMERIC -> Forall isDigitUnit units.
Proof.
  rewrite scanUnits_closed_form. cbn [orb].
  destruct (existsb (fun c => negb (inAlphanumericSetb c)) units);
    [discriminate|].
  destruct (existsb (fun c => negb (isDigitUnitb c)) units) eqn:Hnd;
    [discriminate|].
  intros _. apply Forall_forall. intros c Hin.
  apply isDigitUnitb_iff.
  destruct (isDigitUnitb c) eqn:Hd; [reflexivity|].
  exfalso. apply not_true_iff_false in Hnd. apply Hnd.
  apply existsb_exists. exists c. split; [exact Hin|].
  rewrite Hd. reflexivity.
Qed.

Lemma scanUnits_alphanumeric units :
  scanUnits units false false = Mode.ALPHANUMERIC ->
  Forall (fun c => In c alphanumericSet) units.
Proof.
  rewrite scanUnits_closed_form. cbn [orb].
  destruct (existsb (fun c => negb (inAlphanumericSetb c)) units) eqn:Hout;
    [discriminate|].
  intros _. apply Forall_forall. intros c Hin.
  apply inAlphanumericSetb_iff.
  destruct (inAlphanumericSetb c) eqn:Hc; [reflexivity|].
  exfalso. apply not_true_iff_false in Hout. apply Hout.
  apply existsb_exists. exists c. split; [exact Hin|].
  rewrite Hc. reflexivity.
Qed.

Lemma chooseMode_scan_or_kanji (content : JS.JSString)
  (encoding : option string) :
  Encoder.chooseMode StringEncoding_encode SJIS content encoding = Mode.KANJI
  \/ Encoder.chooseMode StringEncoding_encode SJIS content encoding
     = scanUnits content false false.
Proof.
  unfold Encoder.chooseMode.
  destruct (_ && _); [left; reflexivity|right].
  apply (chooseMode_scan_units content []).
Qed.

(** X4. Mode selection and packing agree: when [chooseMode] answers
    Numeric, [appendBytes] in that mode returns normally with the numeric
    segment of the content, and when it answers Alphanumeric,
    [appendBytes] returns normally with the alphanumeric segment; neither
    throws.  [chooseMode] never answers ECI. *)
Theorem chooseMode_then_appendBytes (content : JS.JSString)
  (hint : option string) (encoding : string) (bits : BitArray.t) :
  let mode := Encoder.chooseMode StringEncoding_encode SJIS content hint in
  (mode = Mode.NUMERIC ->
   Encoder.appendBytes StringEncoding_encode SJIS content mode encoding bits
   = (Returned tt, bits ++ numericSegment content))
  /\ (mode = Mode.ALPHANUMERIC ->
      Encoder.appendBytes StringEncoding_encode SJIS content mode encoding
        bits
      = (Returned tt, bits ++ alphanumericSegment content))
  /\ mode <> Mode.ECI.
Proof.
  intros mode.
  destruct (chooseMode_scan_or_kanji content hint) as [Hk|Hs];
    fold mode in Hk || fold mode in Hs.
  - rewrite Hk. repeat split; discriminate.
  - repeat split.
    + intros Hm. rewrite Hm. cbn [Encoder.appendBytes].
      apply appendNumericBytes_digits. apply scanUnits_numeric. congruence.
    + intros Hm. rewrite Hm. cbn [Encoder.appendBytes].
      apply (appendAlphanumericBytes_loop_spec (List.length content) []
               content bits); [|lia].
      apply scanUnits_alphanumeric. congruence.
    + rewrite Hs, scanUnits_closed_form.
      destruct (existsb _ content); [discriminate|].
      destruct (_ || _); [discriminate|].
      destruct (_ || _); discriminate.
Qed.

(** X5. When [chooseMode] answers Kanji, the Shift_JIS bytes of the content
    are even in number: through [chooseMode], [appendKanjiBytes] only
    reads whole pairs, and it appends thirteen bits per pair or throws on
    a pair out of range. *)
Theorem chooseMode_kanji_pairs (content : JS.JSString)
  (hint : option string) (bits : BitArray.t) :
  Encoder.chooseMode StringEncoding_encode SJIS content hint = Mode.KANJI ->
  exists bytes,
    StringEncoding_encode content (CharacterSetECI.getName SJIS)
    = Returned bytes
    /\ Nat.Even (List.length bytes)
    /\ List.length (kanjiPairs bytes) = Nat.div2 (List.length bytes)
    /\ (Encoder.appendKanjiBytes StringEncoding_encode SJIS content bits
        = (Returned tt,
           bits ++ flat_map
                     (fun p => BitArray.bitsOf (kanjiEncoded (kanjiCode p)) 13)
                     (kanjiPairs bytes))
        \/ exists bits',
             Encoder.appendKanjiBytes StringEncoding_encode SJIS content bits
             = (Thrown (WriterException "Invalid byte sequence"), bits')).
Proof.
  intros Hmode.
  assert (Honly : Encoder.isOnlyDoubleByteKanji StringEncoding_encode SJIS
                    content = true).
  { unfold Encoder.chooseMode in Hmode.
    destruct (Encoder.isOnlyDoubleByteKanji StringEncoding_encode SJIS content);
      [reflexivity|].
    rewrite andb_false_r in Hmode.
    rewrite (chooseMode_scan_units content []), scanUnits_closed_form in Hmode.
    destruct (existsb _ content); [discriminate|].
    destruct (_ || _); [discriminate|].
    destruct (_ || _); discriminate. }
  apply isOnlyDoubleByteKanji_iff in Honly.
  destruct Honly as (bytes & Henc & Hev & _).
  exists bytes. split; [exact Henc|]. split; [exact Hev|]. split.
  - clear Henc. induction bytes as [|a|a b rest IH] using list_ind2.
    + reflexivity.
    + destruct Hev as [m Hm]. simpl in Hm. lia.
    + cbn [kanjiPairs List.length Nat.div2]. f_equal. apply IH.
      destruct Hev as [m Hm]. exists (m - 1)%nat. simpl in Hm. lia.
  - rewrite (appendKanjiBytes_run StringEncoding_encode SJIS content bits
               bytes Henc).
    destruct (Forall_Exists_dec
                (fun p => inKanjiRange (kanjiCode p))
                (fun p => inKanjiRange_dec (kanjiCode p))
                (kanjiPairs bytes)) as [Hall|Hex].
    + left. apply kanjiRun_in_range. exact Hall.
    + right. apply kanjiRun_out_of_range. exact Hex.
Qed.

End Append8BitBytes.

Lemma append8BitBytes_spec_witness :
  Encoder.append8BitBytes sampleEncode (JS.ofString "hi") "UTF8" [true]
  = (Returned tt, [true] ++ bytesToBits [x68; x69])
  /\ BitArray.getSize ([true] ++ bytesToBits [x68; x69])
     = BitArray.getSize [true] + 8 * Z.of_nat (List.length [x68; x69]).
Proof.
  apply (proj1 (append8BitBytes_spec sampleEncode (JS.ofString "hi") "UTF8"
                  [true])).
  reflexivity.
Defined.

Lemma chooseMode_then_appendBytes_witness :
  Encoder.appendBytes sampleEncode sampleSJIS (JS.ofString "2024")
    (Encoder.chooseMode sampleEncode sampleSJIS (JS.ofString "2024") None)
    "UTF8" []
  = (Returned tt, [] ++ numericSegment (JS.ofString "2024"))
  /\ Encoder.appendBytes sampleEncode sampleSJIS (JS.ofString "QR CODE")
       (Encoder.chooseMode sampleEncode sampleSJIS (JS.ofString "QR CODE")
          None)
       "UTF8" []
     = (Returned tt, [] ++ alphanumericSegment (JS.ofString "QR CODE")).
Proof.
  split.
  - apply (proj1 (chooseMode_then_appendBytes sampleEncode sampleSJIS
                    (JS.ofString "2024") None "UTF8" [])).
    reflexivity.
  - apply (proj1 (proj2 (chooseMode_then_appendBytes sampleEncode sampleSJIS
                           (JS.ofString "QR CODE") None "UTF8" []))).
    reflexivity.
Defined.

Lemma chooseMode_kanji_pairs_witness :
  exists bytes,
    sampleEncode [0x70b9; 0x8317]%N (CharacterSetECI.getName sampleSJIS)
    = Returned bytes
    /\ Nat.Even (List.length bytes)
    /\ List.length (kanjiPairs bytes) = Nat.div2 (List.length bytes)
    /\ (Encoder.appendKanjiBytes sampleEncode sampleSJIS [0x70b9; 0x8317]%N []
        = (Returned tt,
           [] ++ flat_map
                   (fun p => BitArray.bitsOf (kanjiEncoded (kanjiCode p)) 13)
                   (kanjiPairs bytes))
        \/ exists bits',
             Encoder.appendKanjiBytes sampleEncode sampleSJIS
               [0x70b9; 0x8317]%N []
             = (Thrown (WriterException "Invalid byte sequence"), bits')).
Proof.
  apply (chooseMode_kanji_pairs sampleEncode sampleSJIS [0x70b9; 0x8317]%N
           (Some "SJIS"%string) []).
  reflexivity.
Defined.

(** ** Capacity and version selection *)

(** X6. The capacity test is monotone: a version that holds a number of
    bits at a level holds any smaller number of bits at that level, and a
    version with at least as many data codewords holds what another one
    holds. *)
Theorem willFit_monotone (numInputBits fewerBits : Z)
  (version larger : Version.t) (ecLevel : ErrorCorrectionLevel.t) :
  Encoder.willFit numInputBits version ecLevel = true ->
  (fewerBits <= numInputBits ->
   Encoder.willFit fewerBits version ecLevel = true)
  /\ (numDataCodewords version ecLevel <= numDataCodewords larger ecLevel ->
      Encoder.willFit numInputBits larger ecLevel = true).
Proof.
  rewrite !willFit_iff. intros Hfit. split; intros H; lia.
Qed.

Lemma willFit_monotone_witness :
  (100 <= 145 -> Encoder.willFit 100 sampleVersion1 ErrorCorrectionLevel.L
                 = true)
  /\ (numDataCodewords sampleVersion1 ErrorCorrectionLevel.L
      <= numDataCodewords sampleVersion2 ErrorCorrectionLevel.L ->
      Encoder.willFit 145 sampleVersion2 ErrorCorrectionLevel.L = true).
Proof.
  apply (willFit_monotone 145 100 sampleVersion1 sampleVersion2
           ErrorCorrectionLevel.L).
  reflexivity.
Defined.

Section ChooseVersion.

Variable getVersionForNumber : Z -> Outcome Version.t.

(** The rows 1..40 of the version table. *)
Variable versionOf : Z -> Version.t.
Hypothesis table_rows :
  forall n, 1 <= n <= 40 -> getVersionForNumber n = Returned (versionOf n).

Lemma chooseVersion_numbers :
  map (fun k => 1 + k) (upTo 40) = map Z.of_nat (seq 1 40).
Proof. reflexivity. Qed.

Lemma chooseVersion_loop_none {St} (s : St) numInputBits ecLevel k :
  forall a,
    (1 <= a)%nat -> (a + k <= 41)%nat ->
    (forall n, Z.of_nat a <= n < Z.of_nat (a + k) ->
               Encoder.willFit numInputBits (versionOf n) ecLevel = false) ->
    Encoder.chooseVersion_loop getVersionForNumber
      (map Z.of_nat (seq a k)) numInputBits ecLevel s
    = (Thrown (WriterException "Data too big"), s).
Proof.
  induction k as [|k IH]; intros a Ha Hk Hnone.
  - reflexivity.
  - cbn [seq map Encoder.chooseVersion_loop].
    unfold bind, Encoder.lift. rewrite table_rows by lia.
    rewrite Hnone by lia. apply IH; [lia|lia|].
    intros n Hn. apply Hnone. lia.
Qed.

Lemma chooseVersion_loop_first {St} (s : St) numInputBits ecLevel k :
  forall a n,
    (1 <= a)%nat -> (a + k <= 41)%nat ->
    Z.of_nat a <= n < Z.of_nat (a + k) ->
    Encoder.willFit numInputBits (versionOf n) ecLevel = true ->
    (forall m, Z.of_nat a <= m < n ->
               Encoder.willFit numInputBits (versionOf m) ecLevel = false) ->
    Encoder.chooseVersion_loop getVersionForNumber
      (map Z.of_nat (seq a k)) numInputBits ecLevel s
    = (Returned (versionOf n), s).
Proof.
  induction k as [|k IH]; intros a n Ha Hk Hn Hfit Hbefore.
  - lia.
  - cbn [seq map Encoder.chooseVersion_loop].
    unfold bind, Encoder.lift. rewrite table_rows by lia.
    destruct (Z.eq_dec n (Z.of_nat a)) as [->|Hne].
    + rewrite Hfit. reflexivity.
    + rewrite Hbefore by lia. apply IH; try lia; [exact Hfit|].
      intros m Hm. apply Hbefore. lia.
Qed.

(** Either some row fits, and then there is a first one, or none does. *)
Lemma first_fit_or_none numInputBits ecLevel (k : nat) :
  forall a : nat,
    (exists n, Z.of_nat a <= n < Z.of_nat (a + k)
               /\ Encoder.willFit numInputBits (versionOf n) ecLevel = true
               /\ forall m, Z.of_nat a <= m < n ->
                    Encoder.willFit numInputBits (versionOf m) ecLevel
                    = false)
    \/ (forall n, Z.of_nat a <= n < Z.of_nat (a + k) ->
          Encoder.willFit numInputBits (versionOf n) ecLevel = false).
Proof.
  induction k as [|k IH]; intros a.
  - right. intros n Hn. lia.
  - destruct (Encoder.willFit numInputBits (versionOf (Z.of_nat a)) ecLevel)
      eqn:Hhere.
    + left. exists (Z.of_nat a). split; [lia|]. split; [exact Hhere|].
      intros m Hm. lia.
    + destruct (IH (S a)) as [(n & Hn & Hfit & Hbefore)|Hnone].
      * left. exists n. split; [lia|]. split; [exact Hfit|].
        intros m Hm. destruct (Z.eq_dec m (Z.of_nat a)) as [->|];
          [exact Hhere|apply Hbefore; lia].
      * right. intros n Hn.
        destruct (Z.eq_dec n (Z.of_nat a)) as [->|];
          [exact Hhere|apply Hnone; lia].
Qed.

Lemma chooseVersion_outcomes (St : Type) (s : St) (numInputBits : Z)
  (ecLevel : ErrorCorrectionLevel.t) :
  (forall version s',
     Encoder.chooseVersion getVersionForNumber numInputBits ecLevel s
     = (Returned version, s') <->
     s' = s
     /\ exists n, 1 <= n <= 40 /\ version = versionOf n
                  /\ Encoder.willFit numInputBits (versionOf n) ecLevel = true
                  /\ forall m, 1 <= m < n ->
                       Encoder.willFit numInputBits (versionOf m) ecLevel
                       = false)
  /\ (Encoder.chooseVersion getVersionForNumber numInputBits ecLevel s
      = (Thrown (WriterException "Data too big"), s) <->
      forall n, 1 <= n <= 40 ->
                Encoder.willFit numInputBits (versionOf n) ecLevel = false).
Proof.
  unfold Encoder.chooseVersion. rewrite chooseVersion_numbers.
  destruct (first_fit_or_none numInputBits ecLevel 40 1)
    as [(n & Hn & Hfit & Hbefore)|Hnone].
  - rewrite (chooseVersion_loop_first s numInputBits ecLevel 40 1 n)
      by (try lia; assumption).
    split.
    + intros version s'. split.
      * intros [= <- <-]. split; [reflexivity|].
        exists n. split; [lia|]. split; [reflexivity|].
        split; [exact Hfit|].
        intros m Hm. apply Hbefore. lia.
      * intros (-> & n' & Hn' & -> & Hfit' & Hbefore').
        assert (n' = n); [|subst; reflexivity].
        destruct (Z.lt_trichotomy n' n) as [Hlt|[Heq|Hgt]]; [|exact Heq|].
        -- rewrite Hbefore in Hfit' by lia. discriminate.
        -- rewrite Hbefore' in Hfit by lia. discriminate.
    + split; [discriminate|].
      intros Hnone. rewrite Hnone in Hfit by lia. discriminate.
  - rewrite (chooseVersion_loop_none s numInputBits ecLevel 40 1)
      by (try lia; assumption).
    split.
    + intros version s'. split; [discriminate|].
      intros (_ & n & Hn & _ & Hfit & _).
      rewrite Hnone in Hfit by lia. discriminate.
    + split; [|reflexivity].
      intros _ n Hn. apply Hnone. lia.
Qed.

(** X7. [chooseVersion] returns the first row of the version table, in the
    order 1, 2, ..., 40, that passes [willFit]; it throws 'Data too big'
    exactly when no row passes. *)
Theorem chooseVersion_first_fit (St : Type) (s : St) (numInputBits : Z)
  (ecLevel : ErrorCorrectionLevel.t) :
  (forall version s',
     Encoder.chooseVersion getVersionForNumber numInputBits ecLevel s
     = (Returned version, s') <->
     s' = s
     /\ exists n, 1 <= n <= 40 /\ version = versionOf n
                  /\ Encoder.willFit numInputBits (versionOf n) ecLevel = true
                  /\ forall m, 1 <= m < n ->
                       Encoder.willFit numInputBits (versionOf m) ecLevel
                       = false)
  /\ (Encoder.chooseVersion getVersionForNumber numInputBits ecLevel s
      = (Thrown (WriterException "Data too big"), s) <->
      forall n, 1 <= n <= 40 ->
                Encoder.willFit numInputBits (versionOf n) ecLevel = false).
Proof. apply chooseVersion_outcomes. Qed.

Lemma characterCountBits_from_version1 mode (version1 version : Version.t) :
  Version.getVersionNumber version1 <= 9 ->
  Mode.getCharacterCountBits mode version1
  <= Mode.getCharacterCountBits mode version.
Proof.
  intros H1. unfold Mode.getCharacterCountBits.
  destruct (Z.leb_spec (Version.getVersionNumber version1) 9); [|lia].
  destruct (Version.getVersionNumber version <=? 9);
    [|destruct (Version.getVersionNumber version <=? 26)];
    destruct mode; simpl; lia.
Qed.

Hypothesis table_numbers :
  forall n, 1 <= n <= 40 -> Version.getVersionNumber (versionOf n) = n.

(** X8. When [recommendVersion] returns, the provisional version is the
    first row that holds the bits counted with the length field of version
    1, the result is the first row that holds the bits counted with the
    length field of the provisional version, and the result is not a
    smaller version than the provisional one. *)
Theorem recommendVersion_two_passes (St : Type) (s s' : St)
  (ecLevel : ErrorCorrectionLevel.t) (mode : Mode.t)
  (headerBits dataBits : BitArray.t) (version : Version.t) :
  Encoder.recommendVersion getVersionForNumber ecLevel mode headerBits
    dataBits s = (Returned version, s') ->
  exists n1 n2,
    1 <= n1 /\ n1 <= n2 /\ n2 <= 40 /\ version = versionOf n2
    /\ Encoder.willFit
         (Encoder.calculateBitsNeeded mode headerBits dataBits (versionOf 1))
         (versionOf n1) ecLevel = true
    /\ (forall m, 1 <= m < n1 ->
          Encoder.willFit
            (Encoder.calculateBitsNeeded mode headerBits dataBits
               (versionOf 1))
            (versionOf m) ecLevel = false)
    /\ Encoder.willFit
         (Encoder.calculateBitsNeeded mode headerBits dataBits (versionOf n1))
         (versionOf n2) ecLevel = true
    /\ (forall m, 1 <= m < n2 ->
          Encoder.willFit
            (Encoder.calculateBitsNeeded mode headerBits dataBits
               (versionOf n1))
            (versionOf m) ecLevel = false).
Proof.
  unfold Encoder.recommendVersion. unfold bind at 1, Encoder.lift.
  rewrite table_rows by lia. unfold bind at 1.
  destruct (Encoder.chooseVersion getVersionForNumber
              (Encoder.calculateBitsNeeded mode headerBits dataBits
                 (versionOf 1)) ecLevel s)
    as [[provisional|e] s1] eqn:Hfirst; [|discriminate].
  apply (proj1 (chooseVersion_outcomes St s _ ecLevel)) in Hfirst.
  destruct Hfirst as (-> & n1 & Hn1 & -> & Hfit1 & Hbefore1).
  intros Hsecond.
  apply (proj1 (chooseVersion_outcomes St s _ ecLevel)) in Hsecond.
  destruct Hsecond as (_ & n2 & Hn2 & -> & Hfit2 & Hbefore2).
  exists n1, n2.
  assert (Hle : n1 <= n2).
  { destruct (Z.le_gt_cases n1 n2) as [H|H]; [exact H|exfalso].
    assert (Hfit : Encoder.willFit
                     (Encoder.calculateBitsNeeded mode headerBits dataBits
                        (versionOf 1)) (versionOf n2) ecLevel = true).
    { apply willFit_iff. apply willFit_iff in Hfit2.
      unfold Encoder.calculateBitsNeeded in *.
      pose proof (characterCountBits_from_version1 mode (versionOf 1)
                    (versionOf n1)) as Hcc.
      rewrite table_numbers in Hcc by lia. specialize (Hcc ltac:(lia)).
      lia. }
    rewrite Hbefore1 in Hfit by lia. discriminate. }
  repeat split; try lia; assumption.
Qed.

End ChooseVersion.

Lemma sampleVersionTable_rows n :
  1 <= n <= 40 ->
  sampleVersionTable n
  = Returned (if n =? 1 then sampleVersion1 else sampleVersion2).
Proof. intros _. unfold sampleVersionTable. destruct (n =? 1); reflexivity. Qed.

Lemma chooseVersion_first_fit_witness :
  Encoder.chooseVersion sampleVersionTable 200 ErrorCorrectionLevel.L tt
  = (Returned sampleVersion2, tt).
Proof.
  apply (proj1 (chooseVersion_first_fit sampleVersionTable
                  (fun n => if n =? 1 then sampleVersion1 else sampleVersion2)
                  sampleVersionTable_rows unit tt 200 ErrorCorrectionLevel.L)
           sampleVersion2 tt).
  split; [reflexivity|]. exists 2. split; [lia|]. split; [reflexivity|].
  split; [reflexivity|].
  intros m Hm. assert (m = 1) as -> by lia. reflexivity.
Defined.

Lemma sampleRows_rows n :
  1 <= n <= 40 -> sampleRows n = Returned (sampleRow n).
Proof.
  intros Hn. unfold sampleRows.
  destruct (Z.leb_spec 1 n); [|lia]. destruct (Z.leb_spec n 40); [|lia].
  reflexivity.
Qed.

Lemma recommendVersion_two_passes_witness :
  exists n1 n2,
    1 <= n1 /\ n1 <= n2 /\ n2 <= 40 /\ sampleRow 2 = sampleRow n2
    /\ Encoder.willFit
         (Encoder.calculateBitsNeeded Mode.BYTE (repeat false 4)
            (repeat true 136) (sampleRow 1))
         (sampleRow n1) ErrorCorrectionLevel.M = true
    /\ (forall m, 1 <= m < n1 ->
          Encoder.willFit
            (Encoder.calculateBitsNeeded Mode.BYTE (repeat false 4)
               (repeat true 136) (sampleRow 1))
            (sampleRow m) ErrorCorrectionLevel.M = false)
    /\ Encoder.willFit
         (Encoder.calculateBitsNeeded Mode.BYTE (repeat false 4)
            (repeat true 136) (sampleRow n1))
         (sampleRow n2) ErrorCorrectionLevel.M = true
    /\ (forall m, 1 <= m < n2 ->
          Encoder.willFit
            (Encoder.calculateBitsNeeded Mode.BYTE (repeat false 4)
               (repeat true 136) (sampleRow n1))
            (sampleRow m) ErrorCorrectionLevel.M = false).
Proof.
  apply (recommendVersion_two_passes sampleRows sampleRow sampleRows_rows
           (fun n _ => eq_refl) unit tt tt ErrorCorrectionLevel.M Mode.BYTE
           (repeat false 4) (repeat true 136) (sampleRow 2)).
  vm_compute. reflexivity.
Defined.

(** ** [encode], up to the interleaved codewords *)

Section EncodeFinalBits.

Variable StringEncoding_encode : JS.JSString -> string -> Outcome (list byte).
Variables SJIS UTF8 : CharacterSetECI.t.
Variable getCharacterSetECIByName : string -> option CharacterSetECI.t.
Variable getVersionForNumber : Z -> Outcome Version.t.
Variable ReedSolomonEncoder_encode : list Z -> Z -> Outcome (list Z).

Lemma encode_headerBits_mode content hints mode encoding headerBits :
  Encoder.encode_headerBits StringEncoding_encode SJIS UTF8
    getCharacterSetECIByName content hints BitArray.empty
  = (Returned (mode, encoding), headerBits) ->
  encoding
  = match match hints with
          | Some h => EncodeHints.CHARACTER_SET h
          | None => None
          end with
    | Some e => e
    | None => Encoder.DEFAULT_BYTE_MODE_ENCODING UTF8
    end
  /\ mode
     = Encoder.chooseMode StringEncoding_encode SJIS content (Some encoding).
Proof.
  unfold Encoder.encode_headerBits.
  set (encoding0 := match match hints with
                          | Some h => EncodeHints.CHARACTER_SET h
                          | None => None
                          end with
                    | Some e => e
                    | None => Encoder.DEFAULT_BYTE_MODE_ENCODING UTF8
                    end).
  unfold bind.
  match goal with
  | |- (let (_, _) := ?run in _) = _ -> _ =>
      destruct run as [[[]|e] bits1]; [|discriminate]
  end.
  destruct (Encoder.appendModeInfo _ bits1) as [[[]|e] bits2];
    [|discriminate].
  unfold ret. intros [= <- <- _]. split; reflexivity.
Qed.

(** X9. Whenever [encode] gets as far as the interleaved codewords, they
    fill the chosen version exactly: [finalBits] holds eight bits for each
    of the version's codewords; and the mode is the one [chooseMode] gives
    for the content and the hinted (or default) charset. *)
Theorem encode_finalBits_fills_version (St : Type) (s s' : St)
  (content : JS.JSString) (ecLevel : ErrorCorrectionLevel.t)
  (hints : option EncodeHints.t) (mode : Mode.t) (version : Version.t)
  (finalBits : BitArray.t) :
  Encoder.encode_finalBits StringEncoding_encode SJIS UTF8
    getCharacterSetECIByName getVersionForNumber ReedSolomonEncoder_encode
    content ecLevel hints s
  = (Returned (mode, version, finalBits), s') ->
  BitArray.getSize finalBits = 8 * Version.getTotalCodewords version
  /\ mode
     = Encoder.chooseMode StringEncoding_encode SJIS content
         (Some match match hints with
                      | Some h => EncodeHints.CHARACTER_SET h
                      | None => None
                      end with
               | Some e => e
               | None => Encoder.DEFAULT_BYTE_MODE_ENCODING UTF8
               end).
Proof.
  unfold Encoder.encode_finalBits.
  destruct (Encoder.encode_headerBits _ _ _ _ content hints BitArray.empty)
    as [[[mode0 encoding]|e] headerBits] eqn:Hheader; [|discriminate].
  destruct (encode_headerBits_mode _ _ _ _ _ Hheader) as [Henc Hmode].
  destruct (Encoder.appendBytes _ _ content mode0 encoding BitArray.empty)
    as [[[]|e] dataBits]; [|discriminate].
  unfold bind at 1.
  match goal with
  | |- (let (_, _) := ?run in _) = _ -> _ =>
      destruct run as [[version0|e] s1]; [|discriminate]
  end.
  match goal with
  | |- (let (_, _) := ?run in _) _ = _ -> _ =>
      destruct run as [[[]|e] headerAndDataBits]; [|discriminate]
  end.
  unfold bind at 1.
  destruct (Encoder.interleaveWithECBytes _ headerAndDataBits _ _ _ s1)
    as [[result|e] s2] eqn:Hinter; [|discriminate].
  unfold ret. intros [= <- <- <- <-].
  apply interleaveWithECBytes_returned in Hinter.
  destruct Hinter as (_ & vars & _ & _ & Hresult & Htotal).
  split.
  - rewrite Hresult in Htotal |- *.
    rewrite bytesToBits_sizeInBytes in Htotal.
    rewrite bytesToBits_size, Htotal. reflexivity.
  - rewrite Hmode, Henc. reflexivity.
Qed.

End EncodeFinalBits.

Lemma encode_finalBits_fills_version_witness :
  BitArray.getSize
    (bytesToBits
       [x10; x20; x0c; x56; x61; x80; xec; x11; xec; x11; xec; x11; xec; x11;
        xec; x11; xec; x11; xec;
        x00; x00; x00; x00; x00; x00; x00])
  = 8 * Version.getTotalCodewords (sampleRow 1)
  /\ Mode.NUMERIC
     = Encoder.chooseMode sampleEncode sampleSJIS (JS.ofString "01234567")
         (Some (Encoder.DEFAULT_BYTE_MODE_ENCODING sampleUTF8)).
Proof.
  apply (encode_finalBits_fills_version sampleEncode sampleSJIS sampleUTF8
           sampleGetCharacterSetECIByName sampleRows sampleReedSolomon
           unit tt tt (JS.ofString "01234567") ErrorCorrectionLevel.L None
           Mode.NUMERIC (sampleRow 1)).
  vm_compute. reflexivity.
Defined.

(** ** Termination, again *)

(** X10. [terminateBits] is idempotent: when it returns, the bit array
    holds exactly [numDataBytes] bytes, and a second call with the same
    [numDataBytes] returns normally and appends nothing. *)
Theorem terminateBits_idempotent (numDataBytes : Z) (bits bits' : BitArray.t) :
  Encoder.terminateBits numDataBytes bits = (Returned tt, bits') ->
  BitArray.getSize bits' = numDataBytes * 8
  /\ Encoder.terminateBits numDataBytes bits' = (Returned tt, bits').
Proof.
  intros Hrun.
  assert (Hfit : BitArray.getSize bits <= numDataBytes * 8).
  { destruct (Z.le_gt_cases (BitArray.getSize bits) (numDataBytes * 8))
      as [H|H]; [exact H|exfalso].
    unfold Encoder.terminateBits in Hrun.
    destruct (Z.gtb_spec (BitArray.getSize bits) (numDataBytes * 8));
      [discriminate|lia]. }
  destruct (terminateBits_fits numDataBytes bits Hfit) as (Hfirst & Htot & _).
  cbv zeta in Hfirst, Htot. rewrite Hfirst in Hrun.
  injection Hrun as Hbits'.
  assert (Hsize : BitArray.getSize bits' = numDataBytes * 8).
  { rewrite <- Hbits'.
    rewrite !getSize_app, !getSize_repeat, paddingBytes_size. lia. }
  split; [exact Hsize|].
  destruct (terminateBits_fits numDataBytes bits' ltac:(lia))
    as (Hsecond & _ & _).
  cbv zeta in Hsecond. rewrite Hsecond. rewrite Hsize.
  replace (Z.to_nat (Z.min 4 (numDataBytes * 8 - numDataBytes * 8)))
    with 0%nat by lia.
  cbn [Z.of_nat repeat app]. rewrite Z.add_0_r.
  replace ((- (numDataBytes * 8)) mod 8) with 0
    by (apply Z.mod_unique with (q := - numDataBytes); lia).
  cbn [Z.to_nat Z.of_nat repeat app]. rewrite Z.add_0_r.
  replace ((numDataBytes * 8 + 7) / 8) with numDataBytes
    by (apply Z.div_unique with (r := 7); lia).
  rewrite Z.sub_diag. cbn. rewrite app_nil_r. reflexivity.
Qed.

Lemma terminateBits_idempotent_witness :
  BitArray.getSize
    ([true; false; true] ++ repeat false 5 ++ bytesToBits [xec; x11])
  = 3 * 8
  /\ Encoder.terminateBits 3
       ([true; false; true] ++ repeat false 5 ++ bytesToBits [xec; x11])
     = (Returned tt,
        [true; false; true] ++ repeat false 5 ++ bytesToBits [xec; x11]).
Proof.
  apply (terminateBits_idempotent 3 [true; false; true]).
  vm_compute. reflexivity.
Defined.

(** ** The second numeric writer *)

Lemma charToNum_illegal {St} c (s : St) :
  ~ isDigitUnit c ->
  QRNumeric.charToNum [c] s = (Thrown (ThrownString "illegal char"), s).
Proof.
  intros Hnd. unfold QRNumeric.charToNum.
  destruct ((48 <=? c)%N && (c <=? 57)%N) eqn:Hd; [|reflexivity].
  exfalso. apply Hnd. apply isDigitUnitb_iff. exact Hd.
Qed.

Lemma strToNum_loop_illegal {St} (suf : JS.JSString) :
  forall (pre : JS.JSString) num (s : St),
    Exists (fun c => ~ isDigitUnit c) suf ->
    QRNumeric.strToNum_loop (pre ++ suf)
      (seq (List.length pre) (List.length suf)) num s
    = (Thrown (ThrownString "illegal char"), s).
Proof.
  induction suf as [|c suf IH]; intros pre num s Hex.
  - inversion Hex.
  - cbn [List.length seq QRNumeric.strToNum_loop].
    rewrite charAt_app_head.
    destruct (isDigitUnitb c) eqn:Hd.
    + apply isDigitUnitb_iff in Hd.
      erewrite bind_returned; [|apply charToNum_digit; exact Hd].
      replace (pre ++ c :: suf) with ((pre ++ [c]) ++ suf)
        by (rewrite <- app_assoc; reflexivity).
      replace (S (List.length pre)) with (List.length (pre ++ [c]))
        by (rewrite length_app; simpl; lia).
      apply IH. inversion Hex as [? ? Hbad|? ? Hrest]; subst;
        [contradiction|exact Hrest].
    + erewrite bind_thrown; [reflexivity|].
      apply charToNum_illegal. intros Hdig.
      apply isDigitUnitb_iff in Hdig. congruence.
Qed.

Lemma strToNum_illegal {St} (str : JS.JSString) (s : St) :
  Exists (fun c => ~ isDigitUnit c) str ->
  QRNumeric.strToNum str s = (Thrown (ThrownString "illegal char"), s).
Proof.
  intros Hex. apply (strToNum_loop_illegal str [] 0 s Hex).
Qed.

(** X11. On a string of at most 15 digits [strToNum] returns its decimal
    value, a number below [10 ^ n] for [n] digits and so below [2 ^ 53],
    where the additions and multiplications of the loop are exact.  On a
    string of any length with a character that is not a digit it throws
    'illegal char'; the value accumulated before that character is
    dropped. *)
Theorem strToNum_spec (St : Type) (s : St) (str : JS.JSString) :
  (Forall isDigitUnit str -> (List.length str <= 15)%nat ->
   QRNumeric.strToNum str s = (Returned (decimalValue str), s)
   /\ 0 <= decimalValue str < 10 ^ Z.of_nat (List.length str)
   /\ decimalValue str < 2 ^ 53)
  /\ (Exists (fun c => ~ isDigitUnit c) str ->
      QRNumeric.strToNum str s = (Thrown (ThrownString "illegal char"), s)).
Proof.
  split.
  - intros Hd Hlen.
    pose proof (decimalValue_bounds str Hd) as Hb.
    split; [apply strToNum_digits; exact Hd|]. split; [exact Hb|].
    assert (Hpow : 10 ^ Z.of_nat (List.length str) <= 10 ^ 15)
      by (apply Z.pow_le_mono_r; lia).
    assert (H53 : 10 ^ 15 < 2 ^ 53) by reflexivity.
    lia.
  - apply strToNum_illegal.
Qed.

Lemma strToNum_spec_witness :
  (QRNumeric.strToNum (JS.ofString "907") tt
   = (Returned (decimalValue (JS.ofString "907")), tt)
   /\ 0 <= decimalValue (JS.ofString "907")
      < 10 ^ Z.of_nat (List.length (JS.ofString "907"))
   /\ decimalValue (JS.ofString "907") < 2 ^ 53)
  /\ QRNumeric.strToNum (JS.ofString "9x7") tt
     = (Thrown (ThrownString "illegal char"), tt).
Proof.
  split.
  - apply (proj1 (strToNum_spec unit tt (JS.ofString "907"))).
    + repeat (apply Forall_cons; [unfold isDigitUnit; simpl; lia|]).
      apply Forall_nil.
    + simpl. lia.
  - apply (proj2 (strToNum_spec unit tt (JS.ofString "9x7"))).
    apply Exists_cons_tl, Exists_cons_hd. unfold isDigitUnit. simpl. lia.
Defined.

Lemma Exists_digit_dec (l : list N) :
  Forall isDigitUnit l \/ Exists (fun c => ~ isDigitUnit c) l.
Proof.
  induction l as [|c l [IH|IH]].
  - left. constructor.
  - destruct (isDigitUnitb c) eqn:Hd.
    + left. constructor; [apply isDigitUnitb_iff; exact Hd|exact IH].
    + right. apply Exists_cons_hd. intros H.
      apply isDigitUnitb_iff in H. congruence.
  - right. apply Exists_cons_tl. exact IH.
Qed.

Lemma write_loop_throws fuel :
  forall (pre suf : JS.JSString) bits,
    Exists (fun c => ~ isDigitUnit c) suf -> (List.length suf <= fuel)%nat ->
    exists bits',
      bind (QRNumeric.write_loop fuel (pre ++ suf) (List.length pre))
           (write_rest (pre ++ suf)) bits
      = (Thrown (ThrownString "illegal char"), bits').
Proof.
  induction fuel as [|fuel IH]; intros pre suf bits Hex Hlen.
  - destruct suf; [inversion Hex|simpl in Hlen; lia].
  - destruct suf as [|a [|b [|c rest]]].
    + inversion Hex.
    + unfold bind at 1. cbn [QRNumeric.write_loop].
      rewrite !length_app. decide_guards. unfold ret at 1.
      unfold write_rest. rewrite !length_app. decide_guards.
      rewrite (substring_app_offset pre [a] 1). cbn [firstn].
      erewrite bind_thrown; [|apply strToNum_illegal; exact Hex].
      eexists. reflexivity.
    + unfold bind at 1. cbn [QRNumeric.write_loop].
      rewrite !length_app. decide_guards. unfold ret at 1.
      unfold write_rest. rewrite !length_app. decide_guards.
      rewrite (substring_app_offset pre [a; b] 2). cbn [firstn].
      erewrite bind_thrown; [|apply strToNum_illegal; exact Hex].
      eexists. reflexivity.
    + cbn [List.length] in Hlen.
      unfold bind at 1. cbn [QRNumeric.write_loop].
      rewrite !length_app. decide_guards.
      rewrite (substring_app_offset pre (a :: b :: c :: rest) 3).
      cbn [firstn].
      destruct (Exists_digit_dec [a; b; c]) as [Hd3|Hbad].
      * erewrite bind_returned; [|apply strToNum_digits; exact Hd3].
        pose proof (decimalValue_bounds [a; b; c] Hd3) as Hb.
        cbn [List.length] in Hb.
        unfold BitBuffer.put at 1.
        erewrite bind_returned; [|apply appendBits_ok; simpl in *; lia].
        replace (pre ++ a :: b :: c :: rest)
          with ((pre ++ [a; b; c]) ++ rest)
          by (rewrite <- app_assoc; reflexivity).
        replace (List.length pre + 3)%nat
          with (List.length (pre ++ [a; b; c]))
          by (rewrite length_app; reflexivity).
        assert (Hrest : Exists (fun x => ~ isDigitUnit x) rest).
        { inversion Hd3 as [|? ? Ha Hd2]; subst.
          inversion Hd2 as [|? ? Hb' Hd1]; subst.
          inversion Hd1 as [|? ? Hc _]; subst.
          inversion Hex as [? ? H|? ? H1]; subst; [contradiction|].
          inversion H1 as [? ? H|? ? H2]; subst; [contradiction|].
          inversion H2 as [? ? H|? ? H3]; subst; [contradiction|].
          exact H3. }
        destruct (IH (pre ++ [a; b; c]) rest
                    (bits ++ BitArray.bitsOf (decimalValue [a; b; c])
                                             (Z.to_nat 10))
                    Hrest ltac:(lia)) as [bits' Hrun].
        unfold bind at 1 in Hrun. exists bits'. exact Hrun.
      * erewrite bind_thrown; [|apply strToNum_illegal; exact Hbad].
        eexists. reflexivity.
Qed.

(** X12. [QRNumeric.write] returns normally exactly on the strings of
    digits, having written the numeric segment; on a string with any
    other character it throws 'illegal char'. *)
Theorem write_returns_iff_digits (data : JS.JSString) (bits : BitBuffer.t) :
  (Forall isDigitUnit data ->
   QRNumeric.write data bits = (Returned tt, bits ++ numericSegment data))
  /\ (Exists (fun c => ~ isDigitUnit c) data ->
      exists bits',
        QRNumeric.write data bits
        = (Thrown (ThrownString "illegal char"), bits'))
  /\ (returned (QRNumeric.write data bits) = true <-> Forall isDigitUnit data).
Proof.
  assert (Hthrows : Exists (fun c => ~ isDigitUnit c) data ->
            exists bits',
              QRNumeric.write data bits
              = (Thrown (ThrownString "illegal char"), bits')).
  { intros Hex. rewrite write_unfold.
    apply (write_loop_throws (List.length data) [] data bits Hex). lia. }
  split; [apply write_digits|]. split; [exact Hthrows|].
  split.
  - intros Hret. destruct (Exists_digit_dec data) as [Hd|Hex]; [exact Hd|].
    destruct (Hthrows Hex) as [bits' Hrun]. rewrite Hrun in Hret.
    discriminate.
  - intros Hd. rewrite write_digits by exact Hd. reflexivity.
Qed.

Lemma write_returns_iff_digits_witness :
  QRNumeric.write (JS.ofString "4711") []
  = (Returned tt, [] ++ numericSegment (JS.ofString "4711"))
  /\ exists bits',
       QRNumeric.write (JS.ofString "123-456") []
       = (Thrown (ThrownString "illegal char"), bits').
Proof.
  split.
  - apply (proj1 (write_returns_iff_digits (JS.ofString "4711") [])).
    repeat (apply Forall_cons; [unfold isDigitUnit; simpl; lia|]).
    apply Forall_nil.
  - apply (proj1 (proj2 (write_returns_iff_digits (JS.ofString "123-456") []))).
    do 3 apply Exists_cons_tl. apply Exists_cons_hd.
    unfold isDigitUnit. simpl. lia.
Defined.

(** ** Mask selection *)

Section ChooseMaskPattern.

Variable ByteMatrix : Type.
Variable buildMatrix :
  BitArray.t -> ErrorCorrectionLevel.t -> Version.t -> Z -> M ByteMatrix unit.
Variables rule1 rule2 rule3 rule4 : ByteMatrix -> Z.
Variable bits : BitArray.t.
Variable ecLevel : ErrorCorrectionLevel.t.
Variable version : Version.t.

Lemma chooseMaskPattern_loop_spec (matrix : ByteMatrix) n :
  forall a minPenalty best,
    (forall k, (a <= k < a + n)%nat ->
       fst (buildMatrix bits ecLevel version (Z.of_nat k)
              (matrixBefore (buildMatrix bits ecLevel version) k matrix))
       = Returned tt) ->
    leastSoFar
      (fun k => trialPenalty (buildMatrix bits ecLevel version)
                  (Encoder.calculateMaskPenalty ByteMatrix rule1 rule2 rule3 rule4)
                  k matrix)
      Encoder.MAX_SAFE_INTEGER a minPenalty best ->
    exists minPenalty' best',
      Encoder.chooseMaskPattern_loop ByteMatrix buildMatrix rule1 rule2 rule3 rule4
        bits ecLevel version (map Z.of_nat (seq a n)) minPenalty best
        (matrixBefore (buildMatrix bits ecLevel version) a matrix)
      = (Returned best',
         matrixBefore (buildMatrix bits ecLevel version) (a + n) matrix)
      /\ leastSoFar
           (fun k => trialPenalty (buildMatrix bits ecLevel version)
                       (Encoder.calculateMaskPenalty ByteMatrix rule1 rule2 rule3 rule4)
                       k matrix)
           Encoder.MAX_SAFE_INTEGER (a + n) minPenalty' best'.
Proof.
  induction n as [|n IH]; intros a minPenalty best Hret Hinv.
  - exists minPenalty, best. rewrite Nat.add_0_r. split; [reflexivity|exact Hinv].
  - cbn [seq map Encoder.chooseMaskPattern_loop]. unfold bind at 1.
    pose proof (Hret a ltac:(lia)) as Hbuild.
    destruct (buildMatrix bits ecLevel version (Z.of_nat a)
                (matrixBefore (buildMatrix bits ecLevel version) a matrix))
      as [[[]|e] matrix'] eqn:Hrun; [|discriminate].
    assert (Hnext : matrix'
                    = matrixBefore (buildMatrix bits ecLevel version) (S a)
                        matrix)
      by (cbn [matrixBefore]; rewrite Hrun; reflexivity).
    rewrite Hnext. replace (a + S n)%nat with (S a + n)%nat by lia.
    destruct (Encoder.calculateMaskPenalty ByteMatrix rule1 rule2 rule3 rule4
                (matrixBefore (buildMatrix bits ecLevel version) (S a) matrix)
              <? minPenalty) eqn:Hlt.
    + apply Z.ltb_lt in Hlt. apply IH.
      * intros k Hk. apply Hret. lia.
      * right. exists a. unfold trialPenalty in *.
        destruct Hinv as [(_ & Hmin & Hall)|(b & _ & Hb & Hmin & Hbound & Hall & Hfirst)].
        -- repeat split; try lia.
           ++ intros k Hk. destruct (Nat.eq_dec k a) as [->|]; [lia|].
              specialize (Hall k ltac:(lia)). lia.
           ++ intros k Hk. specialize (Hall k ltac:(lia)). lia.
        -- repeat split; try lia.
           ++ intros k Hk. destruct (Nat.eq_dec k a) as [->|]; [lia|].
              specialize (Hall k ltac:(lia)). lia.
           ++ intros k Hk. specialize (Hall k ltac:(lia)). lia.
    + apply Z.ltb_ge in Hlt. apply IH.
      * intros k Hk. apply Hret. lia.
      * unfold trialPenalty in *.
        destruct Hinv as [(Hbest & Hmin & Hall)|(b & Hbest & Hb & Hmin & Hbound & Hall & Hfirst)].
        -- left. repeat split; try assumption.
           intros k Hk. destruct (Nat.eq_dec k a) as [->|]; [lia|].
           apply Hall. lia.
        -- right. exists b. repeat split; try assumption; try lia.
           intros k Hk. destruct (Nat.eq_dec k a) as [->|]; [lia|].
           apply Hall. lia.
Qed.

Lemma chooseMaskPattern_loop_throws (matrix : ByteMatrix) n :
  forall a minPenalty best j e matrix',
    (a <= j < a + n)%nat ->
    (forall k, (a <= k < j)%nat ->
       fst (buildMatrix bits ecLevel version (Z.of_nat k)
              (matrixBefore (buildMatrix bits ecLevel version) k matrix))
       = Returned tt) ->
    buildMatrix bits ecLevel version (Z.of_nat j)
      (matrixBefore (buildMatrix bits ecLevel version) j matrix)
    = (Thrown e, matrix') ->
    Encoder.chooseMaskPattern_loop ByteMatrix buildMatrix rule1 rule2 rule3 rule4
      bits ecLevel version (map Z.of_nat (seq a n)) minPenalty best
      (matrixBefore (buildMatrix bits ecLevel version) a matrix)
    = (Thrown e, matrix').
Proof.
  induction n as [|n IH]; intros a minPenalty best j e matrix' Hj Hret Hthrow.
  - lia.
  - cbn [seq map Encoder.chooseMaskPattern_loop]. unfold bind at 1.
    destruct (Nat.eq_dec j a) as [->|Hne].
    + rewrite Hthrow. reflexivity.
    + pose proof (Hret a ltac:(lia)) as Hbuild.
      destruct (buildMatrix bits ecLevel version (Z.of_nat a)
                  (matrixBefore (buildMatrix bits ecLevel version) a matrix))
        as [[[]|e'] matrix''] eqn:Hrun; [|discriminate].
      assert (Hnext : matrix''
                      = matrixBefore (buildMatrix bits ecLevel version) (S a)
                          matrix)
        by (cbn [matrixBefore]; rewrite Hrun; reflexivity).
      rewrite Hnext.
      destruct (_ <? minPenalty);
        apply (IH (S a) _ _ j e matrix'); try assumption; try lia;
        intros k Hk; apply Hret; lia.
Qed.

(** X13. [chooseMaskPattern] builds the eight mask patterns in turn into
    the one shared matrix and returns the first pattern of the least
    penalty; it leaves the matrix as the last trial (pattern 7) built it,
    not as the chosen pattern did.  It returns -1 only if no penalty is
    below [Number.MAX_SAFE_INTEGER].  When building a pattern throws, the
    exception is passed on and the later patterns are not tried. *)
Theorem chooseMaskPattern_first_minimum (matrix : ByteMatrix) :
  ((forall k, (k < 8)%nat ->
      fst (buildMatrix bits ecLevel version (Z.of_nat k)
             (matrixBefore (buildMatrix bits ecLevel version) k matrix))
      = Returned tt) ->
   exists minPenalty best,
     Encoder.chooseMaskPattern ByteMatrix buildMatrix rule1 rule2 rule3 rule4
       bits ecLevel version matrix
     = (Returned best,
        matrixBefore (buildMatrix bits ecLevel version) 8 matrix)
     /\ leastSoFar
          (fun k => trialPenalty (buildMatrix bits ecLevel version)
                      (Encoder.calculateMaskPenalty ByteMatrix rule1 rule2 rule3 rule4)
                      k matrix)
          Encoder.MAX_SAFE_INTEGER 8 minPenalty best)
  /\ (forall j e matrix',
        (j < 8)%nat ->
        (forall k, (k < j)%nat ->
           fst (buildMatrix bits ecLevel version (Z.of_nat k)
                  (matrixBefore (buildMatrix bits ecLevel version) k matrix))
           = Returned tt) ->
        buildMatrix bits ecLevel version (Z.of_nat j)
          (matrixBefore (buildMatrix bits ecLevel version) j matrix)
        = (Thrown e, matrix') ->
        Encoder.chooseMaskPattern ByteMatrix buildMatrix rule1 rule2 rule3 rule4
          bits ecLevel version matrix
        = (Thrown e, matrix')).
Proof.
  split.
  - intros Hret.
    apply (chooseMaskPattern_loop_spec matrix 8 0 Encoder.MAX_SAFE_INTEGER (-1)).
    + intros k Hk. apply Hret. lia.
    + left. repeat split. intros k Hk. lia.
  - intros j e matrix' Hj Hret Hthrow.
    apply (chooseMaskPattern_loop_throws matrix 8 0 Encoder.MAX_SAFE_INTEGER
             (-1) j e matrix'); [lia| |exact Hthrow].
    intros k Hk. apply Hret. lia.
Qed.

End ChooseMaskPattern.

Example sample_mask_choice :
  Encoder.chooseMaskPattern Z sampleBuildMatrix samplePenaltyRule noPenalty
    noPenalty noPenalty BitArray.empty ErrorCorrectionLevel.L sampleVersion1 0
  = (Returned 4, 7).
Proof. vm_compute. reflexivity. Qed.

Lemma chooseMaskPattern_first_minimum_witness :
  exists minPenalty best,
    Encoder.chooseMaskPattern Z sampleBuildMatrix samplePenaltyRule noPenalty
      noPenalty noPenalty BitArray.empty ErrorCorrectionLevel.L
      sampleVersion1 0
    = (Returned best,
       matrixBefore
         (sampleBuildMatrix BitArray.empty ErrorCorrectionLevel.L
            sampleVersion1) 8 0)
    /\ leastSoFar
         (fun k => trialPenalty
                     (sampleBuildMatrix BitArray.empty ErrorCorrectionLevel.L
                        sampleVersion1)
                     (Encoder.calculateMaskPenalty Z samplePenaltyRule
                        noPenalty noPenalty noPenalty)
                     k 0)
         Encoder.MAX_SAFE_INTEGER 8 minPenalty best.
Proof.
  apply (proj1 (chooseMaskPattern_first_minimum Z sampleBuildMatrix
                  samplePenaltyRule noPenalty noPenalty noPenalty
                  BitArray.empty ErrorCorrectionLevel.L sampleVersion1 0)).
  intros k Hk. reflexivity.
Defined.

(** ** The binarizer's clamp *)

(** X14. With [min <= max], [numBetween] clamps: its result lies in
    [min .. max], it is the value itself exactly when the value lies
    there, and it is monotone in the value.  With [max < min] the result
    is never the value: it is [min] below [min] and [max] elsewhere. *)
Theorem numBetween_clamps (value min max : Z) :
  (min <= max ->
   min <= Binarizer.numBetween value min max <= max
   /\ (Binarizer.numBetween value min max = value <-> min <= value <= max)
   /\ forall value', value <= value' ->
        Binarizer.numBetween value min max
        <= Binarizer.numBetween value' min max)
  /\ (max < min ->
      Binarizer.numBetween value min max
      = if value <? min then min else max).
Proof.
  unfold Binarizer.numBetween. split.
  - intros Hle. repeat split.
    + destruct (Z.ltb_spec value min); [lia|].
      destruct (Z.gtb_spec value max); lia.
    + destruct (Z.ltb_spec value min); [lia|].
      destruct (Z.gtb_spec value max); lia.
    + destruct (Z.ltb_spec value min); [lia|].
      destruct (Z.gtb_spec value max); lia.
    + destruct (Z.ltb_spec value min); [lia|].
      destruct (Z.gtb_spec value max); lia.
    + destruct (Z.ltb_spec value min); [lia|].
      destruct (Z.gtb_spec value max); lia.
    + intros value' Hv.
      destruct (Z.ltb_spec value min); destruct (Z.ltb_spec value' min);
        destruct (Z.gtb_spec value max); destruct (Z.gtb_spec value' max);
        lia.
  - intros Hlt.
    destruct (Z.ltb_spec value min); [reflexivity|].
    destruct (Z.gtb_spec value max); [reflexivity|lia].
Qed.

Lemma numBetween_clamps_witness :
  (2 <= Binarizer.numBetween 9 2 5 <= 5
   /\ (Binarizer.numBetween 9 2 5 = 9 <-> 2 <= 9 <= 5)
   /\ forall value', 9 <= value' ->
        Binarizer.numBetween 9 2 5 <= Binarizer.numBetween value' 2 5)
  /\ Binarizer.numBetween 3 2 1 = (if 3 <? 2 then 2 else 1).
Proof.
  split.
  - apply (proj1 (numBetween_clamps 9 2 5)). lia.
  - apply (proj2 (numBetween_clamps 3 2 1)). lia.
Defined.

(** ** The decoder's inversion attempts *)

Section DecodeAttempts.

Variable BitMatrix : Type.
Variable DecoderResult : Type.
Variable binarize :
  list Z -> Z -> Z -> bool -> Outcome (Decoder.BinarizeResult BitMatrix).
Variable scan : option BitMatrix -> Outcome (option DecoderResult).

Lemma inversionAttemptsIs_setOptions (o : option Decoder.Options)
  (s : Decoder.Options) (v : Decoder.InversionAttempts) :
  Decoder.inversionAttemptsIs (snd (Decoder.setOptions o s)) v
  = match effectiveAttempts o with
    | Some a => Decoder.InversionAttempts_eqb a v
    | None => false
    end.
Proof.
  destruct o as [[[|[a|]]]|]; reflexivity.
Qed.

Lemma decode_after_setOptions (o : option Decoder.Options)
  (s : Decoder.Options) (data : list Z) (width height : Z) :
  fst ((Decoder.setOptions o ;;
        Decoder.decode binarize scan data width height) s)
  = match effectiveAttempts o with
    | Some Decoder.attemptBoth =>
        match binarize data width height true with
        | Thrown e => Thrown e
        | Returned r =>
            scanThen scan (Some (Decoder.binarized r)) (Decoder.inverted r)
        end
    | Some Decoder.invertFirst =>
        match binarize data width height true with
        | Thrown e => Thrown e
        | Returned r =>
            scanThen scan (Decoder.inverted r) (Some (Decoder.binarized r))
        end
    | Some Decoder.onlyInvert =>
        match binarize data width height false with
        | Thrown e => Thrown e
        | Returned r => scan (Decoder.inverted r)
        end
    | Some Decoder.dontInvert | None =>
        match binarize data width height false with
        | Thrown e => Thrown e
        | Returned r => scan (Some (Decoder.binarized r))
        end
    end.
Proof.
  unfold bind. cbn [Decoder.setOptions].
  unfold Decoder.decode.
  pose proof (inversionAttemptsIs_setOptions o s) as His.
  cbn [Decoder.setOptions snd] in His. rewrite !His.
  unfold scanThen.
  destruct (effectiveAttempts o) as [[]|]; cbn [Decoder.InversionAttempts_eqb orb andb];
    match goal with
    | |- context [binarize data width height ?b] =>
        destruct (binarize data width height b) as [r|e]; [|reflexivity]
    end;
    match goal with
    | |- context [scan ?m] => destruct (scan m) as [[res|]|e]
    end; try reflexivity.
Qed.

(** X15. After [setOptions], [decode] asks the binarizer for the inverted
    matrix only under 'attemptBoth' (also the setting when the option is
    left out) and 'invertFirst'.  Under 'attemptBoth' it scans the
    binarized matrix and, when that finds nothing, the inverted one;
    under 'invertFirst' the other way round; under 'dontInvert' (or an
    [undefined] setting) it scans the binarized matrix only; under
    'onlyInvert' it scans the [inverted] property of a result it asked
    for without inversion, and never the binarized matrix. *)
Theorem decode_inversion_attempts (o : option Decoder.Options)
  (s : Decoder.Options) (data : list Z) (width height : Z)
  (r : Decoder.BinarizeResult BitMatrix) :
  binarize data width height
    match effectiveAttempts o with
    | Some Decoder.attemptBoth | Some Decoder.invertFirst => true
    | _ => false
    end = Returned r ->
  fst ((Decoder.setOptions o ;;
        Decoder.decode binarize scan data width height) s)
  = match effectiveAttempts o with
    | Some Decoder.attemptBoth =>
        scanThen scan (Some (Decoder.binarized r)) (Decoder.inverted r)
    | Some Decoder.invertFirst =>
        scanThen scan (Decoder.inverted r) (Some (Decoder.binarized r))
    | Some Decoder.onlyInvert => scan (Decoder.inverted r)
    | Some Decoder.dontInvert | None => scan (Some (Decoder.binarized r))
    end.
Proof.
  intros Hbin. rewrite decode_after_setOptions.
  destruct (effectiveAttempts o) as [[]|]; rewrite Hbin; reflexivity.
Qed.

(** X16. Under 'onlyInvert' no matrix reaches the scanner: a binarizer
    that leaves [inverted] out when it is not asked for it (as [binarize]
    does) makes [decode] call [scan] on [undefined], and the outcome of
    [decode] is the outcome of that call, whatever the image. *)
Theorem decode_onlyInvert_scans_undefined (s : Decoder.Options)
  (data : list Z) (width height : Z) :
  (forall r, binarize data width height false = Returned r ->
             Decoder.inverted r = None) ->
  (exists r, binarize data width height false = Returned r) ->
  fst ((Decoder.setOptions
          (Some {| Decoder.inversionAttempts :=
                     Decoder.Present (Some Decoder.onlyInvert) |}) ;;
        Decoder.decode binarize scan data width height) s)
  = scan None.
Proof.
  intros Hnone [r Hbin]. rewrite decode_after_setOptions.
  cbn [effectiveAttempts Decoder.inversionAttempts].
  rewrite Hbin, (Hnone r Hbin). reflexivity.
Qed.

End DecodeAttempts.

Lemma decode_inversion_attempts_witness :
  fst ((Decoder.setOptions None ;;
        Decoder.decode sampleBinarize sampleScan [] 0 0) Decoder.defaultOptions)
  = scanThen sampleScan (Some 1) (Some 2).
Proof.
  apply (decode_inversion_attempts Z Z sampleBinarize sampleScan None
           Decoder.defaultOptions [] 0 0
           {| Decoder.binarized := 1; Decoder.inverted := Some 2 |}).
  reflexivity.
Defined.

Lemma decode_onlyInvert_scans_undefined_witness :
  fst ((Decoder.setOptions
          (Some {| Decoder.inversionAttempts :=
                     Decoder.Present (Some Decoder.onlyInvert) |}) ;;
        Decoder.decode sampleBinarize sampleScan [] 0 0)
         Decoder.defaultOptions)
  = sampleScan None.
Proof.
  apply (decode_onlyInvert_scans_undefined Z Z sampleBinarize sampleScan).
  - intros r Hr. injection Hr as <-. reflexivity.
  - eexists. reflexivity.
Defined.

(** ** Interleaving loses nothing *)

Lemma column_tl {A} (i : nat) (blocks : list (list A)) :
  column (S i) blocks = column i (map (@tl A) blocks).
Proof.
  unfold column. induction blocks as [|block blocks IH]; [reflexivity|].
  cbn [map flat_map]. rewrite IH. f_equal.
  destruct block as [|x block]; [destruct i; reflexivity|reflexivity].
Qed.

Lemma maxLength_tl {A} (blocks : list (list A)) :
  maxLength (map (@tl A) blocks) = Nat.pred (maxLength blocks).
Proof.
  induction blocks as [|block blocks IH]; [reflexivity|].
  cbn [map maxLength fold_right]. fold (maxLength (map (@tl A) blocks)).
  fold (maxLength blocks). rewrite IH.
  destruct block as [|x block]; cbn [tl List.length]; lia.
Qed.

Lemma flat_map_shift {A} (f : nat -> list A) (a n : nat) :
  flat_map f (seq (S a) n) = flat_map (fun i => f (S i)) (seq a n).
Proof.
  revert a. induction n as [|n IH]; intros a; [reflexivity|].
  cbn [seq flat_map]. rewrite IH. reflexivity.
Qed.

Lemma interleave_heads_tails {A} (blocks : list (list A)) :
  maxLength blocks <> 0%nat ->
  interleave blocks
  = column 0 blocks ++ interleave (map (@tl A) blocks).
Proof.
  intros Hmax. unfold interleave. rewrite maxLength_tl.
  destruct (maxLength blocks) as [|n]; [contradiction|].
  cbn [seq flat_map Nat.pred]. f_equal.
  rewrite flat_map_shift. apply flat_map_ext. intros i. apply column_tl.
Qed.

Lemma concat_heads_tails {A} (blocks : list (list A)) :
  Permutation (List.concat blocks)
    (column 0 blocks ++ List.concat (map (@tl A) blocks)).
Proof.
  induction blocks as [|block blocks IH]; [constructor|].
  destruct block as [|x block].
  - exact IH.
  - cbn [List.concat map tl]. unfold column in *. cbn [flat_map nth_error app].
    constructor. rewrite IH.
    rewrite !app_assoc. apply Permutation_app_tail, Permutation_app_comm.
Qed.

Lemma maxLength_0_concat {A} (blocks : list (list A)) :
  maxLength blocks = 0%nat -> List.concat blocks = [].
Proof.
  induction blocks as [|block blocks IH]; [reflexivity|].
  cbn [maxLength fold_right]. fold (maxLength blocks). intros Hmax.
  destruct block as [|x block]; [|cbn [List.length] in Hmax; lia].
  apply IH. cbn [List.length] in Hmax. lia.
Qed.

Lemma interleave_permutation {A} (n : nat) :
  forall blocks : list (list A),
    maxLength blocks = n ->
    Permutation (interleave blocks) (List.concat blocks).
Proof.
  induction n as [|n IH]; intros blocks Hmax.
  - rewrite (maxLength_0_concat blocks Hmax). unfold interleave.
    rewrite Hmax. constructor.
  - rewrite interleave_heads_tails by lia.
    rewrite (concat_heads_tails blocks).
    apply Permutation_app_head, IH. rewrite maxLength_tl, Hmax. reflexivity.
Qed.

(** X17. The codewords that [interleaveWithECBytes] returns are a
    rearrangement of the data bytes of the bit array followed by the
    error correction bytes of the blocks: every byte is there, as many
    times as it was, and there are [numTotalBytes] of them.  The blocks
    are the ones the code cuts: their data bytes are the bytes of the bit
    array in order, block [j] has the sizes that
    [getNumDataBytesAndNumECBytesForBlockID] gives for [j], and its error
    correction bytes are what [generateECBytes] returns for its data
    bytes. *)
Theorem interleaveWithECBytes_rearranges
  (ReedSolomonEncoder_encode : list Z -> Z -> Outcome (list Z))
  (St : Type) (s s' : St) (bits : BitArray.t)
  (numTotalBytes numDataBytes numRSBlocks : Z) (result : BitArray.t) :
  Encoder.interleaveWithECBytes ReedSolomonEncoder_encode bits numTotalBytes
    numDataBytes numRSBlocks s = (Returned result, s') ->
  exists codewords blocks,
    result = bytesToBits codewords
    /\ List.length blocks = Z.to_nat numRSBlocks
    /\ List.concat (map Encoder.BlockPair.getDataBytes blocks)
       = BitArray.toBytes bits 0 (Z.to_nat numDataBytes)
    /\ (forall j block,
          nth_error blocks j = Some block ->
          exists numDataBytesInBlock numEcBytesInBlock,
            blockSizesOf numTotalBytes numDataBytes numRSBlocks (Z.of_nat j)
            = Returned (numDataBytesInBlock, numEcBytesInBlock)
            /\ Z.of_nat (List.length (Encoder.BlockPair.getDataBytes block))
               = numDataBytesInBlock
            /\ fst (Encoder.generateECBytes ReedSolomonEncoder_encode
                      (Encoder.BlockPair.getDataBytes block)
                      numEcBytesInBlock tt)
               = Returned (Encoder.BlockPair.getErrorCorrectionBytes block))
    /\ Permutation codewords
         (BitArray.toBytes bits 0 (Z.to_nat numDataBytes)
          ++ List.concat
               (map Encoder.BlockPair.getErrorCorrectionBytes blocks))
    /\ Z.of_nat (List.length codewords) = numTotalBytes.
Proof.
  intros Hrun. apply interleaveWithECBytes_returned in Hrun.
  destruct Hrun as (_ & vars & Hinv & Hoff & Hresult & Htotal).
  destruct Hinv as (Hlen & _ & _ & Hoffset & Hdata & Hblocks).
  assert (Hcount : totalLength (map Encoder.BlockPair.getDataBytes
                                  (Encoder.blocks vars))
                   = Z.to_nat numDataBytes) by lia.
  exists (interleave (map Encoder.BlockPair.getDataBytes (Encoder.blocks vars))
          ++ interleave (map Encoder.BlockPair.getErrorCorrectionBytes
                           (Encoder.blocks vars))),
         (Encoder.blocks vars).
  split; [exact Hresult|]. split; [exact Hlen|].
  split; [rewrite Hdata, Hcount; reflexivity|]. split; [|split].
  - intros j block Hnth.
    destruct (Hblocks j block Hnth) as (nd & ne & Hsizes & Hd & _ & Hec).
    exists nd, ne. repeat split; assumption.
  - apply Permutation_app.
    + rewrite <- Hcount, <- Hdata. apply (interleave_permutation _ _ eq_refl).
    + apply (interleave_permutation _ _ eq_refl).
  - rewrite Hresult, bytesToBits_sizeInBytes in Htotal. exact Htotal.
Qed.

Lemma interleaveWithECBytes_rearranges_witness :
  exists codewords blocks,
    bytesToBits [x01; x04; x02; x05; x03; x06; x00; x00; x00; x00]
    = bytesToBits codewords
    /\ List.length blocks = Z.to_nat 2
    /\ List.concat (map Encoder.BlockPair.getDataBytes blocks)
       = BitArray.toBytes
           (bytesToBits [x01; x02; x03; x04; x05; x06]) 0 (Z.to_nat 6)
    /\ (forall j block,
          nth_error blocks j = Some block ->
          exists numDataBytesInBlock numEcBytesInBlock,
            blockSizesOf 10 6 2 (Z.of_nat j)
            = Returned (numDataBytesInBlock, numEcBytesInBlock)
            /\ Z.of_nat (List.length (Encoder.BlockPair.getDataBytes block))
               = numDataBytesInBlock
            /\ fst (Encoder.generateECBytes sampleReedSolomon
                      (Encoder.BlockPair.getDataBytes block)
                      numEcBytesInBlock tt)
               = Returned (Encoder.BlockPair.getErrorCorrectionBytes block))
    /\ Permutation codewords
         (BitArray.toBytes
            (bytesToBits [x01; x02; x03; x04; x05; x06]) 0 (Z.to_nat 6)
          ++ List.concat
               (map Encoder.BlockPair.getErrorCorrectionBytes blocks))
    /\ Z.of_nat (List.length codewords) = 10.
Proof.
  apply (interleaveWithECBytes_rearranges sampleReedSolomon unit tt tt
           (bytesToBits [x01; x02; x03; x04; x05; x06]) 10 6 2).
  vm_compute. reflexivity.
Defined.

(** ** The block split and the offset check *)

Section OffsetMismatch.

Variable ReedSolomonEncoder_encode : list Z -> Z -> Outcome (list Z).

Hypothesis ReedSolomonEncoder_returns :
  forall toEncode ecBytes,
    0 < ecBytes -> ecBytes < Z.of_nat (List.length toEncode) ->
    exists encoded, ReedSolomonEncoder_encode toEncode ecBytes = Returned encoded.

(** X18. The blocks take [numDataBytes] data bytes in all only when
    [numDataBytes] and [numTotalBytes] leave the same remainder modulo
    [numRSBlocks]: with different remainders the blocks are cut and
    their error correction bytes computed, and then
    [interleaveWithECBytes] throws 'Data bytes does not match offset'. *)
Theorem interleaveWithECBytes_offset_mismatch (St : Type) (s : St)
  (bits : BitArray.t) (numTotalBytes numDataBytes numRSBlocks : Z) :
  BitArray.getSizeInBytes bits = numDataBytes ->
  0 < numRSBlocks <= numDataBytes ->
  numDataBytes + numRSBlocks <= numTotalBytes < 2 ^ 31 ->
  numDataBytes mod numRSBlocks <> numTotalBytes mod numRSBlocks ->
  Encoder.interleaveWithECBytes ReedSolomonEncoder_encode bits
    numTotalBytes numDataBytes numRSBlocks s
  = (Thrown (WriterException "Data bytes does not match offset"), s).
Proof.
  intros Hsize HB HT Hmod.
  destruct (interleave_divide_returns ReedSolomonEncoder_encode
              ReedSolomonEncoder_returns bits numTotalBytes numDataBytes
              numRSBlocks ltac:(lia) ltac:(lia) HB ltac:(lia)
              (Z.to_nat numRSBlocks) 0%nat
              (Encoder.mkInterleaveVars 0 0 0 []) ltac:(lia))
    as [vars Hloop].
  pose proof (interleave_divide_loop ReedSolomonEncoder_encode bits
                numTotalBytes numDataBytes numRSBlocks (Z.to_nat numRSBlocks)
                0 _ vars (dividedInto_start _ _ _ _ _) Hloop) as Hinv.
  destruct Hinv as (Hlen & _ & _ & Hoff & _ & Hblocks).
  cbn [Nat.add] in Hlen.
  pose proof (Z.mod_pos_bound numTotalBytes numRSBlocks ltac:(lia)) as Hg2.
  pose proof (Z.mod_pos_bound numDataBytes numRSBlocks ltac:(lia)) as Hd2.
  pose proof (Z.div_mod numDataBytes numRSBlocks ltac:(lia)) as HDdm.
  assert (Hdata : Z.of_nat
                    (totalLength
                       (map Encoder.BlockPair.getDataBytes
                          (Encoder.blocks vars)))
                  = numRSBlocks * (numDataBytes / numRSBlocks)
                    + numTotalBytes mod numRSBlocks).
  { rewrite (totalLength_by_index
               (fun j => if j <? numRSBlocks - numTotalBytes mod numRSBlocks
                         then numDataBytes / numRSBlocks
                         else numDataBytes / numRSBlocks + 1)).
    - rewrite length_map, Hlen, sumZ_two_groups by lia.
      rewrite Z2Nat.id by lia. rewrite Z.min_r, Z.max_r by lia. nia.
    - intros j block Hnth. apply nth_error_map_some in Hnth.
      destruct Hnth as (pair & Hnth & <-).
      assert (Hj : (j < List.length (Encoder.blocks vars))%nat)
        by (apply nth_error_Some; congruence).
      destruct (Hblocks j pair Hnth) as (nd & ne & Hs & Hd & _).
      unfold blockSizesOf in Hs.
      rewrite getNumDataBytesAndNumECBytesForBlockID_returns in Hs by lia.
      cbn [fst] in Hs. injection Hs as <- _. exact Hd. }
  unfold Encoder.interleaveWithECBytes.
  rewrite (proj2 (Z.eqb_eq _ _) Hsize). cbn [negb].
  unfold upTo. rewrite Hloop.
  rewrite (proj2 (Z.eqb_neq numDataBytes (Encoder.dataBytesOffset vars)))
    by lia.
  reflexivity.
Qed.

End OffsetMismatch.

Lemma interleaveWithECBytes_offset_mismatch_witness :
  Encoder.interleaveWithECBytes sampleReedSolomon
    (bytesToBits [x01; x02; x03; x04; x05]) 10 5 2 tt
  = (Thrown (WriterException "Data bytes does not match offset"), tt).
Proof.
  apply (interleaveWithECBytes_offset_mismatch sampleReedSolomon
           sampleReedSolomon_returns unit tt
           (bytesToBits [x01; x02; x03; x04; x05]) 10 5 2).
  - reflexivity.
  - lia.
  - lia.
  - vm_compute. discriminate.
Defined.

(** ** The capacity test and the termination *)

(** X19. A bit array that passes [willFit] for a version never makes
    [terminateBits] throw for that version's data codewords, and it
    leaves room for the whole terminator: four zero bits are appended,
    then the zero bits up to the byte boundary and the padding bytes. *)
Theorem willFit_then_terminateBits (bits : BitArray.t)
  (version : Version.t) (ecLevel : ErrorCorrectionLevel.t) :
  Encoder.willFit (BitArray.getSize bits) version ecLevel = true ->
  exists numZeros numPadding,
    Encoder.terminateBits (numDataCodewords version ecLevel) bits
    = (Returned tt,
       bits ++ repeat false 4 ++ repeat false numZeros
            ++ paddingBytes numPadding)
    /\ (numZeros < 8)%nat
    /\ (BitArray.getSize bits + 4 + Z.of_nat numZeros) mod 8 = 0
    /\ BitArray.getSize bits + 4 + Z.of_nat numZeros
       + 8 * Z.of_nat numPadding
       = 8 * numDataCodewords version ecLevel.
Proof.
  intros Hfit. apply willFit_iff in Hfit.
  destruct (terminateBits_fits (numDataCodewords version ecLevel) bits
              ltac:(lia)) as (Hrun & Htotal & Haligned).
  cbv zeta in Hrun, Htotal, Haligned.
  replace (Z.to_nat (Z.min 4 (numDataCodewords version ecLevel * 8
                              - BitArray.getSize bits)))
    with 4%nat in * by lia.
  eexists. eexists. split; [exact Hrun|].
  change (Z.of_nat 4) with 4 in *.
  pose proof (Z.mod_pos_bound (- (BitArray.getSize bits + 4)) 8 ltac:(lia)).
  repeat split; try assumption; lia.
Qed.

Lemma willFit_then_terminateBits_witness :
  exists numZeros numPadding,
    Encoder.terminateBits (numDataCodewords sampleVersion1 ErrorCorrectionLevel.L)
      [true; false; true]
    = (Returned tt,
       [true; false; true] ++ repeat false 4 ++ repeat false numZeros
            ++ paddingBytes numPadding)
    /\ (numZeros < 8)%nat
    /\ (BitArray.getSize [true; false; true] + 4 + Z.of_nat numZeros) mod 8 = 0
    /\ BitArray.getSize [true; false; true] + 4 + Z.of_nat numZeros
       + 8 * Z.of_nat numPadding
       = 8 * numDataCodewords sampleVersion1 ErrorCorrectionLevel.L.
Proof.
  apply (willFit_then_terminateBits [true; false; true] sampleVersion1
           ErrorCorrectionLevel.L).
  vm_compute. reflexivity.
Defined.

(** ** Error correction bytes of one block *)




(** ** [encode] with a requested version *)

Section EncodeVersionHint.

Variable StringEncoding_encode : JS.JSString -> string -> Outcome (list byte).
Variables SJIS UTF8 : CharacterSetECI.t.
Variable getCharacterSetECIByName : string -> option CharacterSetECI.t.
Variable getVersionForNumber : Z -> Outcome Version.t.
Variable ReedSolomonEncoder_encode : list Z -> Z -> Outcome (list Z).

(** X21. With a [QR_VERSION] hint, [encode] uses the row of that number
    and no other: when it gets as far as the interleaved codewords, the
    version is the hinted one and the header, the length field of that
    version and the data pass [willFit] for it; when they do not pass,
    it throws 'Data too big for requested version' rather than taking a
    larger version. *)
Theorem encode_version_hint (St : Type) (s : St) (content : JS.JSString)
  (ecLevel : ErrorCorrectionLevel.t) (charset : option string)
  (versionNumber : Z) (requested : Version.t) (mode : Mode.t)
  (encoding : string) (headerBits dataBits : BitArray.t) :
  getVersionForNumber versionNumber = Returned requested ->
  Encoder.encode_headerBits StringEncoding_encode SJIS UTF8
    getCharacterSetECIByName content
    (Some (EncodeHints.mk charset (Some versionNumber))) BitArray.empty
  = (Returned (mode, encoding), headerBits) ->
  Encoder.appendBytes StringEncoding_encode SJIS content mode encoding
    BitArray.empty
  = (Returned tt, dataBits) ->
  (forall mode' version finalBits s',
     Encoder.encode_finalBits StringEncoding_encode SJIS UTF8
       getCharacterSetECIByName getVersionForNumber
       ReedSolomonEncoder_encode content ecLevel
       (Some (EncodeHints.mk charset (Some versionNumber))) s
     = (Returned (mode', version, finalBits), s') ->
     version = requested
     /\ Encoder.willFit
          (Encoder.calculateBitsNeeded mode headerBits dataBits requested)
          requested ecLevel = true)
  /\ (Encoder.willFit
        (Encoder.calculateBitsNeeded mode headerBits dataBits requested)
        requested ecLevel = false ->
      Encoder.encode_finalBits StringEncoding_encode SJIS UTF8
        getCharacterSetECIByName getVersionForNumber
        ReedSolomonEncoder_encode content ecLevel
        (Some (EncodeHints.mk charset (Some versionNumber))) s
      = (Thrown (WriterException "Data too big for requested version"), s)).
Proof.
  intros Hrow Hheader Hdata.
  unfold Encoder.encode_finalBits. rewrite Hheader, Hdata, Hrow.
  unfold bind, Encoder.lift. cbv beta iota.
  destruct (Encoder.willFit
              (Encoder.calculateBitsNeeded mode headerBits dataBits requested)
              requested ecLevel) eqn:Hfit; cbn [negb]; unfold ret, throw.
  - split; [|discriminate].
    intros mode' version finalBits s'.
    match goal with
    | |- (let (_, _) := ?run in _) _ = _ -> _ =>
        destruct run as [[[]|e] headerAndDataBits]; [|discriminate]
    end.
    destruct (Encoder.interleaveWithECBytes _ headerAndDataBits _ _ _ s)
      as [[result|e] s2]; [|discriminate].
    intros [= _ <- _ _]. split; reflexivity.
  - split; [|reflexivity].
    intros mode' version finalBits s'. discriminate.
Qed.

End EncodeVersionHint.

Lemma encode_version_hint_witness :
  Encoder.encode_finalBits sampleEncode sampleSJIS sampleUTF8
    sampleGetCharacterSetECIByName sampleRows sampleReedSolomon
    (JS.ofString "0123456789012345678901234567890123456789012345")
    ErrorCorrectionLevel.L (Some (EncodeHints.mk None (Some 1))) tt
  = (Thrown (WriterException "Data too big for requested version"), tt).
Proof.
  apply (proj2 (encode_version_hint sampleEncode sampleSJIS sampleUTF8
                  sampleGetCharacterSetECIByName sampleRows sampleReedSolomon
                  unit tt
                  (JS.ofString
                     "0123456789012345678901234567890123456789012345")
                  ErrorCorrectionLevel.L None 1 (sampleRow 1) Mode.NUMERIC
                  (Encoder.DEFAULT_BYTE_MODE_ENCODING sampleUTF8)
                  (BitArray.bitsOf 1 4)
                  (numericSegment
                     (JS.ofString
                        "0123456789012345678901234567890123456789012345"))
                  eq_refl ltac:(vm_compute; reflexivity)
                  ltac:(vm_compute; reflexivity))).
  vm_compute. reflexivity.
Defined.
